(** * Audit-trail pipeline: chunker, evidence model and reliability ranker

    A shallow embedding of
    - [src/pipeline/chunking.py]  ([sha256_hex], [chunk_document],
                                   [write_chunks_to_file]),
    - [src/common/evidence.py]    ([Evidence], [Field], [flag], [ok]),
    - [src/api/server.py]         ([_build_reliability_map], the weighting,
                                   sorting and truncation of [query_endpoint]),
    followed by the properties the specification states about them and
    by further properties of the same code (number, content and
    identifiers of the chunks, the JSON lines file, the response).

    Conventions.  Python [int] is [Z]; Python [float] is the kernel's IEEE 754
    binary64 [float]; Python [str] is [string], one [ascii] per code point
    (code points 0..255); a [dict] with string keys is a [gmap string _];
    a raised exception is the [Raise] case of [result]. *)

From Stdlib Require Import ZArith Lia Ascii String List Bool.
From Stdlib Require Import DecimalString DecimalZ.
From Stdlib Require Import Floats.
From stdpp Require Import gmap strings list sorting.

Local Open Scope Z_scope.

(** ** Python built-ins used by the sources *)

Module Py.

(** [len(s)] *)
Definition len (s : string) : Z := Z.of_nat (String.length s).

(** A slice bound as [s[lo:hi]] normalises it: a negative bound counts from
    the end, and the result is clamped to [0 .. len]. *)
Definition slice_bound (n i : Z) : Z :=
  if i <? 0 then Z.max (i + n) 0 else Z.min i n.

(** [s[start:stop]] *)
Definition slice (s : string) (start stop : Z) : string :=
  let lo := slice_bound (len s) start in
  let hi := slice_bound (len s) stop in
  String.substring (Z.to_nat lo) (Z.to_nat (hi - lo)) s.

(** [str(i)] for an [int]: the decimal digits, with a leading minus sign
    for a negative number. *)
Definition str_int (i : Z) : string := NilZero.string_of_int (Z.to_int i).

(** [bool(s)] for a [str]: the empty string is false. *)
Definition truthy_str (s : string) : bool :=
  match s with EmptyString => false | String _ _ => true end.

(** [s.encode("utf-8")] for code points below 256: one byte below 128, two
    bytes from 128 on.  Bytes are integers in [0 .. 255]. *)
Definition utf8_char (c : ascii) : list Z :=
  let n := Z.of_N (N_of_ascii c) in
  if n <? 128 then [n]
  else [Z.lor 192 (Z.shiftr n 6); Z.lor 128 (Z.land n 63)].

Fixpoint encode_utf8 (s : string) : list Z :=
  match s with
  | EmptyString => []
  | String c s' => utf8_char c ++ encode_utf8 s'
  end.

(** [s * k]: [k] copies of [s], none when [k] is not positive. *)
Definition str_mul (s : string) (k : Z) : string :=
  Nat.iter (Z.to_nat k) (String.append s) EmptyString.

(** ["".join(parts)] *)
Definition join (parts : list string) : string :=
  fold_right String.append EmptyString parts.

End Py.

(** ** SHA-256 (FIPS 180-4), as [hashlib.sha256] computes it *)

Module SHA256.

Definition mask32 : Z := 0xffffffff.
Definition w32 (x : Z) : Z := Z.land x mask32.
Definition add32 (x y : Z) : Z := w32 (x + y).
Definition rotr (n x : Z) : Z :=
  Z.lor (Z.shiftr x n) (w32 (Z.shiftl x (32 - n))).
Definition not32 (x : Z) : Z := Z.lxor x mask32.

Definition Ch (x y z : Z) : Z := Z.lxor (Z.land x y) (Z.land (not32 x) z).
Definition Maj (x y z : Z) : Z :=
  Z.lxor (Z.lxor (Z.land x y) (Z.land x z)) (Z.land y z).
Definition Sigma0 (x : Z) : Z := Z.lxor (Z.lxor (rotr 2 x) (rotr 13 x)) (rotr 22 x).
Definition Sigma1 (x : Z) : Z := Z.lxor (Z.lxor (rotr 6 x) (rotr 11 x)) (rotr 25 x).
Definition sigma0 (x : Z) : Z := Z.lxor (Z.lxor (rotr 7 x) (rotr 18 x)) (Z.shiftr x 3).
Definition sigma1 (x : Z) : Z := Z.lxor (Z.lxor (rotr 17 x) (rotr 19 x)) (Z.shiftr x 10).

(** The round constants are the first 32 bits of the fractional parts of
    the cube roots of the first 64 primes, the initial hash value those of
    the square roots of the first 8.  [iroot k n] is the integer [k]-th
    root of [n] (below [2 ^ bits]), found bit by bit from the top. *)
Fixpoint iroot_from (bits : nat) (k n r : Z) : Z :=
  match bits with
  | O => r
  | S bits' =>
      let r' := r + 2 ^ Z.of_nat bits' in
      iroot_from bits' k n (if r' ^ k <=? n then r' else r)
  end.

Definition frac_root_bits (k p : Z) : Z :=
  w32 (iroot_from 40 k (p * 2 ^ (32 * k)) 0).

Definition primes : list Z :=
  [ 2; 3; 5; 7; 11; 13; 17; 19; 23; 29; 31; 37; 41; 43; 47; 53; 59; 61; 67;
    71; 73; 79; 83; 89; 97; 101; 103; 107; 109; 113; 127; 131; 137; 139;
    149; 151; 157; 163; 167; 173; 179; 181; 191; 193; 197; 199; 211; 223;
    227; 229; 233; 239; 241; 251; 257; 263; 269; 271; 277; 281; 283; 293;
    307; 311 ].

Definition K : list Z :=
  Eval vm_compute in map (frac_root_bits 3) primes.

Definition H0 : list Z :=
  Eval vm_compute in map (frac_root_bits 2) (firstn 8 primes).

(** Padding: a [0x80] byte, zero bytes up to 56 modulo 64, then the bit
    length of the message as a 64-bit big-endian integer. *)
Definition be_bytes (width : nat) (x : Z) : list Z :=
  map (fun i => Z.land (Z.shiftr x (8 * Z.of_nat i)) 255) (rev (seq 0 width)).

Definition pad (msg : list Z) : list Z :=
  let l := Z.of_nat (length msg) in
  let zeros := Z.to_nat ((55 - l) mod 64) in
  msg ++ [128] ++ repeat 0 zeros ++ be_bytes 8 (8 * l).

Fixpoint be_words (bs : list Z) : list Z :=
  match bs with
  | b0 :: b1 :: b2 :: b3 :: rest =>
      (Z.shiftl b0 24 + Z.shiftl b1 16 + Z.shiftl b2 8 + b3) :: be_words rest
  | _ => []
  end.

(** The message schedule: sixteen words of the block, extended to 64. *)
Definition schedule_step (ws : list Z) : list Z :=
  let t := length ws in
  let at_ i := nth (t - i) ws 0 in
  ws ++ [add32 (add32 (add32 (sigma1 (at_ 2%nat)) (at_ 7%nat))
                      (sigma0 (at_ 15%nat))) (at_ 16%nat)].

Definition schedule (block : list Z) : list Z :=
  Nat.iter 48 schedule_step block.

Record regs := Regs { ra : Z; rb : Z; rc : Z; rd : Z; re : Z; rf : Z; rg : Z; rh : Z }.

Definition round (s : regs) (kw : Z * Z) : regs :=
  let '(k, w) := kw in
  let t1 := add32 (add32 (add32 (add32 (rh s) (Sigma1 (re s)))
                                (Ch (re s) (rf s) (rg s))) k) w in
  let t2 := add32 (Sigma0 (ra s)) (Maj (ra s) (rb s) (rc s)) in
  Regs (add32 t1 t2) (ra s) (rb s) (rc s) (add32 (rd s) t1) (re s) (rf s) (rg s).

Definition regs_of (h : list Z) : regs :=
  Regs (nth 0 h 0) (nth 1 h 0) (nth 2 h 0) (nth 3 h 0)
       (nth 4 h 0) (nth 5 h 0) (nth 6 h 0) (nth 7 h 0).

Definition list_of (s : regs) : list Z :=
  [ra s; rb s; rc s; rd s; re s; rf s; rg s; rh s].

Definition compress (h : list Z) (block : list Z) : list Z :=
  let s := fold_left round (combine K (schedule block)) (regs_of h) in
  map (fun p => add32 (fst p) (snd p)) (combine h (list_of s)).

(** The blocks are consumed sixteen words at a time; [fuel] bounds the
    number of blocks and is taken to be the number of words. *)
Fixpoint blocks (fuel : nat) (h : list Z) (ws : list Z) : list Z :=
  match fuel, ws with
  | S fuel', _ :: _ => blocks fuel' (compress h (firstn 16 ws)) (skipn 16 ws)
  | _, _ => h
  end.

Definition digest (msg : list Z) : list Z :=
  let ws := be_words (pad msg) in
  blocks (length ws) H0 ws.

Definition hex_digit (n : Z) : ascii :=
  ascii_of_nat (Z.to_nat (if n <? 10 then 48 + n else 87 + n)).

Definition hex_word (w : Z) : string :=
  string_of_list_ascii
    (map (fun i => hex_digit (Z.land (Z.shiftr w (4 * Z.of_nat i)) 15))
         (rev (seq 0 8))).

Definition hexdigest (msg : list Z) : string :=
  fold_right String.append EmptyString (map hex_word (digest msg)).

End SHA256.

(** ** [json.dumps], as [write_chunks_to_file] calls it

    The default settings: [ensure_ascii=True] and the separators [", "] and
    [": "].  A string is written between double quotes; inside, the double
    quote and the backslash get a backslash, the control characters with a
    short name get that, and every other character outside [' ' .. '~'] is
    written [\u00xx] with lower-case digits.  An [int] is written as [str]
    writes it.  The values of a chunk record are strings and integers. *)

Module Json.

Inductive jvalue :=
| JStr (s : string)
| JInt (i : Z).

Definition code (c : ascii) : Z := Z.of_N (N_of_ascii c).

Definition quote : ascii := "034"%char.
Definition backslash : ascii := "092"%char.
Definition newline : ascii := "010"%char.

Definition escape_char (c : ascii) : string :=
  let n := code c in
  if n =? 34 then String backslash (String quote EmptyString)
  else if n =? 92 then String backslash (String backslash EmptyString)
  else if n =? 10 then String backslash "n"
  else if n =? 13 then String backslash "r"
  else if n =? 9 then String backslash "t"
  else if n =? 8 then String backslash "b"
  else if n =? 12 then String backslash "f"
  else if (32 <=? n) && (n <=? 126) then String c EmptyString
  else String backslash
         ("u00" +:+ String (SHA256.hex_digit (n / 16))
                      (String (SHA256.hex_digit (n mod 16)) EmptyString)).

Fixpoint escape (s : string) : string :=
  match s with
  | EmptyString => EmptyString
  | String c s' => escape_char c +:+ escape s'
  end.

Definition dumps_str (s : string) : string :=
  String quote (escape s +:+ String quote EmptyString).

Definition dumps_value (v : jvalue) : string :=
  match v with
  | JStr s => dumps_str s
  | JInt i => Py.str_int i
  end.

Definition dumps_item (kv : string * jvalue) : string :=
  dumps_str (fst kv) +:+ ": " +:+ dumps_value (snd kv).

(** [json.dumps(d)] for a [dict], its items in insertion order. *)
Definition dumps (items : list (string * jvalue)) : string :=
  "{" +:+ String.concat ", " (map dumps_item items) +:+ "}".

(** *** Vocabulary *)

(** A character of [' ' .. '~']. *)
Definition printable (c : ascii) : bool :=
  (32 <=? code c) && (code c <=? 126).

(** A character [str] writes for an [int]: a digit or the minus sign. *)
Definition int_char (c : ascii) : bool :=
  (48 <=? code c) && (code c <=? 57) || (code c =? 45).

(** A key with the separator that follows it, and the separator between
    items, as lists of characters. *)
Definition label (k : string) : list ascii :=
  list_ascii_of_string (dumps_str k) ++ list_ascii_of_string ": ".

Definition sep : list ascii := list_ascii_of_string ", ".

(** Writing every apostrophe as a double quote: the examples spell their
    expected output with apostrophes. *)
Fixpoint with_quotes (s : string) : string :=
  match s with
  | EmptyString => EmptyString
  | String c s' =>
      String (if code c =? 39 then quote else c) (with_quotes s')
  end.

(** *** Reading a string literal back

    The sources never parse what they write.  This reader, the inverse
    of [dumps_str], is what the proof that nothing is lost in writing
    goes through: it reads up to the closing quote and returns the string
    and what follows it. *)

Definition hex_value (c : ascii) : option Z :=
  let n := code c in
  if (48 <=? n) && (n <=? 57) then Some (n - 48)
  else if (97 <=? n) && (n <=? 102) then Some (n - 87)
  else None.

Definition short_escape (e : ascii) : option ascii :=
  let n := code e in
  if n =? 34 then Some quote
  else if n =? 92 then Some backslash
  else if n =? 110 then Some newline
  else if n =? 114 then Some "013"%char
  else if n =? 116 then Some "009"%char
  else if n =? 98 then Some "008"%char
  else if n =? 102 then Some "012"%char
  else None.

Definition prepend (c : ascii) (r : option (string * string))
    : option (string * string) :=
  match r with
  | Some (s, rest) => Some (String c s, rest)
  | None => None
  end.

Fixpoint read_str (s : string) : option (string * string) :=
  match s with
  | EmptyString => None
  | String c r =>
      if code c =? 34 then Some (EmptyString, r)
      else if code c =? 92 then
        match r with
        | String e r' =>
            if code e =? 117 then
              match r' with
              | String h3 (String h2 (String h1 (String h0 r''))) =>
                  match hex_value h3, hex_value h2, hex_value h1, hex_value h0 with
                  | Some a, Some b, Some c', Some d =>
                      prepend (ascii_of_nat
                                 (Z.to_nat (((a * 16 + b) * 16 + c') * 16 + d)))
                              (read_str r'')
                  | _, _, _, _ => None
                  end
              | _ => None
              end
            else
              match short_escape e with
              | Some ch => prepend ch (read_str r')
              | None => None
              end
        | EmptyString => None
        end
      else prepend c (read_str r)
  end.

End Json.

(** ** [src/pipeline/chunking.py] *)

Module Chunking.

(** [sha256_hex(data)]: every caller passes a [str], which is encoded as
    UTF-8 before hashing. *)
Definition sha256_hex (data : string) : string :=
  SHA256.hexdigest (Py.encode_utf8 data).

Record Chunk := mkChunk {
  chunk_id : string;
  doc_id : string;
  chunk_index : Z;
  text : string;
  start_char : Z;
  end_char : Z
}.

(** The record one iteration of the loop appends, for the offset [index]
    and the ordinal [idx] the iteration starts with. *)
Definition emit (doc txt : string) (chunk_size : Z) (index idx : Z) : Chunk :=
  let text_length := Py.len txt in
  let start := index in
  let end_ := Z.min (start + chunk_size) text_length in
  let chunk_text := Py.slice txt start end_ in
  let chunk_hash := sha256_hex chunk_text in
  let chunk_id := sha256_hex (doc +:+ Py.str_int idx +:+ chunk_hash) in
  {| chunk_id := chunk_id; doc_id := doc; chunk_index := idx;
     text := chunk_text; start_char := start; end_char := end_ |}.

(** [while index < text_length: ...; chunk_index += 1; index += step].
    One unit of [fuel] is spent per iteration; [None] means the fuel ran
    out before the loop condition became false. *)
Fixpoint chunk_loop (fuel : nat) (doc txt : string) (chunk_size step : Z)
    (index idx : Z) (chunks : list Chunk) : option (list Chunk) :=
  if index <? Py.len txt then
    match fuel with
    | O => None
    | S fuel' =>
        chunk_loop fuel' doc txt chunk_size step
          (index + step) (idx + 1)
          (chunks ++ [emit doc txt chunk_size index idx])
    end
  else Some chunks.

(** [chunk_document(doc_id, text, chunk_size, overlap)] run with a bound
    on the number of loop iterations. *)
Definition chunk_document_run (fuel : nat) (doc txt : string)
    (chunk_size overlap : Z) : option (list Chunk) :=
  if negb (Py.truthy_str txt) then Some []
  else
    let step := Z.max (chunk_size - overlap) 1 in
    chunk_loop fuel doc txt chunk_size step 0 0 [].

(** The loop needs at most one iteration per character, so this is the
    function itself (see [chunk_document_terminates]). *)
Definition chunk_document (doc txt : string) (chunk_size overlap : Z)
    : list Chunk :=
  default [] (chunk_document_run (String.length txt) doc txt chunk_size overlap).

(** The record as the [dict] that [chunk_document] appends, its keys in
    the order of the literal. *)
Definition as_dict (c : Chunk) : list (string * Json.jvalue) :=
  [ ("chunk_id", Json.JStr (chunk_id c));
    ("doc_id", Json.JStr (doc_id c));
    ("chunk_index", Json.JInt (chunk_index c));
    ("text", Json.JStr (text c));
    ("start_char", Json.JInt (start_char c));
    ("end_char", Json.JInt (end_char c)) ].

(** [write_chunks_to_file(doc_id, chunks, base_dir)], for records of the
    shape [chunk_document] returns.  The file is opened in mode ["w"], so
    what it holds after the call is what the loop writes,
    [json.dumps(chunk) + "\n"] for every chunk, whatever it held before:
    this is that content.  Where the file lies ([pathlib]) and the creation
    of the directory are outside the model. *)
Definition write_chunks_to_file (chunks : list Chunk) : string :=
  fold_right
    (fun chunk f => Json.dumps (as_dict chunk) +:+ String Json.newline f)
    EmptyString chunks.

(** *** Vocabulary of the chunk invariants *)

(** The half-open window [[start_char, end_char)] of a chunk. *)
Definition in_window (c : Chunk) (p : Z) : Prop :=
  start_char c <= p < end_char c.

(** The union of the windows is exactly [[0, n)]. *)
Definition covers (chunks : list Chunk) (n : Z) : Prop :=
  forall p, (exists c, c ∈ chunks /\ in_window c p) <-> 0 <= p < n.

(** The number of offsets two windows share. *)
Definition overlap_of (c c' : Chunk) : Z :=
  Z.max 0 (Z.min (end_char c) (end_char c')
           - Z.max (start_char c) (start_char c')).

(** Every two consecutive windows share exactly [overlap] offsets, the
    pair that ends with the final chunk excepted. *)
Definition exact_overlap_except_final (chunks : list Chunk) (overlap : Z)
    : Prop :=
  forall (i : nat) c c',
    chunks !! i = Some c -> chunks !! S i = Some c' ->
    (S (S i) < length chunks)%nat ->
    overlap_of c c' = overlap.

(** A window that was not cut short by the end of the text. *)
Definition full_length (chunk_size : Z) (c : Chunk) : Prop :=
  end_char c = start_char c + chunk_size.

(** The string hashed into a [chunk_id], and the identifier as a function
    of the document identifier, the ordinal and the hash of the text. *)
Definition id_message (d : string) (i : Z) (h : string) : string :=
  d +:+ Py.str_int i +:+ h.

Definition chunk_id_of (d : string) (i : Z) (h : string) : string :=
  sha256_hex (id_message d i h).

(** Two distinct messages with the same SHA-256 digest. *)
Definition sha256_collision (m m' : string) : Prop :=
  m <> m' /\ sha256_hex m = sha256_hex m'.

(** One of the characters [0-9a-f], and a string made of them. *)
Definition lower_hex (c : ascii) : bool :=
  let n := Json.code c in
  (48 <=? n) && (n <=? 57) || (97 <=? n) && (n <=? 102).

Definition hex_string (s : string) : Prop :=
  Forall (fun c => lower_hex c = true) (list_ascii_of_string s).

(** A record with a quote, a line break and a non-ASCII letter in its
    text. *)
Definition sample_chunk : Chunk :=
  {| chunk_id := "ab"; doc_id := "d"; chunk_index := 0;
     text := String "A" (String Json.quote (String "B"
               (String Json.newline (String "233" "/"))));
     start_char := 0; end_char := -4 |}.

End Chunking.

(** ** [src/common/evidence.py] *)

Module EvidenceModel.

Record Evidence := mkEvidence {
  source : string;
  url : string;
  retrieved_at : string;
  as_of : string;
  note : option string
}.

(** [Field]: every attribute defaults to [None] (or [False]); [Any] is the
    type of the values a caller wraps. *)
Record Field (Any : Type) := mkField {
  value : option Any;
  evidence : option Evidence;
  flagged : bool;
  flag_reason : option string
}.
Arguments mkField {Any}.
Arguments value {Any}.
Arguments evidence {Any}.
Arguments flagged {Any}.
Arguments flag_reason {Any}.

(** [flag(reason)]: [Field(flagged=True, flag_reason=reason)]; the
    attributes not given keep their default, [None]. *)
Definition flag {Any} (reason : string) : Field Any :=
  {| value := None;
     evidence := None;
     flagged := true;
     flag_reason := Some reason |}.

(** [ok(value, evidence)]: [Field(value=value, evidence=evidence)]; the
    attributes not given keep their defaults, [False] and [None].  The
    value may itself be [None]. *)
Definition ok {Any} (v : option Any) (e : Evidence) : Field Any :=
  {| value := v;
     evidence := Some e;
     flagged := false;
     flag_reason := None |}.

End EvidenceModel.

(** ** [sorted], as CPython runs it

    [sorted(xs, key=..., reverse=...)] copies [xs] into a list and sorts it
    with [list.sort].  This is [list_sort_impl] of CPython 3.11
    ([Objects/listobject.c]): natural runs, short runs extended by binary
    insertion, and runs merged with galloping under the powersort policy.
    The order in which elements are compared matters as soon as [<] is not
    an order on them, as with a NaN key, so the model follows the
    implementation and not only its documented guarantee.

    An array slice is a list; a loop is a fixpoint whose fuel is a bound on
    the number of its iterations. *)

Module ListSort.
Section ListSort.
Context {A : Type}.

(** [lt x y] is the one comparison the sort makes, [x < y]; with a [key]
    function it is the comparison of the keys. *)
Variable lt : A -> A -> bool.

Definition MIN_GALLOP : Z := 7.

Definition len (l : list A) : Z := Z.of_nat (length l).

(** A slice [a[0 .. n)] of the array is the list of its elements; [at_ a f i]
    is the test [f] on [a[i]], and false outside the slice, where the C
    code does not look. *)
Definition at_ (a : list A) (f : A -> bool) (i : Z) : bool :=
  match a !! Z.to_nat i with
  | Some x => (0 <=? i) && f x
  | None => false
  end.

(** *** Galloping

    [gallop_left] and [gallop_right] are one search on a test [P] of the
    positions of the slice: from [hint] by steps [1, 3, 7, ...] to the left
    while [P] holds ([gallop_back]) or to the right while it fails
    ([gallop_forth]), then by bisection between the last two offsets
    ([gallop_bisect]).  The result [k] is where the key belongs: [P] fails
    at [k - 1] and holds at [k]. *)

Fixpoint gallop_back (fuel : nat) (P : Z -> bool) (hint maxofs lastofs ofs : Z)
    : Z * Z :=
  match fuel with
  | O => (lastofs, ofs)
  | S fuel' =>
      if ofs <? maxofs then
        if P (hint - ofs)
        then gallop_back fuel' P hint maxofs ofs (2 * ofs + 1)
        else (lastofs, ofs)
      else (lastofs, ofs)
  end.

Fixpoint gallop_forth (fuel : nat) (P : Z -> bool) (hint maxofs lastofs ofs : Z)
    : Z * Z :=
  match fuel with
  | O => (lastofs, ofs)
  | S fuel' =>
      if ofs <? maxofs then
        if P (hint + ofs)
        then (lastofs, ofs)
        else gallop_forth fuel' P hint maxofs ofs (2 * ofs + 1)
      else (lastofs, ofs)
  end.

Fixpoint gallop_bisect (fuel : nat) (P : Z -> bool) (lastofs ofs : Z) : Z :=
  match fuel with
  | O => ofs
  | S fuel' =>
      if lastofs <? ofs then
        let m := lastofs + (ofs - lastofs) / 2 in
        if P m then gallop_bisect fuel' P lastofs m
        else gallop_bisect fuel' P (m + 1) ofs
      else ofs
  end.

Definition gallop (P : Z -> bool) (n hint : Z) : Z :=
  let '(lastofs, ofs) :=
    if P hint then
      let maxofs := hint + 1 in
      let '(lastofs, ofs) := gallop_back (Z.to_nat maxofs) P hint maxofs 0 1 in
      let ofs := Z.min ofs maxofs in
      (hint - ofs, hint - lastofs)
    else
      let maxofs := n - hint in
      let '(lastofs, ofs) := gallop_forth (Z.to_nat maxofs) P hint maxofs 0 1 in
      let ofs := Z.min ofs maxofs in
      (lastofs + hint, ofs + hint) in
  gallop_bisect (Z.to_nat (ofs - lastofs)) P (lastofs + 1) ofs.

(** [gallop_right(key, a, n, hint)]: compares [key < a[i]] *)
Definition gallop_right (key : A) (a : list A) (hint : Z) : Z :=
  gallop (at_ a (fun x => lt key x)) (len a) hint.

(** [gallop_left(key, a, n, hint)]: compares [a[i] < key] *)
Definition gallop_left (key : A) (a : list A) (hint : Z) : Z :=
  gallop (at_ a (fun x => negb (lt x key))) (len a) hint.

(** *** Merging

    [merge_lo] and [merge_hi] alternate between taking one element at a
    time, counting how often the same run wins ([lo_pair], [hi_pair]), and
    galloping once a run has won [min_gallop] times in a row ([lo_gallop],
    [hi_gallop]).  Each returns the merged run and the new [min_gallop]. *)

Definition cons_fst (x : A) (p : list A * Z) : list A * Z := (x :: fst p, snd p).
Definition app_fst (l : list A) (p : list A * Z) : list A * Z := (l ++ fst p, snd p).

Definition is_single (l : list A) : bool :=
  match l with [_] => true | _ => false end.
Definition is_nil (l : list A) : bool :=
  match l with [] => true | _ => false end.

Fixpoint lo_pair (fuel : nat) (mg acount bcount : Z) (a b : list A)
    {struct fuel} : list A * Z :=
  match fuel with
  | O => (a ++ b, mg)
  | S fuel' =>
      match a, b with
      | x :: a', y :: b' =>
          if lt y x then
            cons_fst y
              (if is_nil b' then (a, mg)
               else if mg <=? bcount + 1 then lo_gallop fuel' (mg + 1) a b'
               else lo_pair fuel' mg 0 (bcount + 1) a b')
          else
            cons_fst x
              (if is_single a' then (b ++ a', mg)
               else if mg <=? acount + 1 then lo_gallop fuel' (mg + 1) a' b
               else lo_pair fuel' mg (acount + 1) 0 a' b)
      | _, _ => (a ++ b, mg)
      end
  end
with lo_gallop (fuel : nat) (mg : Z) (a b : list A) {struct fuel}
    : list A * Z :=
  match fuel with
  | O => (a ++ b, mg)
  | S fuel' =>
      let mg := if 1 <? mg then mg - 1 else mg in
      match b with
      | [] => (a, mg)
      | y :: b' =>
          let k := gallop_right y a 0 in
          let acount := k in
          let a1 := take (Z.to_nat k) a in
          let a2 := drop (Z.to_nat k) a in
          app_fst a1
            (if negb (k =? 0) && is_single a2 then (b ++ a2, mg)
             else if negb (k =? 0) && is_nil a2 then (b, mg)
             else
               cons_fst y
                 (if is_nil b' then (a2, mg)
                  else
                    match a2 with
                    | [] => (b', mg)
                    | x :: a' =>
                        let k := gallop_left x b' 0 in
                        let bcount := k in
                        let b1 := take (Z.to_nat k) b' in
                        let b2 := drop (Z.to_nat k) b' in
                        app_fst b1
                          (if negb (k =? 0) && is_nil b2 then (a2, mg)
                           else
                             cons_fst x
                               (if is_single a' then (b2 ++ a', mg)
                                else if (MIN_GALLOP <=? acount)
                                        || (MIN_GALLOP <=? bcount)
                                then lo_gallop fuel' mg a' b2
                                else lo_pair fuel' (mg + 1) 0 0 a' b2))
                    end))
      end
  end.

(** [merge_lo(a, na, b, nb)], for [na <= nb]: the first element of [b]
    goes first, then the merge runs from left to right. *)
Definition merge_lo (mg : Z) (a b : list A) : list A * Z :=
  match b with
  | [] => (a, mg)
  | y :: b' =>
      cons_fst y
        (if is_nil b' then (a, mg)
         else if is_single a then (b' ++ a, mg)
         else lo_pair (length a + length b') mg 0 0 a b')
  end.

(** [merge_hi], on the reversed runs: the heads of [ra] and [rb] are the
    last elements of [a] and [b]; the result is the merge, reversed. *)
Fixpoint hi_pair (fuel : nat) (mg acount bcount : Z) (ra rb : list A)
    {struct fuel} : list A * Z :=
  match fuel with
  | O => (rb ++ ra, mg)
  | S fuel' =>
      match ra, rb with
      | x :: ra', y :: rb' =>
          if lt y x then
            cons_fst x
              (if is_nil ra' then (rb, mg)
               else if mg <=? acount + 1 then hi_gallop fuel' (mg + 1) ra' rb
               else hi_pair fuel' mg (acount + 1) 0 ra' rb)
          else
            cons_fst y
              (if is_single rb' then (ra ++ rb', mg)
               else if mg <=? bcount + 1 then hi_gallop fuel' (mg + 1) ra rb'
               else hi_pair fuel' mg 0 (bcount + 1) ra rb')
      | _, _ => (rb ++ ra, mg)
      end
  end
with hi_gallop (fuel : nat) (mg : Z) (ra rb : list A) {struct fuel}
    : list A * Z :=
  match fuel with
  | O => (rb ++ ra, mg)
  | S fuel' =>
      let mg := if 1 <? mg then mg - 1 else mg in
      match rb with
      | [] => (ra, mg)
      | y :: rb' =>
          let na := len ra in
          let k := na - gallop_right y (reverse ra) (na - 1) in
          let acount := k in
          let a1 := take (Z.to_nat k) ra in
          let ra2 := drop (Z.to_nat k) ra in
          app_fst a1
            (if negb (k =? 0) && is_nil ra2 then (rb, mg)
             else
               cons_fst y
                 (if is_single rb' then (ra2 ++ rb', mg)
                  else
                    match ra2 with
                    | [] => (rb', mg)
                    | x :: ra' =>
                        let nb := len rb' in
                        let k := nb - gallop_left x (reverse rb') (nb - 1) in
                        let bcount := k in
                        let b1 := take (Z.to_nat k) rb' in
                        let rb2 := drop (Z.to_nat k) rb' in
                        app_fst b1
                          (if negb (k =? 0) && is_single rb2 then (ra2 ++ rb2, mg)
                           else if negb (k =? 0) && is_nil rb2 then (ra2, mg)
                           else
                             cons_fst x
                               (if is_nil ra' then (rb2, mg)
                                else if (MIN_GALLOP <=? acount)
                                        || (MIN_GALLOP <=? bcount)
                                then hi_gallop fuel' mg ra' rb2
                                else hi_pair fuel' (mg + 1) 0 0 ra' rb2))
                    end))
      end
  end.

(** [merge_hi(a, na, b, nb)], for [na > nb]: the last element of [a] goes
    last, then the merge runs from right to left. *)
Definition merge_hi (mg : Z) (a b : list A) : list A * Z :=
  match reverse a, reverse b with
  | x :: ra', rb =>
      let r :=
        cons_fst x
          (if is_nil ra' then (rb, mg)
           else if is_single rb then (ra' ++ rb, mg)
           else hi_pair (length ra' + length rb) mg 0 0 ra' rb) in
      (reverse (fst r), snd r)
  | [], _ => (b, mg)
  end.

(** [merge_at]: merge two neighbouring runs, [a] before [b].  The elements
    of [a] that are already in place ([gallop_right] of [b[0]]) and those of
    [b] that are ([gallop_left] of the last of [a]) are left alone. *)
Definition merge_at (mg : Z) (a b : list A) : list A * Z :=
  match b with
  | [] => (a, mg)
  | y :: _ =>
      let k := gallop_right y a 0 in
      let a1 := take (Z.to_nat k) a in
      let a2 := drop (Z.to_nat k) a in
      match last a2 with
      | None => (a ++ b, mg)
      | Some z =>
          let nb := gallop_left z b (len b - 1) in
          if nb <=? 0 then (a ++ b, mg)
          else
            let b1 := take (Z.to_nat nb) b in
            let b2 := drop (Z.to_nat nb) b in
            let r := if len a2 <=? len b1 then merge_lo mg a2 b1
                     else merge_hi mg a2 b1 in
            (a1 ++ fst r ++ b2, snd r)
      end
  end.

(** *** Runs

    [count_run] gives the length of the run at the front of the list and
    whether it descends: strictly descending ([run_desc]), so that
    reversing it keeps equal elements in order, or not descending
    ([run_asc]). *)

Fixpoint run_desc (prev : A) (l : list A) (n : nat) : nat :=
  match l with
  | x :: l' => if lt x prev then run_desc x l' (S n) else n
  | [] => n
  end.

Fixpoint run_asc (prev : A) (l : list A) (n : nat) : nat :=
  match l with
  | x :: l' => if lt x prev then n else run_asc x l' (S n)
  | [] => n
  end.

Definition count_run (l : list A) : nat * bool :=
  match l with
  | [] => (0%nat, false)
  | [_] => (1%nat, false)
  | x :: (y :: l') as t =>
      if lt y x then (run_desc y l' 2, true) else (run_asc y l' 2, false)
  end.

(** [binarysort]: the elements of [rest] are inserted one by one into the
    sorted [run], each to the right of the elements it is not less than,
    the place being found by bisection. *)
Fixpoint bisect (fuel : nat) (P : Z -> bool) (l r : Z) : Z :=
  match fuel with
  | O => l
  | S fuel' =>
      let p := l + (r - l) / 2 in
      let '(l, r) := if P p then (l, p) else (p + 1, r) in
      if l <? r then bisect fuel' P l r else l
  end.

Definition binary_insert (run : list A) (pivot : A) : list A :=
  let l := bisect (length run) (at_ run (fun x => lt pivot x)) 0 (len run) in
  take (Z.to_nat l) run ++ pivot :: drop (Z.to_nat l) run.

Definition binarysort (run rest : list A) : list A :=
  fold_left binary_insert rest run.

(** *** The merge policy

    Runs shorter than [minrun] are extended to it; for a list of fewer than
    64 elements [minrun] is the length of the list.  A new run is given a
    "power" ([powerloop]) and the pending runs of greater power are merged
    first ([found_new_run]); at the end all pending runs are merged
    ([force_collapse], C's [merge_force_collapse]). *)

Fixpoint minrun_loop (fuel : nat) (n r : Z) : Z :=
  match fuel with
  | O => n + r
  | S fuel' =>
      if 64 <=? n then minrun_loop fuel' (Z.shiftr n 1) (Z.lor r (Z.land n 1))
      else n + r
  end.

Definition merge_compute_minrun (n : Z) : Z := minrun_loop (Z.to_nat n) n 0.

Fixpoint powerloop (fuel : nat) (a b n : Z) (result : Z) : Z :=
  match fuel with
  | O => result
  | S fuel' =>
      let result := result + 1 in
      if n <=? a then powerloop fuel' (2 * (a - n)) (2 * (b - n)) n result
      else if n <=? b then result
      else powerloop fuel' (2 * a) (2 * b) n result
  end.

Definition power_of (s1 n1 n2 n : Z) : Z :=
  let a := 2 * s1 + n1 in
  let b := a + n1 + n2 in
  powerloop (Z.to_nat n + 1) a b n 0.

(** The pending runs, the most recent first. *)
Definition pending := list (list A * Z).

Definition runs_len (p : pending) : Z :=
  fold_right (fun r acc => len (fst r) + acc) 0 p.

Fixpoint collapse_above (fuel : nat) (power : Z) (mg : Z) (p : pending)
    : pending * Z :=
  match fuel with
  | O => (p, mg)
  | S fuel' =>
      match p with
      | (b, pb) :: (a, pa) :: rest =>
          if power <? pa then
            let r := merge_at mg a b in
            collapse_above fuel' power (snd r) ((fst r, pa) :: rest)
          else (p, mg)
      | _ => (p, mg)
      end
  end.

Definition found_new_run (mg : Z) (p : pending) (n2 listlen : Z) : pending * Z :=
  match p with
  | [] => (p, mg)
  | (top, _) :: below =>
      let s1 := runs_len below in
      let n1 := len top in
      let power := power_of s1 n1 n2 listlen in
      let '(p, mg) := collapse_above (length p) power mg p in
      match p with
      | (top, _) :: below => ((top, power) :: below, mg)
      | [] => (p, mg)
      end
  end.

Fixpoint force_collapse (fuel : nat) (mg : Z) (p : pending) : pending :=
  match fuel with
  | O => p
  | S fuel' =>
      match p with
      | (c, pc) :: (b, pb) :: (a, pa) :: rest =>
          if len a <? len c then
            let r := merge_at mg a b in
            force_collapse fuel' (snd r) ((c, pc) :: (fst r, pa) :: rest)
          else
            let r := merge_at mg b c in
            force_collapse fuel' (snd r) ((fst r, pb) :: (a, pa) :: rest)
      | [(b, pb); (a, pa)] =>
          let r := merge_at mg a b in
          force_collapse fuel' (snd r) [(fst r, pa)]
      | _ => p
      end
  end.

(** The elements of the pending runs, in list order. *)
Definition flat (p : pending) : list A := concat (reverse (map fst p)).

(** *** The sort

    [list_sort] is [list.sort()] without [reverse]; [sorted] reverses the
    list before and after when [reverse] is true, which is how a
    descending sort keeps equal elements in their original order. *)

(** The next run of [rest]: the natural run, reversed when it descends,
    extended to [minrun] elements by binary insertion when it is short. *)
Definition next_run (minrun : Z) (rest : list A) : list A * nat :=
  let '(cnt, descending) := count_run rest in
  let run := take cnt rest in
  let run := if descending then reverse run else run in
  if Z.of_nat cnt <? minrun then
    let force := Z.to_nat (if len rest <=? minrun then len rest
                           else minrun) in
    (binarysort run (take (force - cnt) (drop cnt rest)), force)
  else (run, cnt).

Fixpoint sort_loop (fuel : nat) (minrun listlen : Z) (mg : Z) (p : pending)
    (rest : list A) : pending * Z :=
  match fuel with
  | O => (p, mg)
  | S fuel' =>
      match rest with
      | [] => (p, mg)
      | _ =>
          let '(run, cnt) := next_run minrun rest in
          let '(p, mg) := found_new_run mg p (Z.of_nat cnt) listlen in
          sort_loop fuel' minrun listlen mg ((run, 0) :: p) (drop cnt rest)
      end
  end.

Definition list_sort (l : list A) : list A :=
  match l with
  | [] | [_] => l
  | _ =>
      let n := len l in
      let minrun := merge_compute_minrun n in
      let '(p, mg) := sort_loop (length l) minrun n MIN_GALLOP [] l in
      flat (force_collapse (length p) mg p)
  end.

Definition sorted (l : list A) (rev : bool) : list A :=
  if rev then reverse (list_sort (reverse l)) else list_sort l.

End ListSort.
End ListSort.

(** What the sort is measured against: sortedness, and the plain stable
    merge of two runs. *)
Module ListSortSpec.
Section Spec.
Context {A : Type}.
Variable lt : A -> A -> bool.
Variable G : A -> Prop.

(** No later element is less than an earlier one. *)
Definition Asc : list A -> Prop := StronglySorted (fun x y => lt y x = false).

(** Every later element is less than every earlier one. *)
Definition Desc : list A -> Prop := StronglySorted (fun u v => lt v u = true).

(** The stable merge: the head of [b] goes first only when it is less than
    the head of [a]. *)
Fixpoint smerge (a : list A) : list A -> list A :=
  match a with
  | [] => fun b => b
  | x :: a' =>
      fix inner (b : list A) : list A :=
        match b with
        | [] => x :: a'
        | y :: b' => if lt y x then y :: inner b' else x :: smerge a' b
        end
  end.

(** What [merge_lo] relies on: two sorted runs of elements [G], the last
    of [a] above all of [b]. *)
Definition lo_inv (a b : list A) : Prop :=
  Asc a /\ Asc b /\ Forall G a /\ Forall G b /\
  (b <> [] -> exists z, last a = Some z /\ Forall (fun y => lt y z = true) b).

(** What [merge_hi] relies on: the first of [b] below all of [a]. *)
Definition hi_inv (a b : list A) : Prop :=
  Asc a /\ Asc b /\ Forall G a /\ Forall G b /\
  (a <> [] -> exists w, head b = Some w /\ Forall (fun u => lt w u = true) a).

(** A pending run: sorted, of elements [G], not empty. *)
Definition run_ok (r : list A * Z) : Prop :=
  Asc (fst r) /\ Forall G (fst r) /\ fst r <> [].

End Spec.
End ListSortSpec.

(** ** [src/api/server.py] *)

Module Server.

(** Where the code checks a value at run time ([isinstance], [float(...)]
    under [try], a comparison with zero) the value is a [value] and every
    case is modelled.  Where it relies on the declared shape without
    checking (an entry and a result are mappings, a name is a string or
    [None], the ["sources"] key holds a list of entries) the shape is a type:
    a record with one field per key the code reads. *)

(** *** Dynamically typed values and exceptions *)

#[warnings="-register-all"]
Inductive value :=
| VNone
| VBool (b : bool)
| VInt (i : Z)
| VFloat (f : float)
| VStr (s : string)
| VList (l : list value)
| VDict (d : gmap string value).

Inductive exn := TypeError | ValueError | OverflowError.

Inductive result (A : Type) :=
| Return (a : A)
| Raise (e : exn).
Arguments Return {A}.
Arguments Raise {A}.

Definition bind {A B} (r : result A) (k : A -> result B) : result B :=
  match r with
  | Return a => k a
  | Raise e => Raise e
  end.

(** [float(i)] for an [int]: the nearest binary64 number, ties to even;
    [OverflowError] when that is an infinity. *)
Definition float_of_int (i : Z) : result float :=
  match binary_normalize prec emax i 0 false with
  | S754_infinity _ => Raise OverflowError
  | x => Return (SF2Prim x)
  end.

(** [bool(v)] *)
Definition truthy (v : value) : bool :=
  match v with
  | VNone => false
  | VBool b => b
  | VInt i => negb (i =? 0)
  | VFloat f => negb (f =? 0)%float
  | VStr s => Py.truthy_str s
  | VList l => match l with [] => false | _ => true end
  | VDict d => negb (bool_decide (d = ∅))
  end.

(** [isinstance(v, (int, float))]; [bool] is a subclass of [int]. *)
Definition is_int_or_float (v : value) : bool :=
  match v with
  | VBool _ | VInt _ | VFloat _ => true
  | _ => false
  end.

(** [v > 0] for a [v] that passed [is_int_or_float]. *)
Definition gt_zero (v : value) : bool :=
  match v with
  | VBool b => b
  | VInt i => 0 <? i
  | VFloat f => (0 <? f)%float
  | _ => false
  end.

Section Ranker.

(** [float(s)] for a [str] is Python's own parser of numerals, which
    the repository does not contain: [Some x] when [s] spells the
    number [x], [None] when [float] raises [ValueError]. *)
Variable parse_float : string -> option float.

(** [float(v)] *)
Definition py_float (v : value) : result float :=
  match v with
  | VNone => Raise TypeError
  | VBool b => Return (if b then 1 else 0)%float
  | VInt i => float_of_int i
  | VFloat f => Return f
  | VStr s =>
      match parse_float s with
      | Some x => Return x
      | None => Raise ValueError
      end
  | VList _ | VDict _ => Raise TypeError
  end.

(** *** Configuration *)

(** One entry of the sources section.  [name] is what
    [entry.get("name")] returns, a string or [None]; [reliability] is
    what [entry.get("reliability")] returns, [VNone] when the key is
    missing. *)
Record SourceEntry := mkEntry {
  name : option string;
  reliability : value
}.

(** The shapes [settings.sources] comes in: [None]; a mapping, with the
    value of its ["sources"] key if it has one and with its other keys;
    a list of entries; anything else (a number, a string, ...).  The
    entries are a list of mappings, as the configuration file declares
    them: a ["sources"] value that is not a list and an entry that is not
    a mapping, on which the loop raises [TypeError] or [AttributeError],
    are not among these shapes. *)
Inductive SourcesConfig :=
| SrcNone
| SrcMapping (sources_key : option (list SourceEntry))
             (others : gmap string value)
| SrcList (entries : list SourceEntry)
| SrcOther (v : value).

Record Settings := mkSettings {
  as_of_date : string;
  log_level : string;
  sources : SourcesConfig
}.

Definition truthy_config (c : SourcesConfig) : bool :=
  match c with
  | SrcNone => false
  | SrcMapping k others => bool_decide (is_Some k) || negb (bool_decide (others = ∅))
  | SrcList entries => match entries with [] => false | _ => true end
  | SrcOther v => truthy v
  end.

(** The body of the loop over the entries:
    [if name and isinstance(weight, (int, float)) and weight > 0:
       reliability[name] = float(weight)]. *)
Definition entry_accepted (entry : SourceEntry) : bool :=
  match name entry with
  | Some n =>
      Py.truthy_str n && is_int_or_float (reliability entry)
      && gt_zero (reliability entry)
  | None => false
  end.

Definition add_entry (reliability_map : gmap string float)
    (entry : SourceEntry) : result (gmap string float) :=
  match name entry with
  | Some n =>
      if Py.truthy_str n && is_int_or_float (reliability entry)
         && gt_zero (reliability entry)
      then bind (py_float (reliability entry))
             (fun w => Return (<[n := w]> reliability_map))
      else Return reliability_map
  | None => Return reliability_map
  end.

Fixpoint add_entries (reliability_map : gmap string float)
    (entries : list SourceEntry) : result (gmap string float) :=
  match entries with
  | [] => Return reliability_map
  | entry :: rest =>
      bind (add_entry reliability_map entry)
           (fun m => add_entries m rest)
  end.

(** The list the loop of [_build_reliability_map] runs over:
    [sources_config = settings.sources or {}], then the value of its
    ["sources"] key if it is a mapping that has one, itself if it is a
    list, and the empty list otherwise. *)
Definition config_entries (settings : Settings) : list SourceEntry :=
  let sources_config :=
    if truthy_config (sources settings) then sources settings
    else SrcMapping None ∅ in
  match sources_config with
  | SrcMapping (Some entries) _ => entries
  | SrcMapping None _ => []
  | SrcList entries => entries
  | _ => []
  end.

(** [_build_reliability_map(settings)] *)
Definition _build_reliability_map (settings : Settings)
    : result (gmap string float) :=
  let reliability : gmap string float := ∅ in
  let entries := config_entries settings in
  add_entries reliability entries.

(** *** Vocabulary of the tolerant-parsing claims *)

(** A positive number, as Python sees it: an [int] (or [bool]) or a
    [float] that is greater than zero. *)
Definition positive_number (v : value) : Prop :=
  match v with
  | VBool b => b = true
  | VInt i => 0 < i
  | VFloat f => (0 <? f)%float = true
  | _ => False
  end.

(** An entry that is missing a name or whose reliability is not a positive
    number. *)
Definition malformed (entry : SourceEntry) : Prop :=
  name entry = None \/ ~ positive_number (reliability entry).

(** An entry that passes the guard and whose reliability is an [int] too
    large for a [float]. *)
Definition overflows (entry : SourceEntry) : Prop :=
  entry_accepted entry = true /\
  exists i, reliability entry = VInt i /\ float_of_int i = Raise OverflowError.

(** *** Ranking *)

(** One result of the retrieval index.  [source_name] is what
    [res.get("source_name")] returns; [score] is the value stored under
    ["score"], if any; [weighted_score] is the entry the ranker writes;
    [metadata] is everything else, which is passed through. *)
Record RawResult := mkResult {
  source_name : option string;
  score : option value;
  weighted_score : option float;
  metadata : gmap string value
}.

(** [reliability_map.get(src_name, 1.0)] *)
Definition weight_of (reliability_map : gmap string float)
    (src_name : option string) : float :=
  match src_name with
  | Some n => default 1%float (reliability_map !! n)
  | None => 1%float
  end.

(** [try: score = float(res.get("score", 0)) except Exception: score = 0.0] *)
Definition score_of (res : RawResult) : float :=
  match py_float (default (VInt 0) (score res)) with
  | Return x => x
  | Raise _ => 0%float
  end.

(** [res["weighted_score"] = score * weight] *)
Definition apply_weight (reliability_map : gmap string float)
    (res : RawResult) : RawResult :=
  let src_name := source_name res in
  let weight := weight_of reliability_map src_name in
  let score_ := score_of res in
  {| source_name := source_name res;
     score := score res;
     weighted_score := Some (score_ * weight)%float;
     metadata := metadata res |}.

(** The score of a result is missing, or is a value [float] rejects. *)
Definition malformed_score (res : RawResult) : Prop :=
  score res = None \/
  exists v e, score res = Some v /\ py_float v = Raise e.

(** The sort key [lambda r: r.get("weighted_score", 0)]. *)
Definition sort_key (r : RawResult) : float :=
  default 0%float (weighted_score r).

End Ranker.

(** [sorted(xs, key=key, reverse=reverse)]: the keys are computed once and
    compared with [<] only, and each element moves with its key. *)
Section Sorted.
Context {A K : Type}.
Variable lt : K -> K -> bool.
Variable key : A -> K.

(** No later element is smaller than an earlier one. *)
Definition ascending : list A -> Prop :=
  StronglySorted (fun x y => lt (key y) (key x) = false).

(** No earlier element is smaller than a later one. *)
Definition descending : list A -> Prop :=
  StronglySorted (fun x y => lt (key x) (key y) = false).

Definition sorted (xs : list A) (rev : bool) : list A :=
  ListSort.sorted (fun x y => lt (key x) (key y)) xs rev.
End Sorted.

(** [xs[:k]] on a list. *)
Definition list_prefix {A} (xs : list A) (k : Z) : list A :=
  firstn (Z.to_nat (Py.slice_bound (Z.of_nat (length xs)) k)) xs.

(** The part of [query_endpoint] after retrieval: weight every result,
    sort by weighted score, descending, and keep the first [top_k]. *)
Definition weighted (parse_float : string -> option float)
    (reliability_map : gmap string float) (raw_results : list RawResult)
    : list RawResult :=
  map (apply_weight parse_float reliability_map) raw_results.

(** [sorted(results, key=lambda r: r.get("weighted_score", 0), reverse=True)] *)
Definition sort_by_weighted_score (results : list RawResult) : list RawResult :=
  sorted PrimFloat.ltb sort_key results true.

Definition ranked (parse_float : string -> option float)
    (reliability_map : gmap string float) (raw_results : list RawResult)
    : list RawResult :=
  sort_by_weighted_score (weighted parse_float reliability_map raw_results).

(** Two results have equal weighted scores ([==] on floats). *)
Definition same_weighted_score (a b : RawResult) : Prop :=
  (sort_key a =? sort_key b)%float = true.

(** No weighted score is NaN, the one float that is not equal to itself. *)
Definition no_nan_score (results : list RawResult) : bool :=
  forallb (fun r => (sort_key r =? sort_key r)%float) results.

Definition query_endpoint (parse_float : string -> option float)
    (settings : Settings) (raw_results : list RawResult) (top_k : Z)
    : result (list RawResult) :=
  bind (_build_reliability_map parse_float settings)
       (fun reliability_map =>
          Return (list_prefix
                    (ranked parse_float reliability_map raw_results) top_k)).

(** *** Inputs used in the examples below *)

(** A parser that accepts no string at all. *)
Definition no_parser : string -> option float := fun _ => None.

Definition settings_with (c : SourcesConfig) : Settings :=
  {| as_of_date := "2024-01-01"; log_level := "INFO"; sources := c |}.

Definition result_of (n : string) (v : option value) : RawResult :=
  {| source_name := Some n; score := v; weighted_score := None;
     metadata := ∅ |}.

(** Two entries for the same source, the second one with a negative
    reliability. *)
Definition duplicate_sources : Settings :=
  settings_with (SrcList [ mkEntry (Some "C") (VFloat 2);
                           mkEntry (Some "C") (VInt (-1)) ]).

(** The specification's ranking example: [A] with weight 1.0, [B] with
    weight 2.0, and one result of score 1.0 for each. *)
Definition ab_sources : Settings :=
  settings_with (SrcMapping (Some [ mkEntry (Some "A") (VFloat 1);
                                    mkEntry (Some "B") (VInt 2) ]) ∅).

Definition ab_results : list RawResult :=
  [ result_of "A" (Some (VFloat 1)); result_of "B" (Some (VFloat 1)) ].

(** A result with a score and one without. *)
Definition scored_and_unscored : list RawResult :=
  [ result_of "A" (Some (VFloat 1)); result_of "B" None ].

(** A source whose configured reliability is infinite. *)
Definition infinite_sources : Settings :=
  settings_with (SrcList [ mkEntry (Some "B") (VFloat infinity) ]).

(** Two entries for the same source, both well formed. *)
Definition reweighted_source : Settings :=
  settings_with (SrcList [ mkEntry (Some "C") (VFloat 1);
                           mkEntry (Some "C") (VInt 3) ]).

(** Seven results: four of score 1.0, one of score NaN, one of score 1.0
    and one of score 2.0. *)
Definition nan_among_equals : list RawResult :=
  [ result_of "S0" (Some (VFloat 1)); result_of "S1" (Some (VFloat 1));
    result_of "S2" (Some (VFloat 1)); result_of "S3" (Some (VFloat 1));
    result_of "S4" (Some (VFloat nan)); result_of "S5" (Some (VFloat 1));
    result_of "S6" (Some (VFloat 2)) ].

(** Three results of scores 1.0, NaN and 2.0. *)
Definition nan_in_the_middle : list RawResult :=
  [ result_of "A" (Some (VFloat 1)); result_of "B" (Some (VFloat nan));
    result_of "C" (Some (VFloat 2)) ].

(** Four results of scores 1.0, 6.0, NaN and 5.0. *)
Definition nan_before_the_last : list RawResult :=
  [ result_of "A" (Some (VFloat 1)); result_of "B" (Some (VFloat 6));
    result_of "C" (Some (VFloat nan)); result_of "D" (Some (VFloat 5)) ].

(** Three results of scores 1.0, 2.0 and 1.0. *)
Definition equal_scores : list RawResult :=
  [ result_of "A" (Some (VFloat 1)); result_of "B" (Some (VFloat 2));
    result_of "C" (Some (VFloat 1)) ].

(** A source whose configured reliability is the integer [2 ^ 1024]. *)
Definition huge_reliability : Settings :=
  settings_with (SrcList [ mkEntry (Some "A") (VInt (2 ^ 1024)) ]).

End Server.

(** * Properties *)

(** ** IEEE 754 facts the ranker relies on

    Derived from the specification of the primitive operations
    ([FloatAxioms]) and the reference implementation [SpecFloat]. *)

Module FloatFacts.

Lemma Prim2SF_one : Prim2SF 1 = S754_finite false 4503599627370496 (-52).
Proof. reflexivity. Qed.

Lemma digits2_pos_shift52 m :
  Zpos (digits2_pos (m * 4503599627370496)) = Zpos (digits2_pos m) + 52.
Proof.
  rewrite Pos.mul_comm.
  change (4503599627370496 * m)%positive with (Pos.iter xO m 52).
  cbv [Pos.iter]. cbn [digits2_pos]. lia.
Qed.

Lemma shr_shift52 m :
  SpecFloat.iter_pos shr_1 52 {| shr_m := Zpos (m * 4503599627370496); shr_r := false; shr_s := false |}
  = {| shr_m := Zpos m; shr_r := false; shr_s := false |}.
Proof.
  rewrite Pos.mul_comm.
  change (4503599627370496 * m)%positive with (Pos.iter xO m 52).
  reflexivity.
Qed.

Lemma binary_round_aux_mul_one s m e :
  bounded prec emax m e = true ->
  binary_round_aux prec emax s (Zpos (m * 4503599627370496)) (e + -52) loc_Exact
  = S754_finite s m e.
Proof.
  unfold bounded, canonical_mantissa. intros [Hc He]%andb_prop.
  apply Z.eqb_eq in Hc. 
  unfold binary_round_aux, shr_fexp.
  unfold Zdigits2 at 1. rewrite digits2_pos_shift52.
  replace (Z.pos (digits2_pos m) + 52 + (e + -52)) with (Z.pos (digits2_pos m) + e) by lia.
  rewrite Hc. replace (e - (e + -52)) with 52 by lia.
  unfold shr at 1. cbn [shr_record_of_loc]. rewrite shr_shift52.
  cbn [shr_m loc_of_shr_record round_nearest_even Zdigits2].
  replace (e + -52 + 52) with e by lia.
  rewrite Hc, Z.sub_diag. cbn [shr shr_record_of_loc shr_m]. rewrite He. reflexivity.
Qed.

Lemma mul_one_r x : (x * 1)%float = x.
Proof.
  apply Prim2SF_inj. rewrite mul_spec, Prim2SF_one.
  pose proof (Prim2SF_valid x) as Hv.
  destruct (Prim2SF x) as [s|s| |s m e]; unfold SF64mul, SFmul.
  - by rewrite xorb_false_r.
  - by rewrite xorb_false_r.
  - reflexivity.
  - rewrite xorb_false_r. by apply binary_round_aux_mul_one.
Qed.

(** *** Comparison *)
Ltac cmp_specs :=
  change (Pos.compare_cont Eq) with Pos.compare in *;
  repeat match goal with
  | |- context [Z.compare ?a ?b] => destruct (Z.compare_spec a b)
  | |- context [Pos.compare ?a ?b] => destruct (Pos.compare_spec a b)
  | H : context [Z.compare ?a ?b] |- _ => destruct (Z.compare_spec a b)
  | H : context [Pos.compare ?a ?b] |- _ => destruct (Pos.compare_spec a b)
  end;
  simpl in *; try congruence; try lia.

Ltac sf_cases x := destruct x as [[]|[]| |[] ? ?].

Lemma SFcompare_Lt_asym x y :
  SFcompare x y = Some Lt -> SFcompare y x = Some Gt.
Proof.
  sf_cases x; sf_cases y; simpl; try congruence; intros H; f_equal; cmp_specs.
Qed.

Lemma SFcompare_Lt_trans x y z :
  SFcompare x y = Some Lt -> SFcompare y z = Some Lt -> SFcompare x z = Some Lt.
Proof.
  sf_cases x; sf_cases y; simpl; try congruence; sf_cases z; simpl;
    try congruence; intros H1 H2; f_equal; cmp_specs.
Qed.

Lemma SFcompare_Eq_Lt_l x x' y :
  SFcompare x x' = Some Eq -> SFcompare x y = Some Lt -> SFcompare x' y = Some Lt.
Proof.
  sf_cases x; sf_cases x'; simpl; try congruence; sf_cases y; simpl;
    try congruence; intros H1 H2; f_equal; cmp_specs.
Qed.

Lemma SFcompare_Eq_sym x y :
  SFcompare x y = Some Eq -> SFcompare y x = Some Eq.
Proof.
  sf_cases x; sf_cases y; simpl; try congruence; intros H; f_equal; cmp_specs.
Qed.

Lemma SFcompare_Eq_trans x y z :
  SFcompare x y = Some Eq -> SFcompare y z = Some Eq -> SFcompare x z = Some Eq.
Proof.
  sf_cases x; sf_cases y; simpl; try congruence; sf_cases z; simpl;
    try congruence; intros H1 H2; f_equal; cmp_specs.
Qed.

(** *** Conversion of integers *)

Lemma fexp_digits d e :
  0 < d -> -1021 <= e -> fexp prec emax (d + e) = d + e - 53.
Proof. unfold fexp, emin, prec, emax. lia. Qed.

Lemma shr_fexp_canonical m e l :
  canonical_mantissa prec emax m e = true ->
  shr_fexp prec emax (Zpos m) e l = (shr_record_of_loc (Zpos m) l, e).
Proof.
  unfold canonical_mantissa, shr_fexp, Zdigits2. intros ->%Z.eqb_eq.
  by rewrite Z.sub_diag.
Qed.

Lemma binary_round_aux_canonical s m e :
  bounded prec emax m e = true ->
  binary_round_aux prec emax s (Zpos m) e loc_Exact = S754_finite s m e.
Proof.
  unfold bounded. intros [Hc He]%andb_prop. unfold binary_round_aux.
  rewrite (shr_fexp_canonical _ _ _ Hc). cbn [shr_record_of_loc shr_m loc_of_shr_record round_nearest_even].
  rewrite (shr_fexp_canonical _ _ _ Hc). cbn [shr_record_of_loc shr_m].
  by rewrite He.
Qed.

Lemma iter_pos_nat {A} (f : A -> A) n : forall x,
  SpecFloat.iter_pos f n x = Nat.iter (Pos.to_nat n) f x.
Proof.
  induction n as [n IH|n IH|]; intros x; cbn [SpecFloat.iter_pos].
  - rewrite !IH, Pos2Nat.inj_xI.
    replace (S (2 * Pos.to_nat n)) with (Pos.to_nat n + (Pos.to_nat n + 1))%nat by lia.
    rewrite !Nat.iter_add. reflexivity.
  - rewrite !IH, Pos2Nat.inj_xO.
    replace (2 * Pos.to_nat n)%nat with (Pos.to_nat n + Pos.to_nat n)%nat by lia.
    by rewrite Nat.iter_add.
  - reflexivity.
Qed.

Lemma digits2_pos_iter_xO p k :
  Zpos (digits2_pos (Pos.iter xO p k)) = Zpos (digits2_pos p) + Zpos k.
Proof.
  induction k as [|k IH] using Pos.peano_ind.
  - cbn [Pos.iter digits2_pos]. lia.
  - rewrite Pos.iter_succ. cbn [digits2_pos]. lia.
Qed.

(** One halving step removes one binary digit. *)
Lemma shr_1_digits r q :
  shr_m r = Zpos q -> 1 < Zpos (digits2_pos q) ->
  exists q', shr_m (shr_1 r) = Zpos q' /\
             Zpos (digits2_pos q') = Zpos (digits2_pos q) - 1.
Proof.
  destruct r as [m rb sb]. cbn [shr_m]. intros -> Hd.
  destruct q as [q|q|]; cbn [shr_1 shr_m digits2_pos] in *;
    [exists q|exists q|]; (split; [reflexivity|lia]) || lia.
Qed.

Lemma shr_iter_digits k : forall r q,
  shr_m r = Zpos q -> Z.of_nat k < Zpos (digits2_pos q) ->
  exists q', shr_m (Nat.iter k shr_1 r) = Zpos q' /\
             Zpos (digits2_pos q') = Zpos (digits2_pos q) - Z.of_nat k.
Proof.
  induction k as [|k IH]; intros r q Hm Hk.
  - exists q. split; [done|lia].
  - destruct (IH r q Hm) as (q1 & Hq1 & Hd1); [lia|].
    destruct (shr_1_digits _ _ Hq1) as (q2 & Hq2 & Hd2); [lia|].
    exists q2. split; [done|lia].
Qed.

(** Rounding a mantissa leaves it or adds one. *)
Lemma round_nearest_even_pos q l :
  round_nearest_even (Zpos q) l = Zpos q \/
  round_nearest_even (Zpos q) l = Zpos (Pos.succ q).
Proof.
  destruct l as [|[]]; cbn [round_nearest_even]; auto.
  - destruct (Z.even (Zpos q)); auto. right. lia.
  - right. lia.
Qed.

(** The successor has as many digits, or is a power of two with one more. *)
Lemma digits2_pos_succ q :
  digits2_pos (Pos.succ q) = digits2_pos q \/
  (exists q', Pos.succ q = xO q' /\ digits2_pos q' = digits2_pos q).
Proof.
  induction q as [q IH|q IH|].
  - change (Pos.succ q~1) with ((Pos.succ q)~0)%positive. cbn [digits2_pos].
    destruct IH as [IH|(q' & Hq' & IH)].
    + left. by rewrite IH.
    + right. exists (Pos.succ q). split; [done|].
      rewrite Hq'. cbn [digits2_pos]. by rewrite IH.
  - by left.
  - right. by exists 1%positive.
Qed.

(** A positive integer rounds to a positive finite number or overflows. *)
Lemma binary_round_pos p :
  (exists m e, binary_round prec emax false p 0 = S754_finite false m e /\
               bounded prec emax m e = true) \/
  binary_round prec emax false p 0 = S754_infinity false.
Proof.
  unfold binary_round, shl_align.
  set (d := Zpos (digits2_pos p)).
  assert (Hfexp : fexp prec emax (d + 0) = d - 53).
  { subst d. unfold fexp, emin, prec, emax. lia. }
  rewrite Hfexp.
  destruct (d - 53 - 0) as [|k|k] eqn:Hk.
  - (* exactly 53 digits *)
    left. exists p, 0. split; [|].
    + apply binary_round_aux_canonical.
      unfold bounded, canonical_mantissa. fold d. rewrite Hfexp.
      apply andb_true_intro. split; [apply Z.eqb_eq; lia|reflexivity].
    + unfold bounded, canonical_mantissa. fold d. rewrite Hfexp.
      apply andb_true_intro. split; [apply Z.eqb_eq; lia|reflexivity].
  - (* more than 53 digits: the low ones are rounded away *)
    unfold binary_round_aux.
    assert (Hshr : shr_fexp prec emax (Zpos p) 0 loc_Exact
                   = (Nat.iter (Pos.to_nat k) shr_1
                        (shr_record_of_loc (Zpos p) loc_Exact), Zpos k)).
    { unfold shr_fexp. cbn [Zdigits2]. fold d. rewrite Hfexp, Hk.
      cbn [shr]. by rewrite iter_pos_nat. }
    rewrite Hshr. clear Hshr.
    destruct (shr_iter_digits (Pos.to_nat k)
                (shr_record_of_loc (Zpos p) loc_Exact) p eq_refl)
      as (q1 & Hq1 & Hd1); [fold d; lia|].
    fold d in Hd1. rewrite positive_nat_Z in Hd1.
    set (mrs' := Nat.iter _ _ _) in *. rewrite Hq1.
    assert (Hfin : forall q e, Zpos (digits2_pos q) = 53 -> 0 < e ->
              (if e <=? emax - prec then S754_finite false q e
               else S754_infinity false) = S754_infinity false \/
              exists m e', (if e <=? emax - prec then S754_finite false q e
                            else S754_infinity false) = S754_finite false m e'
                           /\ bounded prec emax m e' = true).
    { intros q e Hq He. destruct (e <=? emax - prec) eqn:Hle; [right|by left].
      exists q, e. split; [done|]. unfold bounded, canonical_mantissa.
      rewrite Hq, Hle. apply andb_true_intro. split; [|done].
      apply Z.eqb_eq. unfold fexp, emin, prec, emax. lia. }
    destruct (round_nearest_even_pos q1 (loc_of_shr_record mrs')) as [-> | ->].
    + rewrite shr_fexp_canonical.
      * cbn [shr_record_of_loc shr_m].
        destruct (Hfin q1 (Zpos k)) as [->|Hok]; [lia|lia|by right|by left].
      * unfold canonical_mantissa. apply Z.eqb_eq.
        unfold fexp, emin, prec, emax. lia.
    + destruct (digits2_pos_succ q1) as [Hs|(q' & Hq' & Hs)].
      * rewrite shr_fexp_canonical.
        -- cbn [shr_record_of_loc shr_m].
           destruct (Hfin (Pos.succ q1) (Zpos k)) as [->|Hok];
             [lia|lia|by right|by left].
        -- unfold canonical_mantissa. apply Z.eqb_eq. rewrite Hs.
           unfold fexp, emin, prec, emax. lia.
      * rewrite Hq'.
        assert (Hshr : shr_fexp prec emax (Zpos q'~0) (Zpos k) loc_Exact
                       = ({| shr_m := Zpos q'; shr_r := false; shr_s := false |},
                          Zpos k + 1)).
        { unfold shr_fexp. cbn [Zdigits2 digits2_pos].
          replace (fexp prec emax (Zpos (Pos.succ (digits2_pos q')) + Zpos k)
                   - Zpos k) with 1; [done|].
          unfold fexp, emin, prec, emax. lia. }
        rewrite Hshr. cbn [shr_m].
        destruct (Hfin q' (Zpos k + 1)) as [->|Hok]; [lia|lia|by right|by left].
  - (* fewer than 53 digits: the mantissa is shifted left *)
    left. exists (Pos.iter xO p k), (d - 53).
    assert (Hb : bounded prec emax (Pos.iter xO p k) (d - 53) = true).
    { unfold bounded, canonical_mantissa. rewrite digits2_pos_iter_xO. fold d.
      apply andb_true_intro. split.
      - apply Z.eqb_eq. unfold fexp, emin, prec, emax. lia.
      - apply Z.leb_le. unfold prec, emax. lia. }
    split; [by apply binary_round_aux_canonical|done].
Qed.

(** *** Statements on [float] *)

Lemma ltb_asym x y : (x <? y)%float = true -> (y <? x)%float = false.
Proof.
  rewrite !FloatAxioms.ltb_spec. unfold SFltb.
  destruct (SFcompare (Prim2SF x) (Prim2SF y)) as [[]|] eqn:Hxy; try done.
  intros _. by rewrite (SFcompare_Lt_asym _ _ Hxy).
Qed.

Lemma ltb_trans x y z :
  (x <? y)%float = true -> (y <? z)%float = true -> (x <? z)%float = true.
Proof.
  rewrite !FloatAxioms.ltb_spec. unfold SFltb.
  destruct (SFcompare (Prim2SF x) (Prim2SF y)) as [[]|] eqn:Hxy; try done.
  destruct (SFcompare (Prim2SF y) (Prim2SF z)) as [[]|] eqn:Hyz; try done.
  intros _ _. by rewrite (SFcompare_Lt_trans _ _ _ Hxy Hyz).
Qed.

Lemma eqb_sym x y : (x =? y)%float = true -> (y =? x)%float = true.
Proof.
  rewrite !FloatAxioms.eqb_spec. unfold SFeqb.
  destruct (SFcompare (Prim2SF x) (Prim2SF y)) as [[]|] eqn:Hxy; try done.
  intros _. by rewrite (SFcompare_Eq_sym _ _ Hxy).
Qed.

Lemma eqb_trans x y z :
  (x =? y)%float = true -> (y =? z)%float = true -> (x =? z)%float = true.
Proof.
  rewrite !FloatAxioms.eqb_spec. unfold SFeqb.
  destruct (SFcompare (Prim2SF x) (Prim2SF y)) as [[]|] eqn:Hxy; try done.
  destruct (SFcompare (Prim2SF y) (Prim2SF z)) as [[]|] eqn:Hyz; try done.
  intros _ _. by rewrite (SFcompare_Eq_trans _ _ _ Hxy Hyz).
Qed.

Lemma eqb_not_ltb x y : (x =? y)%float = true -> (x <? y)%float = false.
Proof.
  rewrite FloatAxioms.eqb_spec, FloatAxioms.ltb_spec. unfold SFeqb, SFltb.
  by destruct (SFcompare (Prim2SF x) (Prim2SF y)) as [[]|].
Qed.

Lemma eqb_ltb_l x x' y :
  (x =? x')%float = true -> (x <? y)%float = true -> (x' <? y)%float = true.
Proof.
  rewrite FloatAxioms.eqb_spec, !FloatAxioms.ltb_spec. unfold SFeqb, SFltb.
  destruct (SFcompare (Prim2SF x) (Prim2SF x')) as [[]|] eqn:Hxx; try done.
  destruct (SFcompare (Prim2SF x) (Prim2SF y)) as [[]|] eqn:Hxy; try done.
  intros _ _. by rewrite (SFcompare_Eq_Lt_l _ _ _ Hxx Hxy).
Qed.

Lemma float_of_Z_pos i x :
  0 < i ->
  binary_normalize prec emax i 0 false = x ->
  x = S754_infinity false \/
  (0 <? SF2Prim x)%float = true.
Proof.
  intros Hi <-. destruct i as [|p|p]; try lia. cbn [binary_normalize].
  destruct (binary_round_pos p) as [(m & e & -> & Hb)| ->]; [right|by left].
  rewrite FloatAxioms.ltb_spec, Prim2SF_SF2Prim by done. reflexivity.
Qed.

Lemma zero_mul w :
  (0 <? w)%float = true -> (w <? infinity)%float = true -> (0 * w)%float = 0%float.
Proof.
  rewrite !FloatAxioms.ltb_spec. intros Hpos Hfin. apply Prim2SF_inj. rewrite mul_spec.
  change (Prim2SF 0) with (S754_zero false) in *.
  change (Prim2SF infinity) with (S754_infinity false) in *.
  destruct (Prim2SF w) as [[]|[]| |[] m e]; try done.
Qed.

(** Of floats that are not NaN, "not less" is transitive. *)
Lemma SFcompare_not_Lt_trans x y z :
  SFcompare x x = Some Eq -> SFcompare y y = Some Eq -> SFcompare z z = Some Eq ->
  SFcompare x y <> Some Lt -> SFcompare y z <> Some Lt ->
  SFcompare x z <> Some Lt.
Proof.
  sf_cases x; sf_cases y; simpl; try congruence; sf_cases z; simpl;
    try congruence; intros _ _ _ H1 H2 H3; cmp_specs.
Qed.

Lemma ltb_neg_trans x y z :
  (x =? x)%float = true -> (y =? y)%float = true -> (z =? z)%float = true ->
  (x <? y)%float = false -> (y <? z)%float = false -> (x <? z)%float = false.
Proof.
  rewrite !FloatAxioms.eqb_spec, !FloatAxioms.ltb_spec. unfold SFeqb, SFltb.
  intros Hx Hy Hz H1 H2.
  assert (Ex : SFcompare (Prim2SF x) (Prim2SF x) = Some Eq).
  { by destruct (SFcompare (Prim2SF x) (Prim2SF x)) as [[]|]. }
  assert (Ey : SFcompare (Prim2SF y) (Prim2SF y) = Some Eq).
  { by destruct (SFcompare (Prim2SF y) (Prim2SF y)) as [[]|]. }
  assert (Ez : SFcompare (Prim2SF z) (Prim2SF z) = Some Eq).
  { by destruct (SFcompare (Prim2SF z) (Prim2SF z)) as [[]|]. }
  pose proof (SFcompare_not_Lt_trans _ _ _ Ex Ey Ez) as H.
  destruct (SFcompare (Prim2SF x) (Prim2SF z)) as [[]|] eqn:E; try done.
  exfalso. apply H; [| |done].
  - by destruct (SFcompare (Prim2SF x) (Prim2SF y)) as [[]|].
  - by destruct (SFcompare (Prim2SF y) (Prim2SF z)) as [[]|].
Qed.

End FloatFacts.

(** ** SHA-256 test vectors *)

Example sha256_constants :
  nth 0 SHA256.K 0 = 0x428a2f98 /\ nth 63 SHA256.K 0 = 0xc67178f2 /\
  nth 0 SHA256.H0 0 = 0x6a09e667 /\ nth 7 SHA256.H0 0 = 0x5be0cd19.
Proof. repeat split. Qed.

Example sha256_hex_abc :
  Chunking.sha256_hex "abc"
  = "ba7816bf8f01cfea414140de5dae2223b00361a396177a9cb410ff61f20015ad".
Proof. vm_compute. reflexivity. Qed.

Example sha256_hex_empty :
  Chunking.sha256_hex ""
  = "e3b0c44298fc1c149afbf4c8996fb92427ae41e4649b934ca495991b7852b855".
Proof. vm_compute. reflexivity. Qed.

(** A message of 70 bytes, which pads to two blocks. *)
Example sha256_hex_two_blocks :
  Chunking.sha256_hex
    "aaaaaaaaaaaaaaaaaaaaaaaaaaaaaaaaaaaaaaaaaaaaaaaaaaaaaaaaaaaaaaaaaaaaaa"
  = "6bd5e5034855a11241f0dee8fc72850ffd9955b28347a86428b5fa19119f6ad0".
Proof. vm_compute. reflexivity. Qed.

(** ** The chunker *)

Module ChunkingFacts.
Import Chunking.

Section Loop.
Variables (doc txt : string) (chunk_size step : Z).

Let n := Py.len txt.

(** What the loop appends, and where it stops. *)
Lemma chunk_loop_inv fuel : forall index idx acc out,
  chunk_loop fuel doc txt chunk_size step index idx acc = Some out ->
  exists new,
    out = acc ++ new /\
    (forall (j : nat) c, new !! j = Some c ->
       c = emit doc txt chunk_size (index + Z.of_nat j * step) (idx + Z.of_nat j)
       /\ index + Z.of_nat j * step < n) /\
    n <= index + Z.of_nat (length new) * step.
Proof.
  induction fuel as [|fuel IH]; intros index idx acc out; simpl;
    destruct (index <? Py.len txt) eqn:Hlt; intros Hrun; try discriminate;
    try (injection Hrun as <-; exists []; rewrite app_nil_r;
         apply Z.ltb_ge in Hlt; split; [reflexivity|];
         split; [intros j c Hj; discriminate|]; simpl; subst n; lia).
  - apply IH in Hrun as (new & -> & Hnew & Hstop).
    apply Z.ltb_lt in Hlt.
    exists (emit doc txt chunk_size index idx :: new).
    split; [by rewrite <- app_assoc|]. split.
    + intros [|j] c Hj; simpl in Hj.
      * injection Hj as <-. rewrite Z.mul_0_l, !Z.add_0_r. by subst n.
      * apply Hnew in Hj as [-> Hj]. split; [f_equal; lia|lia].
    + simpl length. lia.
Qed.

(** Enough fuel: one unit per character still ahead of [index]. *)
Lemma chunk_loop_fuel fuel : forall index idx acc,
  1 <= step ->
  (Z.to_nat (n - index) <= fuel)%nat ->
  exists out, chunk_loop fuel doc txt chunk_size step index idx acc = Some out.
Proof.
  induction fuel as [|fuel IH]; intros index idx acc Hstep Hfuel; simpl;
    destruct (index <? Py.len txt) eqn:Hlt; eauto.
  - apply Z.ltb_lt in Hlt. subst n. lia.
  - apply Z.ltb_lt in Hlt. apply IH; [done|]. subst n. lia.
Qed.

(** More fuel does not change a result. *)
Lemma chunk_loop_more_fuel fuel : forall fuel' index idx acc out,
  chunk_loop fuel doc txt chunk_size step index idx acc = Some out ->
  (fuel <= fuel')%nat ->
  chunk_loop fuel' doc txt chunk_size step index idx acc = Some out.
Proof.
  induction fuel as [|fuel IH]; intros fuel' index idx acc out; simpl.
  - destruct (index <? Py.len txt) eqn:Hlt; [discriminate|].
    intros [= <-] _. destruct fuel'; simpl; by rewrite Hlt.
  - destruct (index <? Py.len txt) eqn:Hlt.
    + intros Hrun Hle. destruct fuel' as [|fuel']; [lia|].
      simpl. rewrite Hlt. apply IH; [done|lia].
    + intros [= <-] _. destruct fuel'; simpl; by rewrite Hlt.
Qed.
End Loop.

Lemma truthy_str_len txt : Py.truthy_str txt = false -> Py.len txt = 0.
Proof. by destruct txt. Qed.

(** The iteration bound used by [chunk_document] is enough. *)
Lemma chunk_document_run_total doc txt chunk_size overlap :
  exists chunks,
    chunk_document_run (String.length txt) doc txt chunk_size overlap
    = Some chunks.
Proof.
  unfold chunk_document_run. destruct (Py.truthy_str txt); simpl; eauto.
  apply chunk_loop_fuel; [lia|]. unfold Py.len. lia.
Qed.

Lemma chunk_document_run_more_fuel fuel fuel' doc txt chunk_size overlap chunks :
  chunk_document_run fuel doc txt chunk_size overlap = Some chunks ->
  (fuel <= fuel')%nat ->
  chunk_document_run fuel' doc txt chunk_size overlap = Some chunks.
Proof.
  unfold chunk_document_run. destruct (Py.truthy_str txt); simpl; [|done].
  apply chunk_loop_more_fuel.
Qed.

(** Whatever the bound, a run that completes returns [chunk_document]. *)
Lemma chunk_document_run_eq fuel doc txt chunk_size overlap chunks :
  chunk_document_run fuel doc txt chunk_size overlap = Some chunks ->
  chunk_document doc txt chunk_size overlap = chunks.
Proof.
  intros Hrun. unfold chunk_document.
  destruct (chunk_document_run_total doc txt chunk_size overlap) as [out Hout].
  rewrite Hout. simpl.
  destruct (Nat.le_ge_cases fuel (String.length txt)) as [Hle|Hle].
  - rewrite (chunk_document_run_more_fuel _ _ _ _ _ _ _ Hrun Hle) in Hout.
    congruence.
  - rewrite (chunk_document_run_more_fuel _ _ _ _ _ _ _ Hout Hle) in Hrun.
    congruence.
Qed.

(** The chunk at position [j] is the one emitted for offset [j * step],
    and the offsets run until the end of the text is reached. *)
Lemma chunk_document_spec doc txt chunk_size overlap :
  let step := Z.max (chunk_size - overlap) 1 in
  let chunks := chunk_document doc txt chunk_size overlap in
  (forall (j : nat) c, chunks !! j = Some c ->
     c = emit doc txt chunk_size (Z.of_nat j * step) (Z.of_nat j)
     /\ Z.of_nat j * step < Py.len txt) /\
  Py.len txt <= Z.of_nat (length chunks) * step.
Proof.
  intros step chunks. subst chunks. unfold chunk_document.
  destruct (chunk_document_run_total doc txt chunk_size overlap) as [out Hout].
  rewrite Hout. simpl. unfold chunk_document_run in Hout.
  destruct (Py.truthy_str txt) eqn:Htxt; simpl in Hout.
  - apply chunk_loop_inv in Hout as (new & -> & Hnew & Hstop). simpl.
    split; [|lia]. intros j c Hj. apply Hnew in Hj as [-> Hj].
    rewrite !Z.add_0_l in *. done.
  - injection Hout as <-. split; [intros j c Hj; discriminate|].
    rewrite (truthy_str_len _ Htxt). simpl. lia.
Qed.

Lemma step_bounds chunk_size overlap :
  1 <= chunk_size -> 0 <= overlap ->
  1 <= Z.max (chunk_size - overlap) 1 <= chunk_size.
Proof. lia. Qed.

(** Every offset that starts before the end of the text has its chunk. *)
Lemma chunk_document_lookup doc txt chunk_size overlap (j : nat) :
  let step := Z.max (chunk_size - overlap) 1 in
  Z.of_nat j * step < Py.len txt ->
  chunk_document doc txt chunk_size overlap !! j
  = Some (emit doc txt chunk_size (Z.of_nat j * step) (Z.of_nat j)).
Proof.
  intros step Hj.
  destruct (chunk_document_spec doc txt chunk_size overlap) as [Hat Hstop].
  fold step in Hat, Hstop.
  destruct (chunk_document doc txt chunk_size overlap !! j) as [c|] eqn:Hc.
  - by apply Hat in Hc as [-> _].
  - apply lookup_ge_None in Hc. subst step. nia.
Qed.

(** The number of chunks never exceeds the number of characters. *)
Lemma chunk_document_length doc txt chunk_size overlap :
  (length (chunk_document doc txt chunk_size overlap) <= String.length txt)%nat.
Proof.
  destruct (chunk_document_spec doc txt chunk_size overlap) as [Hat _].
  revert Hat. generalize (chunk_document doc txt chunk_size overlap).
  intros chunks. induction chunks as [|c0 l _] using rev_ind; intros Hat;
    [simpl; lia|].
  specialize (Hat (length l) c0).
  rewrite lookup_app_r, Nat.sub_diag in Hat by lia.
  destruct (Hat eq_refl) as [_ Hlt]. rewrite length_app. simpl.
  unfold Py.len in Hlt. nia.
Qed.

(** *** Windows *)

Lemma emit_fields doc txt chunk_size index idx :
  let c := emit doc txt chunk_size index idx in
  doc_id c = doc /\ chunk_index c = idx /\ start_char c = index /\
  end_char c = Z.min (index + chunk_size) (Py.len txt) /\
  text c = Py.slice txt index (end_char c) /\
  chunk_id c = chunk_id_of doc idx (sha256_hex (text c)).
Proof. by repeat split. Qed.

(** The chunk at position [j], with its fields spelled out. *)
Lemma chunk_document_at doc txt chunk_size overlap (j : nat) c :
  let step := Z.max (chunk_size - overlap) 1 in
  chunk_document doc txt chunk_size overlap !! j = Some c ->
  chunk_index c = Z.of_nat j /\
  start_char c = Z.of_nat j * step /\
  end_char c = Z.min (Z.of_nat j * step + chunk_size) (Py.len txt) /\
  Z.of_nat j * step < Py.len txt.
Proof.
  intros step Hc.
  destruct (chunk_document_spec doc txt chunk_size overlap) as [Hat _].
  by apply Hat in Hc as [-> Hlt].
Qed.

Lemma chunk_document_covers doc txt chunk_size overlap :
  1 <= chunk_size -> 0 <= overlap ->
  covers (chunk_document doc txt chunk_size overlap) (Py.len txt).
Proof.
  intros Hsize Hov p. set (step := Z.max (chunk_size - overlap) 1).
  split.
  - intros (c & [j Hj]%list_elem_of_lookup & Hp). unfold in_window in Hp.
    apply chunk_document_at in Hj as (_ & Hs & He & Hlt). fold step in Hs, He.
    subst step. nia.
  - intros Hp.
    assert (Hj : Z.of_nat (Z.to_nat (p / step)) * step < Py.len txt).
    { rewrite Z2Nat.id by (apply Z.div_pos; subst step; lia).
      pose proof (Z.mul_div_le p step). subst step. nia. }
    pose proof (chunk_document_lookup doc txt chunk_size overlap _ Hj) as Hc.
    eexists. split; [eapply list_elem_of_lookup_2, Hc|].
    unfold in_window. simpl. fold step.
    rewrite Z2Nat.id by (apply Z.div_pos; subst step; lia).
    pose proof (Z.mul_div_le p step).
    pose proof (Z.mul_succ_div_gt p step).
    subst step. nia.
Qed.

(** Two consecutive chunks: the shared offsets are those from the start
    of the later window to the end of the earlier one. *)
Lemma overlap_of_consecutive doc txt chunk_size overlap (i : nat) c c' :
  1 <= chunk_size -> 0 <= overlap ->
  let chunks := chunk_document doc txt chunk_size overlap in
  chunks !! i = Some c -> chunks !! S i = Some c' ->
  overlap_of c c' = end_char c - start_char c'.
Proof.
  intros Hsize Hov chunks Hc Hc'.
  apply chunk_document_at in Hc as (_ & Hs & He & Hlt).
  apply chunk_document_at in Hc' as (_ & Hs' & He' & Hlt').
  unfold overlap_of. rewrite Nat2Z.inj_succ in *. nia.
Qed.

(** C1, as the specification words it, fails when the overlap is not
    smaller than the chunk size: the step is floored at one character, so
    windows of four characters share three, whatever [overlap] says. *)
Lemma overlap_not_exact_when_overlap_ge_size :
  "ABCDEFGHIJ" <> "" /\ 1 <= 4 /\ 0 <= 10 /\
  covers (chunk_document "d" "ABCDEFGHIJ" 4 10) (Py.len "ABCDEFGHIJ") /\
  ~ exact_overlap_except_final (chunk_document "d" "ABCDEFGHIJ" 4 10) 10.
Proof.
  split; [discriminate|]. split; [lia|]. split; [lia|].
  split; [apply chunk_document_covers; lia|].
  intros Hexact.
  pose proof (chunk_document_lookup "d" "ABCDEFGHIJ" 4 10 0 eq_refl) as H0.
  pose proof (chunk_document_lookup "d" "ABCDEFGHIJ" 4 10 1 eq_refl) as H1.
  pose proof (chunk_document_lookup "d" "ABCDEFGHIJ" 4 10 2 eq_refl) as H2.
  apply lookup_lt_Some in H2.
  specialize (Hexact 0%nat _ _ H0 H1 H2). vm_compute in Hexact. discriminate Hexact.
Qed.

(** Nor is it only a matter of [overlap >= chunk_size]: near the end of
    the text several windows are cut short, not just the final one.  With
    ten characters, windows of six and an overlap of five, the windows at
    positions 5 and 6 are [[5,10)] and [[6,10)] and share four offsets. *)
Example overlap_not_exact_near_the_end :
  ~ exact_overlap_except_final (chunk_document "d" "ABCDEFGHIJ" 6 5) 5.
Proof.
  intros Hexact.
  pose proof (chunk_document_lookup "d" "ABCDEFGHIJ" 6 5 5 eq_refl) as H5.
  pose proof (chunk_document_lookup "d" "ABCDEFGHIJ" 6 5 6 eq_refl) as H6.
  pose proof (chunk_document_lookup "d" "ABCDEFGHIJ" 6 5 7 eq_refl) as H7.
  apply lookup_lt_Some in H7.
  specialize (Hexact 5%nat _ _ H5 H6 H7). vm_compute in Hexact. discriminate Hexact.
Qed.

(** C1 (amended).  For a non-empty text, [chunk_size >= 1] and
    [overlap >= 0], the windows of the chunks cover exactly
    [[0, len(text))], and two consecutive windows of which the earlier has
    its full length of [chunk_size] share exactly
    [min(overlap, chunk_size - 1)] offsets: [overlap] itself whenever
    [overlap < chunk_size]. *)
Theorem chunk_windows_cover_and_overlap doc txt chunk_size overlap :
  txt <> "" -> 1 <= chunk_size -> 0 <= overlap ->
  let chunks := chunk_document doc txt chunk_size overlap in
  covers chunks (Py.len txt) /\
  (forall (i : nat) c c',
     chunks !! i = Some c -> chunks !! S i = Some c' ->
     full_length chunk_size c ->
     overlap_of c c' = Z.min overlap (chunk_size - 1)) /\
  (overlap < chunk_size -> Z.min overlap (chunk_size - 1) = overlap).
Proof.
  intros _ Hsize Hov chunks. split; [by apply chunk_document_covers|].
  split; [|lia]. intros i c c' Hc Hc' Hfull.
  rewrite (overlap_of_consecutive _ _ _ _ _ _ _ Hsize Hov Hc Hc').
  unfold full_length in Hfull.
  apply chunk_document_at in Hc as (_ & Hs & He & Hlt).
  apply chunk_document_at in Hc' as (_ & Hs' & He' & Hlt').
  rewrite Nat2Z.inj_succ in *. nia.
Qed.

(** The specification's own example: ["ABCDEFGHIJ"], windows of four,
    overlap one. *)
Lemma chunk_windows_cover_and_overlap_witness :
  "ABCDEFGHIJ" <> "" /\ 1 <= 4 /\ 0 <= 1 /\
  let chunks := chunk_document "doc1" "ABCDEFGHIJ" 4 1 in
  covers chunks (Py.len "ABCDEFGHIJ") /\
  (forall (i : nat) c c',
     chunks !! i = Some c -> chunks !! S i = Some c' ->
     full_length 4 c ->
     overlap_of c c' = Z.min 1 (4 - 1)) /\
  (1 < 4 -> Z.min 1 (4 - 1) = 1).
Proof.
  split; [discriminate|]. split; [lia|]. split; [lia|].
  apply (chunk_windows_cover_and_overlap "doc1" "ABCDEFGHIJ" 4 1);
    [discriminate|lia|lia].
Defined.

Example chunk_document_concrete :
  map (fun c => (chunk_index c, text c, start_char c, end_char c))
      (chunk_document "doc1" "ABCDEFGHIJ" 4 1)
  = [(0, "ABCD", 0, 4); (1, "DEFG", 3, 7); (2, "GHIJ", 6, 10); (3, "J", 9, 10)].
Proof. vm_compute. reflexivity. Qed.

Example chunk_document_empty : chunk_document "d" "" 1500 200 = [].
Proof. reflexivity. Qed.

(** *** Termination *)

(** C2.  Whatever the overlap, the step is at least one character, so the
    loop stops after at most [len(text)] iterations: run with that bound
    (or any larger one) [chunk_document] returns, and it returns at most
    one chunk per character. *)
Theorem chunk_document_terminates doc txt chunk_size overlap :
  1 <= chunk_size ->
  1 <= Z.max (chunk_size - overlap) 1 /\
  exists chunks,
    (forall fuel, (String.length txt <= fuel)%nat ->
       chunk_document_run fuel doc txt chunk_size overlap = Some chunks) /\
    chunk_document doc txt chunk_size overlap = chunks /\
    (length chunks <= String.length txt)%nat.
Proof.
  intros _. split; [lia|].
  destruct (chunk_document_run_total doc txt chunk_size overlap) as [chunks Hrun].
  exists chunks. split; [|split].
  - intros fuel Hfuel. by eapply chunk_document_run_more_fuel.
  - by eapply chunk_document_run_eq.
  - rewrite <- (chunk_document_run_eq _ _ _ _ _ _ Hrun).
    apply chunk_document_length.
Qed.

(** The specification's instance: a hundred characters, windows of four,
    overlap ten. *)
Lemma chunk_document_terminates_witness :
  1 <= 4 /\
  1 <= Z.max (4 - 10) 1 /\
  exists chunks,
    (forall fuel, (String.length (Py.str_mul "x" 100) <= fuel)%nat ->
       chunk_document_run fuel "d" (Py.str_mul "x" 100) 4 10 = Some chunks) /\
    chunk_document "d" (Py.str_mul "x" 100) 4 10 = chunks /\
    (length chunks <= String.length (Py.str_mul "x" 100))%nat.
Proof.
  split; [lia|].
  apply (chunk_document_terminates "d" (Py.str_mul "x" 100) 4 10). lia.
Defined.

Example str_mul_x_100 : Py.len (Py.str_mul "x" 100) = 100.
Proof. reflexivity. Qed.

(** The run on that instance: one chunk per character, a hundred in all. *)
Example chunk_document_hundred :
  exists chunks,
    chunk_document_run 100 "d" (Py.str_mul "x" 100) 4 10 = Some chunks /\
    length chunks = 100%nat.
Proof. eexists. split; [vm_compute; reflexivity|reflexivity]. Qed.

(** *** Offsets *)

(** C8.  With [chunk_size >= 1], every emitted chunk has
    [start_char < end_char <= len(text)], and both offsets are
    non-decreasing in [chunk_index]. *)
Theorem chunk_offsets_ordered doc txt chunk_size overlap :
  1 <= chunk_size ->
  let chunks := chunk_document doc txt chunk_size overlap in
  (forall c, c ∈ chunks -> start_char c < end_char c <= Py.len txt) /\
  (forall c c', c ∈ chunks -> c' ∈ chunks ->
     chunk_index c <= chunk_index c' ->
     start_char c <= start_char c' /\ end_char c <= end_char c').
Proof.
  intros Hsize chunks. split.
  - intros c [j Hj]%list_elem_of_lookup.
    apply chunk_document_at in Hj as (_ & Hs & He & Hlt). lia.
  - intros c c' [j Hj]%list_elem_of_lookup [j' Hj']%list_elem_of_lookup Hle.
    apply chunk_document_at in Hj as (Hi & Hs & He & _).
    apply chunk_document_at in Hj' as (Hi' & Hs' & He' & _).
    assert (Z.of_nat j * Z.max (chunk_size - overlap) 1
            <= Z.of_nat j' * Z.max (chunk_size - overlap) 1) by nia.
    lia.
Qed.

Lemma chunk_offsets_ordered_witness :
  1 <= 4 /\
  let chunks := chunk_document "doc1" "ABCDEFGHIJ" 4 1 in
  (forall c, c ∈ chunks -> start_char c < end_char c <= Py.len "ABCDEFGHIJ") /\
  (forall c c', c ∈ chunks -> c' ∈ chunks ->
     chunk_index c <= chunk_index c' ->
     start_char c <= start_char c' /\ end_char c <= end_char c').
Proof.
  split; [lia|]. apply (chunk_offsets_ordered "doc1" "ABCDEFGHIJ" 4 1). lia.
Defined.

(** Without the precondition the first inequality is lost: a chunk size of
    zero gives empty windows. *)
Example chunk_size_zero_empty_window :
  map (fun c => (start_char c, end_char c)) (chunk_document "d" "ab" 0 0)
  = [(0, 0); (1, 1)].
Proof. vm_compute. reflexivity. Qed.

(** *** Identifiers *)

(** [str] is injective on integers: the digits can be read back. *)
Lemma str_int_inj i j : Py.str_int i = Py.str_int j -> i = j.
Proof.
  unfold Py.str_int. intros Heq. apply DecimalZ.to_int_inj.
  assert (Hparse : forall z,
            NilZero.int_of_string (NilZero.string_of_int (Z.to_int z))
            = Some (Z.to_int z)).
  { intros z. apply NilZero.isi; destruct z; simpl; try discriminate;
      intros [= H]; by apply DecimalPos.Unsigned.to_uint_nonnil in H. }
  pose proof (Hparse i) as Hi. rewrite Heq, Hparse in Hi. congruence.
Qed.

Lemma string_app_length s1 s2 :
  String.length (s1 +:+ s2) = (String.length s1 + String.length s2)%nat.
Proof.
  induction s1 as [|a s1 IH]; [done|].
  change (S (String.length (s1 +:+ s2))
          = S (String.length s1 + String.length s2)). by f_equal.
Qed.



Lemma chunk_document_elem doc txt chunk_size overlap c :
  c ∈ chunk_document doc txt chunk_size overlap ->
  doc_id c = doc /\
  chunk_id c = chunk_id_of (doc_id c) (chunk_index c) (sha256_hex (text c)).
Proof.
  intros [j Hj]%list_elem_of_lookup.
  destruct (chunk_document_spec doc txt chunk_size overlap) as [Hat _].
  by apply Hat in Hj as [-> _].
Qed.




(** The ordinal is appended to the document identifier without a
    separator, so across documents position and name can trade places:
    chunk 12 of document ["a"] and chunk 2 of document ["a1"] are hashed
    from the same message when their texts agree. *)
Example id_message_across_documents h :
  id_message "a" 12 h = id_message "a1" 2 h.
Proof. reflexivity. Qed.

End ChunkingFacts.

(** ** The list sort

    For every input the sort returns a rearrangement of it.  When [<] is
    a strict weak order on the elements (asymmetric, transitive, and with
    "not less" transitive, as on floats other than NaN), every merge is
    the plain stable merge, and the sort returns the input sorted, with
    the elements that are not ordered among themselves in their original
    order. *)

Module ListSortFacts.
Import ListSort.

(** *** Galloping finds a place where the oracle flips *)

Lemma gallop_back_spec fuel P hint maxofs : forall lastofs ofs l o,
  gallop_back fuel P hint maxofs lastofs ofs = (l, o) ->
  0 <= lastofs < ofs -> lastofs < maxofs -> P (hint - lastofs) = true ->
  (Z.to_nat (maxofs - lastofs) <= fuel)%nat ->
  0 <= l < o /\ l < maxofs /\ P (hint - l) = true /\
  (maxofs <= o \/ P (hint - o) = false).
Proof.
  induction fuel as [|fuel IH]; intros lastofs ofs l o; simpl.
  - intros [= <- <-] Hlo Hmax Hp Hfuel. split; [lia|]. split; [lia|]. split; [done|]. left. lia.
  - destruct (ofs <? maxofs) eqn:Hlt.
    + destruct (P (hint - ofs)) eqn:Hp'.
      * intros Hrun Hlo Hmax Hp Hfuel. apply Z.ltb_lt in Hlt.
        apply IH in Hrun; [done|lia|lia|done|lia].
      * intros [= <- <-] Hlo Hmax Hp Hfuel. split; [lia|]. split; [lia|]. split; [done|]. by right.
    + intros [= <- <-] Hlo Hmax Hp Hfuel. apply Z.ltb_ge in Hlt.
      split; [lia|]. split; [lia|]. split; [done|]. by left.
Qed.

Lemma gallop_forth_spec fuel P hint maxofs : forall lastofs ofs l o,
  gallop_forth fuel P hint maxofs lastofs ofs = (l, o) ->
  0 <= lastofs < ofs -> lastofs < maxofs -> P (hint + lastofs) = false ->
  (Z.to_nat (maxofs - lastofs) <= fuel)%nat ->
  0 <= l < o /\ l < maxofs /\ P (hint + l) = false /\
  (maxofs <= o \/ P (hint + o) = true).
Proof.
  induction fuel as [|fuel IH]; intros lastofs ofs l o; simpl.
  - intros [= <- <-] Hlo Hmax Hp Hfuel. split; [lia|]. split; [lia|]. split; [done|]. left. lia.
  - destruct (ofs <? maxofs) eqn:Hlt.
    + destruct (P (hint + ofs)) eqn:Hp'.
      * intros [= <- <-] Hlo Hmax Hp Hfuel. split; [lia|]. split; [lia|]. split; [done|]. by right.
      * intros Hrun Hlo Hmax Hp Hfuel. apply Z.ltb_lt in Hlt.
        apply IH in Hrun; [done|lia|lia|done|lia].
    + intros [= <- <-] Hlo Hmax Hp Hfuel. apply Z.ltb_ge in Hlt.
      split; [lia|]. split; [lia|]. split; [done|]. by left.
Qed.

Lemma gallop_bisect_spec fuel P n : forall lastofs ofs,
  0 <= lastofs <= ofs -> ofs <= n ->
  (0 < lastofs -> P (lastofs - 1) = false) ->
  (ofs < n -> P ofs = true) ->
  (Z.to_nat (ofs - lastofs) <= fuel)%nat ->
  let k := gallop_bisect fuel P lastofs ofs in
  0 <= k <= n /\ (0 < k -> P (k - 1) = false) /\ (k < n -> P k = true).
Proof.
  induction fuel as [|fuel IH]; intros lastofs ofs Hlo Hn Hl Ho Hfuel; simpl.
  - assert (lastofs = ofs) as -> by lia. split; [lia|]. by split.
  - destruct (lastofs <? ofs) eqn:Hlt.
    + apply Z.ltb_lt in Hlt.
      set (m := lastofs + (ofs - lastofs) / 2).
      assert (Hm : lastofs <= m < ofs).
      { subst m. pose proof (Z.div_pos (ofs - lastofs) 2).
        pose proof (Z.div_lt_upper_bound (ofs - lastofs) 2 (ofs - lastofs)).
        lia. }
      destruct (P m) eqn:Hp.
      * apply IH; [lia|lia|done|done|lia].
      * apply IH; [lia|lia| |done|lia].
        intros _. by replace (m + 1 - 1) with m by lia.
    + apply Z.ltb_ge in Hlt. assert (lastofs = ofs) as -> by lia.
      split; [lia|]. by split.
Qed.

Lemma gallop_spec P n hint :
  0 <= hint < n ->
  let k := gallop P n hint in
  0 <= k <= n /\ (0 < k -> P (k - 1) = false) /\ (k < n -> P k = true).
Proof.
  intros Hhint. unfold gallop. destruct (P hint) eqn:Hp.
  - destruct (gallop_back _ _ _ _ _ _) as [l o] eqn:Hrun.
    apply gallop_back_spec in Hrun as (Hlo & Hmax & Hl & Ho);
      [|lia|lia|by rewrite Z.sub_0_r|lia].
    apply gallop_bisect_spec; [lia|lia| | |lia].
    + intros Hpos. assert (Hlt : o < hint + 1) by lia.
      destruct Ho as [Ho|Ho]; [lia|]. rewrite Z.min_l by lia.
      by replace (hint - o + 1 - 1) with (hint - o) by lia.
    + done.
  - destruct (gallop_forth _ _ _ _ _ _) as [l o] eqn:Hrun.
    apply gallop_forth_spec in Hrun as (Hlo & Hmax & Hl & Ho);
      [|lia|lia|by rewrite Z.add_0_r|lia].
    apply gallop_bisect_spec; [lia|lia| | |lia].
    + intros _. replace (l + hint + 1 - 1) with (hint + l) by lia. done.
    + intros Hlt. assert (Hlt' : o < n - hint) by lia.
      destruct Ho as [Ho|Ho]; [lia|]. rewrite Z.min_l by lia.
      by rewrite Z.add_comm.
Qed.

Lemma bisect_spec fuel P : forall l r n,
  0 <= l < r -> r <= n ->
  (0 < l -> P (l - 1) = false) ->
  (r < n -> P r = true) ->
  (Z.to_nat (r - l) <= fuel)%nat ->
  let k := bisect fuel P l r in
  0 <= k <= n /\ (0 < k -> P (k - 1) = false) /\ (k < n -> P k = true).
Proof.
  induction fuel as [|fuel IH]; intros l r n Hlr Hn Hl Hr Hfuel; [lia|].
  simpl. set (p := l + (r - l) / 2).
  assert (Hp : l <= p < r).
  { subst p. pose proof (Z.div_pos (r - l) 2).
    pose proof (Z.div_lt_upper_bound (r - l) 2 (r - l)). lia. }
  destruct (P p) eqn:HP.
  - destruct (l <? p) eqn:Hlt.
    + apply Z.ltb_lt in Hlt. apply IH; [lia|lia|done|done|lia].
    + apply Z.ltb_ge in Hlt. assert (p = l) as Heq by lia. rewrite Heq in HP.
      split; [lia|]. split; [done|]. done.
  - destruct (p + 1 <? r) eqn:Hlt.
    + apply Z.ltb_lt in Hlt. apply IH; [lia|lia| |done|lia].
      intros _. by replace (p + 1 - 1) with p by lia.
    + apply Z.ltb_ge in Hlt. assert (p + 1 = r) as Heq by lia.
      split; [lia|]. split; [|by rewrite Heq].
      intros _. by replace (p + 1 - 1) with p by lia.
Qed.

(** *** The sort rearranges its input, whatever [<] is *)

Section Perm.
Context {A : Type}.
Variable lt : A -> A -> bool.

Lemma fst_cons_fst x (p : list A * Z) : fst (cons_fst x p) = x :: fst p.
Proof. done. Qed.

Lemma fst_app_fst l (p : list A * Z) : fst (app_fst l p) = l ++ fst p.
Proof. done. Qed.

Lemma is_nil_true (l : list A) : is_nil l = true -> l = [].
Proof. by destruct l. Qed.

Lemma is_nil_false (l : list A) : is_nil l = false -> l <> [].
Proof. by destruct l. Qed.

Lemma is_single_true (l : list A) : is_single l = true -> exists z, l = [z].
Proof. destruct l as [|z [|]]; try done. by exists z. Qed.

Ltac split_at n l l1 l2 :=
  let E1 := fresh in let E2 := fresh in
  remember (take n l) as l1 eqn:E1; remember (drop n l) as l2 eqn:E2;
  assert (l = l1 ++ l2) as -> by (subst l1 l2; by rewrite take_drop);
  clear E1 E2.

Lemma lo_loops_Permutation fuel :
  (forall mg acount bcount a b,
     fst (lo_pair lt fuel mg acount bcount a b) ≡ₚ a ++ b) /\
  (forall mg a b, fst (lo_gallop lt fuel mg a b) ≡ₚ a ++ b).
Proof.
  induction fuel as [|fuel [IHp IHg]]; [split; intros; simpl; reflexivity|].
  split.
  - intros mg acount bcount a b. simpl.
    destruct a as [|x a']; [done|]. destruct b as [|y b']; [done|].
    destruct (lt y x); rewrite fst_cons_fst.
    + destruct b' as [|y' b'']; [simpl; solve_Permutation|]. simpl is_nil. cbv iota.
      destruct (_ <=? _); [rewrite IHg|rewrite IHp]; solve_Permutation.
    + destruct a' as [|x' [|x'' a'']]; simpl is_single; cbv iota;
        [|simpl; solve_Permutation|];
        (destruct (_ <=? _); [rewrite IHg|rewrite IHp]; solve_Permutation).
  - intros mg a b. simpl.
    destruct b as [|y b']; [simpl; by rewrite app_nil_r|].
    set (mg' := if 1 <? mg then mg - 1 else mg). clearbody mg'.
    set (k := gallop_right lt y a 0). clearbody k.
    split_at (Z.to_nat k) a a1 a2.
    rewrite fst_app_fst, <- app_assoc. apply Permutation_app_head.
    destruct (negb (k =? 0)); destruct a2 as [|x [|x' a'']]; simpl;
      try solve_Permutation.
    all: destruct b' as [|y' b'']; simpl; try solve_Permutation.
    all: set (k' := gallop_left lt x (y' :: b'') 0); clearbody k';
      remember (y' :: b'') as b' eqn:Eb'; clear Eb';
      split_at (Z.to_nat k') b' b1 b2.
    all: destruct (negb (k' =? 0)); destruct b2 as [|y2 b2']; simpl;
      try solve_Permutation.
    all: try (destruct a'' as [|x'' a3]; simpl; try solve_Permutation).
    all: destruct (_ || _); [rewrite IHg|rewrite IHp]; solve_Permutation.
Qed.

Lemma hi_loops_Permutation fuel :
  (forall mg acount bcount ra rb,
     fst (hi_pair lt fuel mg acount bcount ra rb) ≡ₚ ra ++ rb) /\
  (forall mg ra rb, fst (hi_gallop lt fuel mg ra rb) ≡ₚ ra ++ rb).
Proof.
  induction fuel as [|fuel [IHp IHg]];
    [split; intros; simpl; solve_Permutation|].
  split.
  - intros mg acount bcount ra rb. simpl.
    destruct ra as [|x ra']; [simpl; solve_Permutation|].
    destruct rb as [|y rb']; [simpl; solve_Permutation|].
    destruct (lt y x); rewrite fst_cons_fst.
    + destruct ra' as [|x' ra'']; [simpl; solve_Permutation|].
      simpl is_nil. cbv iota.
      destruct (_ <=? _); [rewrite IHg|rewrite IHp]; solve_Permutation.
    + destruct rb' as [|y' [|y'' rb'']]; simpl is_single; cbv iota;
        [|simpl; solve_Permutation|];
        (destruct (_ <=? _); [rewrite IHg|rewrite IHp]; solve_Permutation).
  - intros mg ra rb. simpl.
    destruct rb as [|y rb']; [simpl; by rewrite app_nil_r|].
    set (mg' := if 1 <? mg then mg - 1 else mg). clearbody mg'.
    match goal with |- context [take (Z.to_nat ?e) ra] =>
      set (k := e); clearbody k end.
    split_at (Z.to_nat k) ra a1 ra2.
    rewrite fst_app_fst, <- app_assoc. apply Permutation_app_head.
    destruct (negb (k =? 0)); destruct ra2 as [|x ra']; simpl;
      try solve_Permutation.
    all: destruct (is_single rb') eqn:Hs;
      [apply is_single_true in Hs as [w ->]; simpl; solve_Permutation|];
      clear Hs.
    all: try (simpl; reflexivity).
    all: match goal with |- context [take (Z.to_nat ?e) ?l] =>
      set (k' := e); clearbody k';
      split_at (Z.to_nat k') l b1 rb2 end.
    all: destruct (negb (k' =? 0)); destruct rb2 as [|y2 [|y3 rb2']]; simpl;
      try solve_Permutation.
    all: destruct ra' as [|x' ra'']; simpl; try solve_Permutation.
    all: destruct (_ || _); [rewrite IHg|rewrite IHp]; solve_Permutation.
Qed.

Lemma merge_lo_Permutation mg a b : fst (merge_lo lt mg a b) ≡ₚ a ++ b.
Proof.
  unfold merge_lo. destruct b as [|y b']; [simpl; by rewrite app_nil_r|].
  rewrite fst_cons_fst.
  destruct b' as [|y' b'']; [simpl; solve_Permutation|]. simpl is_nil. cbv iota.
  destruct a as [|x [|x' a']]; simpl is_single; cbv iota;
    [|simpl; solve_Permutation|];
    rewrite (proj1 (lo_loops_Permutation _)); solve_Permutation.
Qed.

Lemma merge_hi_Permutation mg a b : fst (merge_hi lt mg a b) ≡ₚ a ++ b.
Proof.
  unfold merge_hi.
  etransitivity; [|apply Permutation_app; apply reverse_Permutation].
  destruct (reverse a) as [|x ra'].
  { simpl. by rewrite reverse_Permutation. }
  set (rb := reverse b). clearbody rb. simpl fst. rewrite reverse_Permutation.
  apply Permutation_skip.
  destruct ra' as [|x' ra'']; [done|]. simpl is_nil. cbv iota.
  destruct rb as [|y [|y' rb']]; simpl is_single; cbv iota;
    [|simpl; solve_Permutation|];
    rewrite (proj1 (hi_loops_Permutation _)); solve_Permutation.
Qed.

Lemma merge_at_Permutation mg a b : fst (merge_at lt mg a b) ≡ₚ a ++ b.
Proof.
  unfold merge_at. destruct b as [|y b0]; [simpl; by rewrite app_nil_r|].
  remember (y :: b0) as b eqn:Eb. clear Eb. cbv zeta.
  set (k := gallop_right lt y a 0). clearbody k.
  destruct (last _); [|done].
  match goal with |- context [?e <=? 0] =>
    set (nb := e); clearbody nb end.
  destruct (nb <=? 0); [done|].
  simpl fst.
  split_at (Z.to_nat k) a a1 a2. split_at (Z.to_nat nb) b b1 b2.
  destruct (_ <=? _);
    [rewrite merge_lo_Permutation|rewrite merge_hi_Permutation];
    solve_Permutation.
Qed.

(** *** Runs *)

Lemma run_desc_bounds l : forall prev n,
  (n <= run_desc lt prev l n <= n + length l)%nat.
Proof.
  induction l as [|x l IH]; intros prev n; simpl; [lia|].
  destruct (lt x prev); [|lia]. specialize (IH x (S n)). lia.
Qed.

Lemma run_asc_bounds l : forall prev n,
  (n <= run_asc lt prev l n <= n + length l)%nat.
Proof.
  induction l as [|x l IH]; intros prev n; simpl; [lia|].
  destruct (lt x prev); [lia|]. specialize (IH x (S n)). lia.
Qed.

Lemma count_run_bounds l :
  l <> [] -> (1 <= fst (count_run lt l) <= length l)%nat.
Proof.
  intros Hl. destruct l as [|x [|y l']]; [done|simpl; lia|].
  unfold count_run. destruct (lt y x); simpl.
  - pose proof (run_desc_bounds l' y 2). lia.
  - pose proof (run_asc_bounds l' y 2). lia.
Qed.

Lemma binary_insert_Permutation run pivot :
  binary_insert lt run pivot ≡ₚ run ++ [pivot].
Proof.
  unfold binary_insert. cbv zeta.
  match goal with |- context [take (Z.to_nat ?e) run] =>
    set (k := e); clearbody k end.
  split_at (Z.to_nat k) run r1 r2. solve_Permutation.
Qed.

Lemma binarysort_Permutation rest : forall run,
  binarysort lt run rest ≡ₚ run ++ rest.
Proof.
  unfold binarysort. induction rest as [|x rest IH]; intros run; simpl.
  - by rewrite app_nil_r.
  - rewrite IH, binary_insert_Permutation. solve_Permutation.
Qed.

(** *** The pending runs *)

Lemma flat_cons (r : list A * Z) p : flat (r :: p) = flat p ++ fst r.
Proof.
  unfold flat. simpl. rewrite reverse_cons, concat_app. simpl.
  by rewrite app_nil_r.
Qed.

Lemma collapse_above_Permutation fuel power : forall mg p,
  flat (fst (collapse_above lt fuel power mg p)) ≡ₚ flat p.
Proof.
  induction fuel as [|fuel IH]; intros mg p; simpl; [done|].
  destruct p as [|[b pb] [|[a pa] rest]]; try done.
  destruct (power <? pa); [|done].
  rewrite IH, !flat_cons. simpl. rewrite merge_at_Permutation.
  solve_Permutation.
Qed.

Lemma found_new_run_Permutation mg p n2 listlen :
  flat (fst (found_new_run lt mg p n2 listlen)) ≡ₚ flat p.
Proof.
  unfold found_new_run. destruct p as [|[top ptop] below]; [done|].
  cbv zeta.
  pose proof (collapse_above_Permutation (length ((top, ptop) :: below))
    (power_of (runs_len below) (len top) n2 listlen) mg ((top, ptop) :: below))
    as H.
  destruct (collapse_above _ _ _ _ _) as [p' mg'].
  simpl in H. rewrite <- H. destruct p' as [|[top' ?] below']; [done|].
  simpl. by rewrite !flat_cons.
Qed.

Lemma force_collapse_Permutation fuel : forall mg p,
  flat (force_collapse lt fuel mg p) ≡ₚ flat p.
Proof.
  induction fuel as [|fuel IH]; intros mg p; simpl; [done|].
  destruct p as [|[c pc] [|[b pb] [|[a pa] rest]]]; try done.
  - rewrite IH, !flat_cons. simpl. rewrite merge_at_Permutation.
    solve_Permutation.
  - destruct (len a <? len c); rewrite IH, !flat_cons; simpl;
      rewrite merge_at_Permutation; solve_Permutation.
Qed.


Lemma next_run_Permutation minrun rest :
  rest <> [] ->
  (1 <= snd (next_run lt minrun rest) <= length rest)%nat /\
  fst (next_run lt minrun rest) ≡ₚ take (snd (next_run lt minrun rest)) rest.
Proof.
  intros Hrest. unfold next_run.
  pose proof (count_run_bounds rest Hrest) as Hcnt.
  destruct (count_run lt rest) as [cnt desc]. simpl in Hcnt. cbv zeta.
  set (run := if desc then reverse (take cnt rest) else take cnt rest).
  assert (Hrun : run ≡ₚ take cnt rest).
  { subst run. destruct desc; [apply reverse_Permutation|done]. }
  clearbody run.
  destruct (Z.of_nat cnt <? minrun) eqn:Hshort; simpl; [|done].
  apply Z.ltb_lt in Hshort. unfold len in *.
  set (force := Z.to_nat _).
  assert (Hforce : (cnt <= force <= length rest)%nat).
  { subst force. destruct (_ <=? _) eqn:E; [|apply Z.leb_gt in E]; lia. }
  split; [lia|].
  rewrite binarysort_Permutation, Hrun, take_take_drop.
  by replace (cnt + (force - cnt))%nat with force by lia.
Qed.

Lemma sort_loop_Permutation fuel minrun listlen : forall mg p rest,
  (length rest <= fuel)%nat ->
  flat (fst (sort_loop lt fuel minrun listlen mg p rest)) ≡ₚ flat p ++ rest.
Proof.
  induction fuel as [|fuel IH]; intros mg p rest Hfuel.
  { destruct rest; simpl in *; [by rewrite app_nil_r|lia]. }
  destruct rest as [|x rest'] eqn:Erest; [simpl; by rewrite app_nil_r|].
  rewrite <- Erest in *. assert (Hrest : rest <> []) by (by rewrite Erest).
  assert (Hstep : sort_loop lt (S fuel) minrun listlen mg p rest =
    let '(run, cnt) := next_run lt minrun rest in
    let '(p, mg) := found_new_run lt mg p (Z.of_nat cnt) listlen in
    sort_loop lt fuel minrun listlen mg ((run, 0) :: p) (drop cnt rest)).
  { by rewrite Erest. }
  rewrite Hstep. clear Hstep.
  destruct (next_run_Permutation minrun rest Hrest) as [Hn Hrun].
  destruct (next_run lt minrun rest) as [run cnt]. simpl in Hn, Hrun.
  pose proof (found_new_run_Permutation mg p (Z.of_nat cnt) listlen) as Hp.
  destruct (found_new_run _ _ _ _ _) as [p' mg']. simpl in Hp.
  rewrite IH by (rewrite length_drop; lia).
  rewrite flat_cons, Hp. simpl. rewrite Hrun, <- app_assoc.
  by rewrite take_drop.
Qed.

Theorem list_sort_Permutation l : list_sort lt l ≡ₚ l.
Proof.
  unfold list_sort. destruct l as [|x [|y l']]; [done|done|].
  remember (x :: y :: l') as l eqn:El. clear El. cbv zeta.
  pose proof (sort_loop_Permutation (length l) (merge_compute_minrun (len l))
    (len l) MIN_GALLOP [] l (le_n _)) as H.
  destruct (sort_loop _ _ _ _ _ _ _) as [p mg]. simpl in H.
  by rewrite force_collapse_Permutation, H.
Qed.

End Perm.

(** *** The sort is stable where [<] is a strict weak order *)

Section Order.
Context {A : Type}.
Variable lt : A -> A -> bool.
Variable G : A -> Prop.
Hypothesis lt_asym : forall x y, lt x y = true -> lt y x = false.
Hypothesis lt_trans : forall x y z, lt x y = true -> lt y z = true -> lt x z = true.
Hypothesis lt_neg_trans : forall x y z, G x -> G y -> G z ->
  lt x y = false -> lt y z = false -> lt x z = false.

Local Abbreviation Asc := (ListSortSpec.Asc lt).
Local Abbreviation Desc := (ListSortSpec.Desc lt).
Local Abbreviation smerge := (ListSortSpec.smerge lt).
Local Abbreviation lo_inv := (ListSortSpec.lo_inv lt G).
Local Abbreviation hi_inv := (ListSortSpec.hi_inv lt G).
Local Abbreviation run_ok := (ListSortSpec.run_ok lt G).

Lemma lt_le_trans x y z :
  G x -> G y -> G z -> lt x y = true -> lt z y = false -> lt x z = true.
Proof.
  intros Gx Gy Gz Hxy Hzy. destruct (lt x z) eqn:Hxz; [done|].
  by rewrite (lt_neg_trans x z y Gx Gz Gy Hxz Hzy) in Hxy.
Qed.

Lemma le_lt_trans x y z :
  G x -> G y -> G z -> lt y x = false -> lt y z = true -> lt x z = true.
Proof.
  intros Gx Gy Gz Hyx Hyz. destruct (lt x z) eqn:Hxz; [done|].
  by rewrite (lt_neg_trans y x z Gy Gx Gz Hyx Hxz) in Hyz.
Qed.

(** *** Lists and indices *)

Lemma at_lookup (a : list A) f (i : nat) x :
  a !! i = Some x -> at_ a f (Z.of_nat i) = f x.
Proof.
  intros Hx. unfold at_. rewrite Nat2Z.id, Hx.
  by destruct (0 <=? Z.of_nat i) eqn:E; [|apply Z.leb_gt in E; lia].
Qed.

Lemma Asc_lookup a (i j : nat) x y :
  Asc a -> (i <= j)%nat -> a !! i = Some x -> a !! j = Some y ->
  i = j \/ lt y x = false.
Proof.
  intros Ha. revert i j.
  induction Ha as [|z l Hs IH Hall]; intros i j Hij Hx Hy; [done|].
  destruct i as [|i], j as [|j]; simpl in *; [by left| |lia|].
  - injection Hx as <-. right. rewrite Forall_forall in Hall.
    apply Hall. by eapply list_elem_of_lookup_2.
  - destruct (IH i j) as [->|?]; [lia|done|done|by left|by right].
Qed.

(** Where a monotone test flips, the list splits. *)
Lemma threshold_split (f : A -> bool) (a : list A) (k : Z) :
  0 <= k <= len a ->
  (0 < k -> at_ a f (k - 1) = false) ->
  (k < len a -> at_ a f k = true) ->
  (forall (i j : nat) x y, (i < j)%nat -> a !! i = Some x -> a !! j = Some y ->
     (f y = false -> f x = false) /\ (f x = true -> f y = true)) ->
  Forall (fun x => f x = false) (take (Z.to_nat k) a) /\
  Forall (fun x => f x = true) (drop (Z.to_nat k) a).
Proof.
  unfold len. intros Hk Hlo Hhi Hmono. split.
  - apply Forall_lookup. intros i x Hx.
    apply lookup_take_Some in Hx as [Hx Hi].
    destruct (lookup_lt_is_Some_2 a (Z.to_nat k - 1)) as [z Hz]; [lia|].
    assert (Hfz : f z = false).
    { rewrite <- (at_lookup a f _ z Hz).
      replace (Z.of_nat (Z.to_nat k - 1)) with (k - 1) by lia. apply Hlo. lia. }
    destruct (decide (i = (Z.to_nat k - 1)%nat)) as [->|Hne].
    + congruence.
    + by apply (Hmono i (Z.to_nat k - 1)%nat x z); [lia|..].
  - apply Forall_lookup. intros i x Hx. rewrite lookup_drop in Hx.
    assert (Hlt : (Z.to_nat k < length a)%nat).
    { apply lookup_lt_Some in Hx. lia. }
    destruct (lookup_lt_is_Some_2 a (Z.to_nat k)) as [z Hz]; [lia|].
    assert (Hfz : f z = true).
    { rewrite <- (at_lookup a f _ z Hz). rewrite Z2Nat.id by lia.
      apply Hhi. lia. }
    destruct i as [|i].
    + rewrite Nat.add_0_r in Hx. congruence.
    + by apply (Hmono (Z.to_nat k) (Z.to_nat k + S i)%nat z x); [lia|..].
Qed.

Lemma gallop_right_split key a hint :
  Asc a -> Forall G a -> G key -> 0 <= hint < len a ->
  let k := gallop_right lt key a hint in
  0 <= k <= len a /\
  Forall (fun x => lt key x = false) (take (Z.to_nat k) a) /\
  Forall (fun x => lt key x = true) (drop (Z.to_nat k) a).
Proof.
  intros Ha HG Gk Hhint k. subst k. unfold gallop_right.
  destruct (gallop_spec (at_ a (fun x => lt key x)) (len a) hint Hhint)
    as (Hk & Hlo & Hhi).
  split; [done|]. apply threshold_split; [done|done|done|].
  intros i j x y Hij Hx Hy.
  assert (Gx : G x) by (eapply Forall_lookup_1; eauto).
  assert (Gy : G y) by (eapply Forall_lookup_1; eauto).
  destruct (Asc_lookup a i j x y Ha) as [?|Hle]; [lia|done|done|lia|].
  split.
  - intros Hky. by apply (lt_neg_trans key y x).
  - intros Hkx. by apply (lt_le_trans key x y).
Qed.

Lemma gallop_left_split key a hint :
  Asc a -> Forall G a -> G key -> 0 <= hint < len a ->
  let k := gallop_left lt key a hint in
  0 <= k <= len a /\
  Forall (fun x => lt x key = true) (take (Z.to_nat k) a) /\
  Forall (fun x => lt x key = false) (drop (Z.to_nat k) a).
Proof.
  intros Ha HG Gk Hhint k. subst k. unfold gallop_left.
  destruct (gallop_spec (at_ a (fun x => negb (lt x key))) (len a) hint Hhint)
    as (Hk & Hlo & Hhi).
  split; [done|].
  destruct (threshold_split (fun x => negb (lt x key)) a _ Hk Hlo Hhi) as [H1 H2].
  - intros i j x y Hij Hx Hy.
    assert (Gx : G x) by (eapply Forall_lookup_1; eauto).
    assert (Gy : G y) by (eapply Forall_lookup_1; eauto).
    destruct (Asc_lookup a i j x y Ha) as [?|Hle]; [lia|done|done|lia|].
    rewrite !negb_false_iff, !negb_true_iff. split.
    + intros Hyk. by apply (le_lt_trans x y key).
    + intros Hxk. by apply (lt_neg_trans y x key).
  - split.
    + eapply Forall_impl; [exact H1|]. intros x. by rewrite negb_false_iff.
    + eapply Forall_impl; [exact H2|]. intros x. by rewrite negb_true_iff.
Qed.

(** *** The reference merge *)

Lemma smerge_nil_r a : smerge a [] = a.
Proof. by destruct a. Qed.

Lemma smerge_cons x a y b :
  smerge (x :: a) (y :: b)
  = if lt y x then y :: smerge (x :: a) b else x :: smerge a (y :: b).
Proof. reflexivity. Qed.

Lemma smerge_take_b x a b1 b2 :
  Forall (fun y => lt y x = true) b1 ->
  smerge (x :: a) (b1 ++ b2) = b1 ++ smerge (x :: a) b2.
Proof.
  induction 1 as [|y b1 Hy _ IH]; [done|].
  rewrite <- !app_comm_cons, smerge_cons, Hy. by f_equal.
Qed.

Lemma smerge_take_a a1 a2 y b :
  Forall (fun x => lt y x = false) a1 ->
  smerge (a1 ++ a2) (y :: b) = a1 ++ smerge a2 (y :: b).
Proof.
  induction 1 as [|x a1 Hx _ IH]; [done|].
  rewrite <- !app_comm_cons, smerge_cons, Hx. by f_equal.
Qed.

Lemma smerge_last z b :
  Forall (fun y => lt y z = true) b -> smerge [z] b = b ++ [z].
Proof.
  intros Hb. rewrite <- (app_nil_r b) at 1. by rewrite smerge_take_b.
Qed.


(** *** [merge_lo] is the reference merge *)

Lemma Asc_app_inv a1 a2 : Asc (a1 ++ a2) -> Asc a1 /\ Asc a2.
Proof.
  intros H. split; [by eapply StronglySorted_app_1_l|by eapply StronglySorted_app_1_r].
Qed.

Lemma lo_inv_drop a1 a2 b1 b2 :
  lo_inv (a1 ++ a2) (b1 ++ b2) -> (b2 <> [] -> a2 <> []) -> lo_inv a2 b2.
Proof.
  intros (Ha & Hb & Ga & Gb & Hlast) Hne.
  apply Asc_app_inv in Ha as [_ Ha]. apply Asc_app_inv in Hb as [_ Hb].
  apply Forall_app in Ga as [_ Ga]. apply Forall_app in Gb as [_ Gb].
  do 4 (split; [done|]). intros Hb2.
  destruct Hlast as (z & Hz & Hall); [by destruct b1, b2|].
  exists z. split.
  - rewrite last_app in Hz. destruct (last a2) eqn:E; [done|].
    apply last_None in E. by apply Hne in Hb2.
  - by apply Forall_app in Hall as [_ ?].
Qed.

Lemma lo_inv_nonempty a b : lo_inv a b -> b <> [] -> a <> [].
Proof.
  intros (_ & _ & _ & _ & Hlast) Hb. destruct (Hlast Hb) as (z & Hz & _).
  by intros ->.
Qed.

Lemma lo_inv_single z b : lo_inv [z] b -> smerge [z] b = b ++ [z].
Proof.
  intros (_ & _ & _ & _ & Hlast). destruct b as [|y b]; [done|].
  destruct Hlast as (z' & [= <-] & Hall); [done|]. by apply smerge_last.
Qed.

Lemma lo_inv_head_lt x a y b :
  lo_inv (x :: a) (y :: b) -> lt y x = false -> a <> [].
Proof.
  intros (_ & _ & _ & _ & Hlast) Hyx ->.
  destruct Hlast as (z & [= <-] & Hall); [done|].
  apply Forall_cons in Hall as [Hy _]. congruence.
Qed.

Lemma len_pos (l : list A) : l <> [] -> 0 <= 0 < len l.
Proof. destruct l; [done|]. unfold len. simpl. lia. Qed.

Lemma lo_loops_smerge fuel :
  (forall mg acount bcount a b,
     lo_inv a b -> (length a + length b <= fuel)%nat ->
     fst (lo_pair lt fuel mg acount bcount a b) = smerge a b) /\
  (forall mg a b,
     lo_inv a b -> (length a + length b <= fuel)%nat ->
     fst (lo_gallop lt fuel mg a b) = smerge a b).
Proof.
  induction fuel as [|fuel [IHp IHg]].
  { split; intros; destruct a, b; simpl in *; try lia; done. }
  split.
  - intros mg acount bcount a b Hinv Hfuel. simpl.
    destruct a as [|x a']; [done|].
    destruct b as [|y b']; [simpl; by rewrite app_nil_r|].
    rewrite smerge_cons. destruct (lt y x) eqn:Hyx; rewrite fst_cons_fst; f_equal.
    + assert (Hinv' : lo_inv (x :: a') b').
      { apply (lo_inv_drop [] _ [y]); [done|]. done. }
      destruct (is_nil b') eqn:Hb'.
      { apply is_nil_true in Hb' as ->. done. }
      simpl in Hfuel.
      destruct (mg <=? bcount + 1); [apply IHg|apply IHp]; simpl; try done; lia.
    + pose proof (lo_inv_head_lt _ _ _ _ Hinv Hyx) as Ha'.
      assert (Hinv' : lo_inv a' (y :: b')).
      { by apply (lo_inv_drop [x] _ []). }
      destruct (is_single a') eqn:Hs.
      { apply is_single_true in Hs as [z ->].
        by rewrite (lo_inv_single _ _ Hinv'). }
      simpl in Hfuel.
      destruct (mg <=? acount + 1); [apply IHg|apply IHp]; simpl; try done; lia.
  - intros mg a b Hinv Hfuel. simpl.
    destruct b as [|y b']; [by rewrite smerge_nil_r|].
    pose proof (lo_inv_nonempty _ _ Hinv ltac:(done)) as Ha.
    destruct Hinv as (Hasc & Hbsc & Ga & Gb & Hlast).
    destruct (Hlast ltac:(done)) as (z & Hz & Hall).
    assert (Gy : G y) by (by apply Forall_cons in Gb as [? _]).
    destruct (gallop_right_split y a 0 Hasc Ga Gy (len_pos _ Ha))
      as (Hk & Hle & Hgt).
    set (k := gallop_right lt y a 0) in *.
    pose proof (take_drop (Z.to_nat k) a) as Hsplit.
    set (a1 := take (Z.to_nat k) a) in *. set (a2 := drop (Z.to_nat k) a) in *.
    assert (Hinv2 : lo_inv a2 (y :: b')).
    { apply (lo_inv_drop a1 _ []); [by rewrite Hsplit|]. intros _ Ha2.
      rewrite Ha2, app_nil_r in Hsplit. rewrite <- Hsplit in Hz.
      apply last_Some in Hz as [l' Hl']. rewrite Hl' in Hle.
      rewrite Forall_app, Forall_singleton in Hle. destruct Hle as [_ Hle].
      apply Forall_cons in Hall as [Hyz _]. congruence. }
    pose proof (lo_inv_nonempty _ _ Hinv2 ltac:(done)) as Ha2.
    rewrite fst_app_fst.
    replace (smerge a (y :: b')) with (smerge (a1 ++ a2) (y :: b'))
      by (by rewrite Hsplit).
    rewrite smerge_take_a by done.
    f_equal.
    destruct (negb (k =? 0) && is_single a2) eqn:E1.
    { apply andb_true_iff in E1 as [_ [z' Hz']%is_single_true].
      rewrite Hz' in *. by rewrite (lo_inv_single _ _ Hinv2). }
    destruct (negb (k =? 0) && is_nil a2) eqn:E2.
    { apply andb_true_iff in E2 as [_ ?%is_nil_true]. done. }
    clear E1 E2.
    destruct a2 as [|x a'] eqn:Ea2; [done|].
    apply Forall_cons in Hgt as [Hyx _].
    rewrite fst_cons_fst, smerge_cons, Hyx. f_equal.
    assert (Hinv3 : lo_inv (x :: a') b') by by apply (lo_inv_drop [] _ [y]).
    destruct (is_nil b') eqn:Hb'.
    { apply is_nil_true in Hb' as ->. done. }
    apply is_nil_false in Hb'.
    destruct Hinv3 as (Hasc3 & Hbsc3 & Ga3 & Gb3 & Hlast3).
    assert (Gx : G x) by (by apply Forall_cons in Ga3 as [? _]).
    destruct (gallop_left_split x b' 0 Hbsc3 Gb3 Gx (len_pos _ Hb'))
      as (Hk' & Hlt' & Hge').
    set (k' := gallop_left lt x b' 0) in *.
    pose proof (take_drop (Z.to_nat k') b') as Hsplit'.
    set (b1 := take (Z.to_nat k') b') in *.
    set (b2 := drop (Z.to_nat k') b') in *.
    rewrite fst_app_fst.
    replace (smerge (x :: a') b') with (smerge (x :: a') (b1 ++ b2))
      by (by rewrite Hsplit').
    rewrite smerge_take_b by done.
    f_equal.
    destruct (negb (k' =? 0) && is_nil b2) eqn:E3.
    { apply andb_true_iff in E3 as [_ ->%is_nil_true]. done. }
    assert (Hb2 : b2 <> []).
    { intros Hb2. rewrite Hb2 in E3. simpl in E3. rewrite andb_true_r in E3.
      apply negb_false_iff, Z.eqb_eq in E3. unfold b2 in Hb2.
      rewrite E3 in Hb2. simpl in Hb2. done. }
    clear E3. destruct b2 as [|y2 b2'] eqn:Eb2; [done|].
    apply Forall_cons in Hge' as [Hy2x _].
    rewrite fst_cons_fst, smerge_cons, Hy2x. f_equal.
    assert (Hinv4 : lo_inv (x :: a') (y2 :: b2')).
    { apply (lo_inv_drop [] _ b1); [|done]. simpl. rewrite Hsplit'.
      by do 4 (split; [done|]). }
    pose proof (lo_inv_head_lt _ _ _ _ Hinv4 Hy2x) as Ha'.
    assert (Hinv5 : lo_inv a' (y2 :: b2')) by by apply (lo_inv_drop [x] _ []).
    destruct (is_single a') eqn:Hs.
    { apply is_single_true in Hs as [z' ->]. by rewrite (lo_inv_single _ _ Hinv5). }
    assert (Hlen : (length a' + length (y2 :: b2') <= fuel)%nat).
    { apply (f_equal length) in Hsplit, Hsplit'.
      rewrite length_app in Hsplit, Hsplit'. simpl in *. lia. }
    destruct (_ || _); [by apply IHg|by apply IHp].
Qed.

Lemma merge_lo_smerge mg a b :
  lo_inv a b -> b <> [] ->
  (forall x y, head a = Some x -> head b = Some y -> lt y x = true) ->
  fst (merge_lo lt mg a b) = smerge a b.
Proof.
  intros Hinv Hb Hhd. unfold merge_lo.
  destruct b as [|y b']; [done|].
  pose proof (lo_inv_nonempty _ _ Hinv ltac:(done)) as Ha.
  destruct a as [|x a']; [done|].
  rewrite fst_cons_fst, smerge_cons, (Hhd x y) by done. f_equal.
  assert (Hinv' : lo_inv (x :: a') b') by by apply (lo_inv_drop [] _ [y]).
  destruct (is_nil b') eqn:Hb'.
  { by apply is_nil_true in Hb' as ->. }
  destruct (is_single (x :: a')) eqn:Hs.
  { apply is_single_true in Hs as [z Hz]. rewrite Hz in *.
    by rewrite (lo_inv_single _ _ Hinv'). }
  by apply lo_loops_smerge.
Qed.

(** *** [merge_hi] is the reference merge *)

Lemma smerge_snoc_a x a : forall b,
  Forall (fun v => lt v x = true) b -> smerge (a ++ [x]) b = smerge a b ++ [x].
Proof.
  induction a as [|u a IHa]; intros b Hb; [by apply smerge_last|].
  induction Hb as [|v b Hv Hb IHb]; [done|].
  rewrite <- app_comm_cons, !smerge_cons.
  destruct (lt v u); rewrite <- app_comm_cons; f_equal.
  - exact IHb.
  - apply IHa. by constructor.
Qed.

Lemma smerge_app_a a2 : forall a b,
  Forall (fun x => Forall (fun v => lt v x = true) b) a2 ->
  smerge (a ++ a2) b = smerge a b ++ a2.
Proof.
  induction a2 as [|x a2 IH]; intros a b Hall.
  { by rewrite !app_nil_r. }
  apply Forall_cons in Hall as [Hx Hall].
  rewrite (cons_middle x a a2), app_assoc, IH by done.
  by rewrite smerge_snoc_a, <- app_assoc.
Qed.

Lemma smerge_snoc_b a y : forall b,
  Forall (fun u => lt y u = false) a -> smerge a (b ++ [y]) = smerge a b ++ [y].
Proof.
  induction a as [|u a IHa]; intros b Ha; [done|].
  apply Forall_cons in Ha as [Hu Ha].
  induction b as [|v b IHb].
  - pose proof (IHa [] Ha) as E. rewrite smerge_nil_r in E.
    change ([] ++ [y]) with [y] in *. by rewrite smerge_cons, Hu, E.
  - rewrite <- app_comm_cons, !smerge_cons.
    destruct (lt v u); rewrite <- app_comm_cons; f_equal.
    + apply IHb.
    + rewrite app_comm_cons. by apply IHa.
Qed.

Lemma smerge_app_b b2 : forall a b,
  Forall (fun v => Forall (fun u => lt v u = false) a) b2 ->
  smerge a (b ++ b2) = smerge a b ++ b2.
Proof.
  induction b2 as [|y b2 IH]; intros a b Hall.
  { by rewrite !app_nil_r. }
  apply Forall_cons in Hall as [Hy Hall].
  rewrite (cons_middle y b b2), app_assoc, IH by done.
  by rewrite smerge_snoc_b, <- app_assoc.
Qed.

Lemma smerge_first w a :
  Forall (fun u => lt w u = true) a -> smerge a [w] = w :: a.
Proof.
  destruct 1 as [|u a Hu _]; [done|]. by rewrite smerge_cons, Hu.
Qed.

Lemma Asc_snoc l y : Asc (l ++ [y]) -> Forall (fun v => lt y v = false) l.
Proof.
  induction l as [|v l IH]; [done|]. simpl. intros H.
  apply StronglySorted_inv in H as [H Hall]. constructor; [|by apply IH].
  rewrite Forall_app, Forall_singleton in Hall. by destruct Hall.
Qed.

Lemma Forall_snoc (P : A -> Prop) l x : Forall P (l ++ [x]) -> Forall P l /\ P x.
Proof. rewrite Forall_app, Forall_singleton. tauto. Qed.

Lemma hi_inv_take a1 a2 b1 b2 :
  hi_inv (a1 ++ a2) (b1 ++ b2) -> (a1 <> [] -> b1 <> []) -> hi_inv a1 b1.
Proof.
  intros (Ha & Hb & Ga & Gb & Hhead) Hne.
  apply Asc_app_inv in Ha as [Ha _]. apply Asc_app_inv in Hb as [Hb _].
  apply Forall_app in Ga as [Ga _]. apply Forall_app in Gb as [Gb _].
  do 4 (split; [done|]). intros Ha1.
  destruct Hhead as (w & Hw & Hall); [by destruct a1|].
  exists w. split.
  - rewrite head_app in Hw. destruct (head b1) eqn:E; [done|].
    apply head_None in E. by apply Hne in Ha1.
  - by apply Forall_app in Hall as [? _].
Qed.

Lemma hi_inv_take_a a1 a2 b :
  hi_inv (a1 ++ a2) b -> (a1 <> [] -> b <> []) -> hi_inv a1 b.
Proof.
  intros H Hne. apply (hi_inv_take a1 a2 b []); by rewrite ?app_nil_r.
Qed.

Lemma hi_inv_take_b a b1 b2 :
  hi_inv a (b1 ++ b2) -> (a <> [] -> b1 <> []) -> hi_inv a b1.
Proof.
  intros H Hne. apply (hi_inv_take a [] b1 b2); by rewrite ?app_nil_r.
Qed.

Lemma hi_inv_nonempty a b : hi_inv a b -> a <> [] -> b <> [].
Proof.
  intros (_ & _ & _ & _ & Hhead) Ha. destruct (Hhead Ha) as (w & Hw & _).
  by intros ->.
Qed.

Lemma hi_inv_single a w : hi_inv a [w] -> smerge a [w] = w :: a.
Proof.
  intros (_ & _ & _ & _ & Hhead). destruct a as [|x a]; [done|].
  destruct Hhead as (w' & [= <-] & Hall); [done|]. by apply smerge_first.
Qed.

Lemma reverse_nonempty (l : list A) : l <> [] -> reverse l <> [].
Proof.
  intros Hl E. apply (f_equal reverse) in E.
  by rewrite reverse_involutive in E.
Qed.

Lemma rev_split (l : list A) (kk : Z) :
  0 <= kk <= len l ->
  reverse (take (Z.to_nat (len l - kk)) l) = drop (Z.to_nat kk) (reverse l) /\
  reverse (drop (Z.to_nat (len l - kk)) l) = take (Z.to_nat kk) (reverse l).
Proof.
  unfold len. intros Hk. rewrite reverse_take, reverse_drop.
  by replace (length l - Z.to_nat (Z.of_nat (length l) - kk))%nat
    with (Z.to_nat kk) by lia.
Qed.

Lemma hi_loops_smerge fuel :
  (forall mg acount bcount ra rb,
     hi_inv (reverse ra) (reverse rb) -> ra <> [] ->
     (length ra + length rb <= fuel)%nat ->
     reverse (fst (hi_pair lt fuel mg acount bcount ra rb))
     = smerge (reverse ra) (reverse rb)) /\
  (forall mg ra rb,
     hi_inv (reverse ra) (reverse rb) -> ra <> [] ->
     (length ra + length rb <= fuel)%nat ->
     reverse (fst (hi_gallop lt fuel mg ra rb))
     = smerge (reverse ra) (reverse rb)).
Proof.
  induction fuel as [|fuel [IHp IHg]].
  { split; intros; destruct ra, rb; simpl in *; try lia; done. }
  split.
  - intros mg acount bcount ra rb Hinv Hra Hfuel. simpl.
    destruct ra as [|x ra']; [done|].
    destruct rb as [|y rb'].
    { by rewrite reverse_nil, smerge_nil_r. }
    rewrite !reverse_cons in Hinv |- *.
    pose proof Hinv as (Hasc & Hbsc & Ga & Gb & Hhead).
    assert (Gx : G x).
    { by apply Forall_snoc in Ga as [_ ?]. }
    assert (Gy : G y).
    { by apply Forall_snoc in Gb as [_ ?]. }
    destruct (lt y x) eqn:Hyx; rewrite fst_cons_fst, reverse_cons.
    + rewrite smerge_snoc_a.
      2:{ rewrite Forall_app, Forall_singleton. split; [|done].
          pose proof (Asc_snoc _ _ Hbsc) as Hle.
          apply Forall_app in Gb as [Gb _].
          rewrite Forall_forall in Hle, Gb |- *. intros v Hv.
          apply (le_lt_trans v y x); auto. }
      f_equal.
      destruct (is_nil ra') eqn:Hn.
      { apply is_nil_true in Hn as ->. simpl fst.
        by rewrite reverse_cons, reverse_nil. }
      apply is_nil_false in Hn.
      assert (Hinv' : hi_inv (reverse ra') (reverse rb' ++ [y])).
      { apply (hi_inv_take_a _ [x]); [done|].
        intros _. by destruct (reverse rb'). }
      simpl in Hfuel. rewrite <- reverse_cons.
      destruct (mg <=? acount + 1); [apply IHg|apply IHp];
        rewrite ?reverse_cons; simpl; try done; lia.
    + rewrite smerge_snoc_b.
      2:{ rewrite Forall_app, Forall_singleton. split; [|done].
          pose proof (Asc_snoc _ _ Hasc) as Hle.
          apply Forall_app in Ga as [Ga _].
          rewrite Forall_forall in Hle, Ga |- *. intros u Hu.
          apply (lt_neg_trans y x u); auto. }
      f_equal.
      assert (Hrb' : reverse rb' <> []).
      { intros E. rewrite E in Hhead. simpl in Hhead.
        destruct Hhead as (w & [= <-] & Hall); [by destruct (reverse ra')|].
        rewrite Forall_app, Forall_singleton in Hall. destruct Hall. congruence. }
      assert (Hinv' : hi_inv (reverse ra' ++ [x]) (reverse rb')).
      { by apply (hi_inv_take_b _ _ [y]). }
      destruct (is_single rb') eqn:Hs.
      { apply is_single_true in Hs as [w ->].
        change (reverse [w]) with [w] in *. simpl fst.
        rewrite (hi_inv_single _ _ Hinv'), <- reverse_cons.
        exact (reverse_app (x :: ra') [w]). }
      simpl in Hfuel. rewrite <- reverse_cons.
      destruct (mg <=? bcount + 1); [apply IHg|apply IHp];
        rewrite ?reverse_cons; simpl; try done; lia.
  - intros mg ra rb Hinv Hra Hfuel. simpl.
    destruct rb as [|y rb'].
    { by rewrite reverse_nil, smerge_nil_r. }
    rewrite reverse_cons in Hinv |- *.
    pose proof (reverse_nonempty _ Hra) as Ha.
    pose proof Hinv as (Hasc & Hbsc & Ga & Gb & Hhead).
    assert (Gy : G y).
    { by apply Forall_snoc in Gb as [_ ?]. }
    assert (Hhint : 0 <= len ra - 1 < len (reverse ra)).
    { unfold len. rewrite length_reverse. destruct ra; simpl in *; [done|lia]. }
    destruct (gallop_right_split y (reverse ra) (len ra - 1) Hasc Ga Gy Hhint)
      as (Hk & Hle & Hgt).
    set (kk := gallop_right lt y (reverse ra) (len ra - 1)) in *.
    destruct (rev_split ra kk) as [Hr1 Hr2].
    { unfold len in *. by rewrite length_reverse in Hk. }
    set (k := len ra - kk) in *.
    pose proof (take_drop (Z.to_nat kk) (reverse ra)) as Hsplit.
    set (ra1 := take (Z.to_nat k) ra) in *.
    set (ra2 := drop (Z.to_nat k) ra) in *.
    rewrite fst_app_fst, reverse_app, Hr1.
    replace (smerge (reverse ra) (reverse rb' ++ [y]))
      with (smerge (take (Z.to_nat kk) (reverse ra)
                    ++ drop (Z.to_nat kk) (reverse ra)) (reverse rb' ++ [y]))
      by (by rewrite Hsplit).
    rewrite smerge_app_a.
    2:{ pose proof (Asc_snoc _ _ Hbsc) as Hb'.
        assert (Ga2 : Forall G (drop (Z.to_nat kk) (reverse ra))).
        { rewrite <- Hsplit in Ga. by apply Forall_app in Ga as [_ ?]. }
        rewrite Forall_forall in Hgt, Ga2 |- *. intros u Hu.
        rewrite Forall_app, Forall_singleton. split; [|by apply Hgt].
        apply Forall_app in Gb as [Gb _].
        rewrite Forall_forall in Hb', Gb |- *. intros v Hv.
        apply (le_lt_trans v y u); auto. }
    f_equal. rewrite <- Hr2 in *.
    assert (Hinv2 : hi_inv (reverse ra2) (reverse rb' ++ [y])).
    { apply (hi_inv_take_a _ (drop (Z.to_nat kk) (reverse ra))).
      - by rewrite Hsplit.
      - intros _. by destruct (reverse rb'). }
    destruct (negb (k =? 0) && is_nil ra2) eqn:E1.
    { apply andb_true_iff in E1 as [_ ->%is_nil_true]. simpl fst.
      by rewrite reverse_cons, reverse_nil. }
    assert (Hra2 : ra2 <> []).
    { intros E. rewrite E in E1. simpl in E1. rewrite andb_true_r in E1.
      apply negb_false_iff, Z.eqb_eq in E1. unfold ra2 in E.
      rewrite E1 in E. simpl in E. done. }
    clear E1.
    rewrite fst_cons_fst, reverse_cons.
    rewrite smerge_snoc_b by done. f_equal.
    assert (Hrb' : reverse rb' <> []).
    { intros E. destruct Hinv2 as (_ & _ & _ & _ & Hh2). rewrite E in Hh2.
      destruct Hh2 as (w & [= <-] & Hall); [by apply reverse_nonempty|].
      destruct (reverse ra2) as [|u l] eqn:Eu.
      { by apply (reverse_nonempty _ Hra2). }
      apply Forall_cons in Hall as [Hall _]. apply Forall_cons in Hle as [Hle _].
      congruence. }
    assert (Hinv3 : hi_inv (reverse ra2) (reverse rb')).
    { by apply (hi_inv_take_b _ _ [y]). }
    destruct (is_single rb') eqn:Hs.
    { apply is_single_true in Hs as [w Hw]. rewrite Hw in *.
      change (reverse [w]) with [w] in *. simpl fst.
      by rewrite (hi_inv_single _ _ Hinv3), reverse_app. }
    destruct ra2 as [|x ra'] eqn:Era2; [done|].
    rewrite reverse_cons in *.
    pose proof Hinv3 as (Hasc3 & Hbsc3 & Ga3 & Gb3 & Hhead3).
    assert (Gx : G x).
    { by apply Forall_snoc in Ga3 as [_ ?]. }
    assert (Hhint' : 0 <= len rb' - 1 < len (reverse rb')).
    { unfold len. rewrite length_reverse.
      destruct rb'; simpl in *; [done|lia]. }
    destruct (gallop_left_split x (reverse rb') (len rb' - 1) Hbsc3 Gb3 Gx Hhint')
      as (Hk' & Hlt' & Hge').
    set (kk' := gallop_left lt x (reverse rb') (len rb' - 1)) in *.
    destruct (rev_split rb' kk') as [Hr1' Hr2'].
    { unfold len in *. by rewrite length_reverse in Hk'. }
    set (k' := len rb' - kk') in *.
    pose proof (take_drop (Z.to_nat kk') (reverse rb')) as Hsplit'.
    set (rb1 := take (Z.to_nat k') rb') in *.
    set (rb2 := drop (Z.to_nat k') rb') in *.
    rewrite fst_app_fst, reverse_app, Hr1'.
    replace (smerge (reverse ra' ++ [x]) (reverse rb'))
      with (smerge (reverse ra' ++ [x])
              (take (Z.to_nat kk') (reverse rb')
               ++ drop (Z.to_nat kk') (reverse rb')))
      by (by rewrite Hsplit').
    rewrite smerge_app_b.
    2:{ pose proof (Asc_snoc _ _ Hasc3) as Ha'.
        assert (Gb2 : Forall G (drop (Z.to_nat kk') (reverse rb'))).
        { rewrite <- Hsplit' in Gb3. by apply Forall_app in Gb3 as [_ ?]. }
        rewrite Forall_forall in Hge', Gb2 |- *. intros v Hv.
        rewrite Forall_app, Forall_singleton. split; [|by apply Hge'].
        apply Forall_app in Ga3 as [Ga3 _].
        rewrite Forall_forall in Ha', Ga3 |- *. intros u Hu.
        apply (lt_neg_trans v x u); auto. }
    f_equal. rewrite <- Hr2' in *.
    assert (Hrb2 : reverse rb2 <> []).
    { intros E. destruct Hhead3 as (w & Hw & Hall); [by destruct (reverse ra')|].
      apply Forall_snoc in Hall as [_ Hwx].
      rewrite E in Hsplit'. simpl in Hsplit'. rewrite Hsplit' in Hge'.
      destruct (reverse rb') as [|w' l]; [done|]. injection Hw as ->.
      apply Forall_cons in Hge' as [? _]. congruence. }
    assert (Hinv4 : hi_inv (reverse ra' ++ [x]) (reverse rb2)).
    { apply (hi_inv_take_b _ _ (drop (Z.to_nat kk') (reverse rb'))).
      - by rewrite Hsplit'.
      - done. }
    destruct (negb (k' =? 0) && is_single rb2) eqn:E3.
    { apply andb_true_iff in E3 as [_ [w Hw]%is_single_true]. rewrite Hw in *.
      change (reverse [w]) with [w] in *. simpl fst.
      rewrite (hi_inv_single _ _ Hinv4), <- reverse_cons.
      exact (reverse_app (x :: ra') [w]). }
    destruct (negb (k' =? 0) && is_nil rb2) eqn:E4.
    { apply andb_true_iff in E4 as [_ E4%is_nil_true]. by rewrite E4 in Hrb2. }
    clear E3 E4.
    rewrite fst_cons_fst, reverse_cons, smerge_snoc_a by done. f_equal.
    destruct (is_nil ra') eqn:Hn.
    { apply is_nil_true in Hn as ->. simpl fst. by rewrite reverse_nil. }
    apply is_nil_false in Hn.
    assert (Hinv5 : hi_inv (reverse ra') (reverse rb2)).
    { by apply (hi_inv_take_a _ [x]). }
    assert (Hlen : (length ra' + length rb2 <= fuel)%nat).
    { apply (f_equal length) in Era2. unfold ra2, rb2 in *.
      rewrite length_drop in *. simpl in *. lia. }
    destruct (_ || _); [by apply IHg|by apply IHp].
Qed.

Lemma merge_hi_smerge mg a b :
  hi_inv a b -> a <> [] ->
  (forall x, last a = Some x -> Forall (fun v => lt v x = true) b) ->
  fst (merge_hi lt mg a b) = smerge a b.
Proof.
  intros Hinv Ha Hlast. unfold merge_hi.
  destruct (reverse a) as [|x ra'] eqn:Era.
  { by apply reverse_nonempty in Ha. }
  assert (Ea : a = reverse ra' ++ [x]).
  { by rewrite <- reverse_cons, <- Era, reverse_involutive. }
  simpl fst. rewrite reverse_cons.
  assert (Hx : Forall (fun v => lt v x = true) b).
  { apply Hlast. by rewrite Ea, last_snoc. }
  rewrite Ea in *. rewrite smerge_snoc_a by done. f_equal.
  destruct (is_nil ra') eqn:Hn.
  { apply is_nil_true in Hn as ->. simpl fst.
    by rewrite reverse_involutive, reverse_nil. }
  apply is_nil_false in Hn.
  assert (Hb : b <> []).
  { by apply (hi_inv_nonempty _ _ Hinv). }
  assert (Hinv' : hi_inv (reverse ra') b).
  { by apply (hi_inv_take_a _ [x]). }
  destruct (is_single (reverse b)) eqn:Hs.
  { apply is_single_true in Hs as [w Hw].
    assert (Eb : b = [w]).
    { by rewrite <- (reverse_involutive b), Hw. }
    rewrite Eb in *. simpl fst. rewrite reverse_app, reverse_involutive.
    change (reverse [w]) with [w].
    by rewrite (hi_inv_single _ _ Hinv'). }
  pose proof (proj1 (hi_loops_smerge (length ra' + length (reverse b)))
                mg 0 0 ra' (reverse b)) as H.
  rewrite reverse_involutive in H. by apply H.
Qed.



(** *** [merge_at] is the reference merge *)

Lemma lt_irrefl x : lt x x = false.
Proof. destruct (lt x x) eqn:E; [|done]. by rewrite (lt_asym _ _ E) in E. Qed.

Lemma Asc_last a z :
  Asc a -> last a = Some z -> Forall (fun u => lt z u = false) a.
Proof.
  intros Ha Hz. apply last_Some in Hz as [l ->].
  rewrite Forall_app, Forall_singleton. split; [by apply Asc_snoc|].
  apply lt_irrefl.
Qed.

Lemma merge_at_smerge mg a b :
  Asc a -> Asc b -> Forall G a -> Forall G b -> a <> [] ->
  fst (merge_at lt mg a b) = smerge a b.
Proof.
  intros Ha Hb Ga Gb Hne. unfold merge_at.
  destruct b as [|y b0]; [by rewrite smerge_nil_r|]. cbv zeta.
  assert (Gy : G y) by (by apply Forall_cons in Gb as [? _]).
  destruct (gallop_right_split y a 0 Ha Ga Gy (len_pos _ Hne))
    as (Hk & Hle & Hgt).
  set (k := gallop_right lt y a 0) in *.
  pose proof (take_drop (Z.to_nat k) a) as Hsplit.
  set (a1 := take (Z.to_nat k) a) in *. set (a2 := drop (Z.to_nat k) a) in *.
  assert (Ha2 : Asc a2).
  { rewrite <- Hsplit in Ha. by apply Asc_app_inv in Ha as [_ ?]. }
  assert (Ga2 : Forall G a2).
  { rewrite <- Hsplit in Ga. by apply Forall_app in Ga as [_ ?]. }
  replace (smerge a (y :: b0)) with (smerge (a1 ++ a2) (y :: b0))
    by (by rewrite Hsplit).
  rewrite smerge_take_a by done.
  destruct (last a2) as [z|] eqn:Hz.
  2:{ apply last_None in Hz. rewrite Hz in *. simpl fst.
      by rewrite <- Hsplit, app_nil_r. }
  assert (Gz : G z).
  { rewrite Forall_forall in Ga2. by apply Ga2, last_Some_elem_of. }
  assert (Hblen : 0 <= len (y :: b0) - 1 < len (y :: b0)).
  { unfold len. simpl. lia. }
  destruct (gallop_left_split z (y :: b0) _ Hb Gb Gz Hblen) as (Hnb & Hlt & Hge).
  set (nb := gallop_left lt z (y :: b0) (len (y :: b0) - 1)) in *.
  pose proof (Asc_last _ _ Ha2 Hz) as Hz'.
  assert (Hyz : lt y z = true).
  { destruct a2 as [|x a2']; [done|].
    apply Forall_cons in Hgt as [Hyx _]. apply Forall_cons in Hz' as [Hzx _].
    apply Forall_cons in Ga2 as [Gx _].
    by apply (lt_le_trans y x z). }
  destruct (nb <=? 0) eqn:Enb.
  { exfalso. apply Z.leb_le in Enb. assert (E : nb = 0) by lia.
    rewrite E in Hge. simpl in Hge. apply Forall_cons in Hge as [Hge _].
    congruence. }
  apply Z.leb_gt in Enb.
  pose proof (take_drop (Z.to_nat nb) (y :: b0)) as Hsplitb.
  set (b1 := take (Z.to_nat nb) (y :: b0)) in *.
  set (b2 := drop (Z.to_nat nb) (y :: b0)) in *.
  assert (Hb1 : head b1 = Some y).
  { unfold b1. destruct (Z.to_nat nb) eqn:E; [lia|]. done. }
  assert (Hb1' : b1 <> []) by (by intros E; rewrite E in Hb1).
  assert (Hb1a : Asc b1).
  { rewrite <- Hsplitb in Hb. by apply Asc_app_inv in Hb as [? _]. }
  assert (Gb1 : Forall G b1).
  { rewrite <- Hsplitb in Gb. by apply Forall_app in Gb as [? _]. }
  simpl fst. f_equal.
  replace (smerge a2 (y :: b0)) with (smerge a2 (b1 ++ b2))
    by (by rewrite Hsplitb).
  rewrite smerge_app_b.
  2:{ assert (Gb2 : Forall G b2).
      { rewrite <- Hsplitb in Gb. by apply Forall_app in Gb as [_ ?]. }
      rewrite Forall_forall in Hge, Gb2 |- *. intros v Hv.
      rewrite Forall_forall in Hz', Ga2 |- *. intros u Hu.
      apply (lt_neg_trans v z u); auto. }
  f_equal.
  assert (Ha2' : a2 <> []) by (by intros E; rewrite E in Hz).
  destruct (len a2 <=? len b1).
  - apply merge_lo_smerge; [|done|].
    + do 4 (split; [done|]). intros _. by exists z.
    + intros x y' Hx Hy'. rewrite Hb1 in Hy'. injection Hy' as <-.
      destruct a2 as [|x' a2']; [done|]. injection Hx as ->.
      by apply Forall_cons in Hgt as [? _].
  - apply merge_hi_smerge; [|done|].
    + do 4 (split; [done|]). intros _. by exists y.
    + intros x Hx. rewrite Hz in Hx. by injection Hx as <-.
Qed.

(** *** What the reference merge does *)

Lemma smerge_Permutation a : forall b, smerge a b ≡ₚ a ++ b.
Proof.
  induction a as [|x a IHa]; intros b; [done|].
  induction b as [|y b IHb]; [by rewrite app_nil_r|].
  rewrite smerge_cons. destruct (lt y x).
  - rewrite IHb. solve_Permutation.
  - rewrite IHa. solve_Permutation.
Qed.

Lemma smerge_Asc a : forall b,
  Asc a -> Asc b -> Forall G a -> Forall G b -> Asc (smerge a b).
Proof.
  induction a as [|x a IHa]; intros b Ha Hb Ga Gb; [done|].
  induction Hb as [|y b Hb IHb Hy]; [done|].
  apply StronglySorted_inv in Ha as [Ha Hx].
  apply Forall_cons in Ga as [Gx Ga]. apply Forall_cons in Gb as [Gy Gb].
  rewrite smerge_cons. destruct (lt y x) eqn:Hyx.
  - constructor; [by apply IHb|].
    rewrite smerge_Permutation, Forall_app. split; [|done].
    constructor; [by apply lt_asym|].
    rewrite Forall_forall in Hx, Ga |- *. intros u Hu.
    apply (lt_neg_trans u x y); auto.
  - constructor.
    { apply IHa; [done|by constructor|done|by constructor]. }
    rewrite smerge_Permutation, Forall_app. split; [done|].
    constructor; [done|].
    rewrite Forall_forall in Hy, Gb |- *. intros v Hv.
    apply (lt_neg_trans v y x); auto.
Qed.

(** *** Stability, class by class *)

Section Class.
Variable C : A -> Prop.
Context `{!forall x, Decision (C x)}.
Hypothesis C_flat : forall x y, C x -> C y -> lt x y = false.

Lemma filter_above x l :
  C x -> Forall (fun u => lt x u = true) l -> filter C l = [].
Proof.
  intros Hx. induction 1 as [|u l Hu _ IH]; [done|].
  rewrite filter_cons, IH. destruct (decide (C u)) as [Hcu|]; [|done].
  by rewrite (C_flat x u Hx Hcu) in Hu.
Qed.

Lemma filter_below x l :
  C x -> Forall (fun u => lt u x = true) l -> filter C l = [].
Proof.
  intros Hx. induction 1 as [|u l Hu _ IH]; [done|].
  rewrite filter_cons, IH. destruct (decide (C u)) as [Hcu|]; [|done].
  by rewrite (C_flat u x Hcu Hx) in Hu.
Qed.

Lemma smerge_filter a : forall b,
  Asc a -> Forall G a -> Forall G b ->
  filter C (smerge a b) = filter C a ++ filter C b.
Proof.
  induction a as [|x a IHa]; intros b Ha Ga Gb; [done|].
  induction b as [|y b IHb]; [by rewrite smerge_nil_r, app_nil_r|].
  pose proof Ha as [Ha' Hx]%StronglySorted_inv.
  pose proof Ga as [Gx Ga']%Forall_cons. apply Forall_cons in Gb as [Gy Gb].
  rewrite smerge_cons. destruct (lt y x) eqn:Hyx.
  - rewrite filter_cons, IHb by done.
    rewrite (filter_cons _ y b). destruct (decide (C y)) as [Hcy|]; [|done].
    rewrite (filter_above y (x :: a)); [done|done|].
    constructor; [done|].
    rewrite Forall_forall in Hx, Ga' |- *. intros u Hu.
    apply (lt_le_trans y x u); auto.
  - rewrite filter_cons, IHa by (done || by constructor).
    rewrite (filter_cons _ x a). by destruct (decide (C x)).
Qed.

(** *** Runs *)

Lemma run_desc_spec l : forall prev n,
  Desc (prev :: take (run_desc lt prev l n - n) l).
Proof.
  induction l as [|x l IH]; intros prev n; simpl.
  { rewrite take_nil. repeat constructor. }
  destruct (lt x prev) eqn:E.
  - pose proof (run_desc_bounds lt l x (S n)) as Hb.
    replace (run_desc lt x l (S n) - n)%nat
      with (S (run_desc lt x l (S n) - S n)) by lia.
    simpl. specialize (IH x (S n)). constructor; [done|].
    constructor; [done|]. apply StronglySorted_inv in IH as [_ IH].
    eapply Forall_impl; [exact IH|]. intros v Hv. simpl in *.
    by apply (lt_trans v x prev).
  - rewrite Nat.sub_diag. simpl. repeat constructor.
Qed.

Lemma run_asc_spec l : forall prev n,
  G prev -> Forall G l ->
  Asc (prev :: take (run_asc lt prev l n - n) l).
Proof.
  induction l as [|x l IH]; intros prev n Gp Gl; simpl.
  { rewrite take_nil. repeat constructor. }
  apply Forall_cons in Gl as [Gx Gl].
  destruct (lt x prev) eqn:E.
  - rewrite Nat.sub_diag. simpl. repeat constructor.
  - pose proof (run_asc_bounds lt l x (S n)) as Hb.
    replace (run_asc lt x l (S n) - n)%nat
      with (S (run_asc lt x l (S n) - S n)) by lia.
    simpl. specialize (IH x (S n) Gx Gl). constructor; [done|].
    constructor; [done|]. pose proof IH as [_ IH']%StronglySorted_inv.
    assert (Gt : Forall G (take (run_asc lt x l (S n) - S n) l))
      by by apply Forall_take.
    rewrite Forall_forall in IH', Gt |- *. intros v Hv.
    apply (lt_neg_trans v x prev); auto.
Qed.

Lemma count_run_spec l :
  Forall G l ->
  if snd (count_run lt l) then Desc (take (fst (count_run lt l)) l)
  else Asc (take (fst (count_run lt l)) l).
Proof.
  intros Gl. destruct l as [|x [|y l']]; [constructor|repeat constructor|].
  apply Forall_cons in Gl as [Gx Gl]. pose proof Gl as [Gy Gl']%Forall_cons.
  unfold count_run. destruct (lt y x) eqn:E; simpl snd; simpl fst.
  - pose proof (run_desc_bounds lt l' y 2) as Hb.
    pose proof (run_desc_spec l' y 2) as Hd.
    destruct (run_desc lt y l' 2) as [|[|n]]; [lia|lia|].
    simpl in *. rewrite Nat.sub_0_r in Hd.
    constructor; [done|]. constructor; [done|].
    apply StronglySorted_inv in Hd as [_ Hd].
    eapply Forall_impl; [exact Hd|]. intros v Hv. simpl in *.
    by apply (lt_trans v y x).
  - pose proof (run_asc_bounds lt l' y 2) as Hb.
    pose proof (run_asc_spec l' y 2 Gy Gl') as Hd.
    destruct (run_asc lt y l' 2) as [|[|n]]; [lia|lia|].
    simpl in *. rewrite Nat.sub_0_r in Hd.
    constructor; [done|]. constructor; [done|].
    pose proof Hd as [_ Hd']%StronglySorted_inv.
    assert (Gt : Forall G (take n l')) by by apply Forall_take.
    rewrite Forall_forall in Hd', Gt |- *. intros v Hv.
    apply (lt_neg_trans v y x); auto.
Qed.

Lemma Desc_reverse l : Desc l -> Asc (reverse l).
Proof.
  induction 1 as [|x l Hl IH Hx]; [constructor|].
  rewrite reverse_cons. apply StronglySorted_app_2; [|done|repeat constructor].
  intros u v Hu ->%list_elem_of_singleton.
  rewrite elem_of_reverse in Hu. rewrite Forall_forall in Hx.
  by apply lt_asym, Hx.
Qed.

Lemma Desc_filter l : Desc l -> filter C (reverse l) = filter C l.
Proof.
  intros Hl. rewrite filter_reverse.
  assert (Hshort : (length (filter C l) <= 1)%nat).
  { induction Hl as [|x l Hl IH Hx]; [simpl; lia|].
    rewrite filter_cons. destruct (decide (C x)) as [Hcx|]; [|done].
    rewrite (filter_below x l) by done. simpl. lia. }
  by destruct (filter C l) as [|? [|]]; simpl in *; [| |lia].
Qed.

(** *** Binary insertion *)

Lemma binary_insert_smerge run pivot :
  Asc run -> Forall G run -> G pivot ->
  binary_insert lt run pivot = smerge run [pivot].
Proof.
  intros Ha Ga Gp. unfold binary_insert. cbv zeta.
  destruct (decide (run = [])) as [->|Hne]; [done|].
  pose proof (len_pos _ Hne) as Hlen.
  destruct (bisect_spec (length run) (at_ run (fun x => lt pivot x))
              0 (len run) (len run)) as (Hk & Hlo & Hhi);
    [lia|lia|lia|lia|unfold len; lia|].
  destruct (threshold_split (fun x => lt pivot x) run _ Hk Hlo Hhi)
    as [Hle Hgt].
  { intros i j x y Hij Hx Hy.
    assert (Gx : G x) by (eapply Forall_lookup_1; eauto).
    assert (Gy : G y) by (eapply Forall_lookup_1; eauto).
    destruct (Asc_lookup run i j x y Ha) as [?|Hle]; [lia|done|done|lia|].
    split.
    - intros Hky. by apply (lt_neg_trans pivot y x).
    - intros Hkx. by apply (lt_le_trans pivot x y). }
  set (k := bisect _ _ _ _) in *.
  rewrite <- (take_drop (Z.to_nat k) run) at 3.
  by rewrite smerge_take_a, smerge_first.
Qed.

Lemma binarysort_spec rest : forall run,
  Asc run -> Forall G run -> Forall G rest ->
  Asc (binarysort lt run rest) /\
  filter C (binarysort lt run rest) = filter C (run ++ rest).
Proof.
  unfold binarysort.
  induction rest as [|x rest IH]; intros run Ha Ga Gr; simpl.
  { by rewrite app_nil_r. }
  apply Forall_cons in Gr as [Gx Gr].
  rewrite binary_insert_smerge by done.
  destruct (IH (smerge run [x])) as [H1 H2].
  - apply smerge_Asc; [done|repeat constructor|done|by constructor].
  - rewrite smerge_Permutation, Forall_app. split; [done|by constructor].
  - done.
  - split; [done|].
    rewrite H2, !filter_app, smerge_filter; [|done|done|by constructor].
    by rewrite <- app_assoc, <- filter_app.
Qed.

Lemma next_run_spec minrun rest :
  rest <> [] -> Forall G rest ->
  Asc (fst (next_run lt minrun rest)) /\
  filter C (fst (next_run lt minrun rest))
  = filter C (take (snd (next_run lt minrun rest)) rest).
Proof.
  intros Hrest Gr. unfold next_run.
  pose proof (count_run_bounds lt rest Hrest) as Hcnt.
  pose proof (count_run_spec rest Gr) as Hrun.
  destruct (count_run lt rest) as [cnt desc]. simpl in Hcnt, Hrun. cbv zeta.
  set (run := if desc then reverse (take cnt rest) else take cnt rest).
  assert (Hr : Asc run /\ Forall G run /\ filter C run = filter C (take cnt rest)).
  { subst run. destruct desc.
    - split; [by apply Desc_reverse|]. split; [|by apply Desc_filter].
      by apply Forall_reverse, Forall_take.
    - split; [done|]. split; [by apply Forall_take|done]. }
  destruct Hr as (Hasc & Grun & Hfil). clearbody run.
  destruct (Z.of_nat cnt <? minrun) eqn:Hshort; simpl; [|done].
  apply Z.ltb_lt in Hshort. unfold len in *.
  set (force := Z.to_nat _).
  assert (Hforce : (cnt <= force <= length rest)%nat).
  { subst force. destruct (_ <=? _) eqn:E; [|apply Z.leb_gt in E]; lia. }
  destruct (binarysort_spec (take (force - cnt) (drop cnt rest)) run)
    as [H1 H2]; [done|done|by apply Forall_take, Forall_drop|].
  split; [done|].
  rewrite H2, filter_app, Hfil, <- filter_app, take_take_drop.
  by replace (cnt + (force - cnt))%nat with force by lia.
Qed.

(** *** The pending runs *)

Lemma merge_at_ok mg a b pa pb power :
  run_ok (a, pa) -> run_ok (b, pb) ->
  run_ok (fst (merge_at lt mg a b), power) /\
  filter C (fst (merge_at lt mg a b)) = filter C a ++ filter C b.
Proof.
  intros (Ha & Ga & Hna) (Hb & Gb & Hnb). simpl in *.
  rewrite merge_at_smerge by done.
  split; [|by apply smerge_filter].
  split; [by apply smerge_Asc|]. simpl. split.
  - rewrite smerge_Permutation, Forall_app. by split.
  - intros E. pose proof (smerge_Permutation a b) as HP. rewrite E in HP.
    apply Permutation_nil_l in HP. by destruct a.
Qed.

Lemma collapse_above_spec fuel power : forall mg p,
  Forall run_ok p ->
  Forall run_ok (fst (collapse_above lt fuel power mg p)) /\
  filter C (flat (fst (collapse_above lt fuel power mg p)))
  = filter C (flat p).
Proof.
  induction fuel as [|fuel IH]; intros mg p Hp; simpl; [done|].
  destruct p as [|[b pb] [|[a pa] rest]]; try done.
  destruct (power <? pa); [|done].
  apply Forall_cons in Hp as [Hb Hp]. apply Forall_cons in Hp as [Ha Hp].
  destruct (merge_at_ok mg a b pa pb pa Ha Hb) as [Hok Hfil].
  destruct (IH (snd (merge_at lt mg a b))
              ((fst (merge_at lt mg a b), pa) :: rest)) as [H1 H2].
  { by constructor. }
  split; [done|]. rewrite H2, !flat_cons, !filter_app. simpl.
  by rewrite Hfil, <- app_assoc.
Qed.

Lemma found_new_run_spec mg p n2 listlen :
  Forall run_ok p ->
  Forall run_ok (fst (found_new_run lt mg p n2 listlen)) /\
  filter C (flat (fst (found_new_run lt mg p n2 listlen)))
  = filter C (flat p).
Proof.
  intros Hp. unfold found_new_run.
  destruct p as [|[top ptop] below]; [done|]. cbv zeta.
  destruct (collapse_above_spec (length ((top, ptop) :: below))
    (power_of (runs_len below) (len top) n2 listlen) mg
    ((top, ptop) :: below) Hp) as [H1 H2].
  destruct (collapse_above _ _ _ _ _) as [p' mg']. simpl in H1, H2.
  rewrite <- H2. destruct p' as [|[top' ?] below']; [done|]. simpl.
  split; [|by rewrite !flat_cons].
  apply Forall_cons in H1 as [Ht Hb]. by constructor.
Qed.

Lemma force_collapse_spec fuel : forall mg p,
  Forall run_ok p ->
  Forall run_ok (force_collapse lt fuel mg p) /\
  filter C (flat (force_collapse lt fuel mg p)) = filter C (flat p).
Proof.
  induction fuel as [|fuel IH]; intros mg p Hp; simpl; [done|].
  destruct p as [|[c pc] [|[b pb] [|[a pa] rest]]]; try done.
  - apply Forall_cons in Hp as [Hc Hp]. apply Forall_cons in Hp as [Hb Hp].
    destruct (merge_at_ok mg b c pb pc pb Hb Hc) as [Hok Hfil].
    destruct (IH (snd (merge_at lt mg b c)) [(fst (merge_at lt mg b c), pb)])
      as [H1 H2]; [by constructor|].
    split; [done|]. rewrite H2, !flat_cons, !filter_app. simpl.
    by rewrite Hfil.
  - apply Forall_cons in Hp as [Hc Hp]. apply Forall_cons in Hp as [Hb Hp].
    apply Forall_cons in Hp as [Ha Hp].
    destruct (len a <? len c).
    + destruct (merge_at_ok mg a b pa pb pa Ha Hb) as [Hok Hfil].
      destruct (IH (snd (merge_at lt mg a b))
        ((c, pc) :: (fst (merge_at lt mg a b), pa) :: rest)) as [H1 H2].
      { constructor; [done|]. by constructor. }
      split; [done|]. rewrite H2, !flat_cons, !filter_app. simpl.
      by rewrite Hfil, <- !app_assoc.
    + destruct (merge_at_ok mg b c pb pc pb Hb Hc) as [Hok Hfil].
      destruct (IH (snd (merge_at lt mg b c))
        ((fst (merge_at lt mg b c), pb) :: (a, pa) :: rest)) as [H1 H2].
      { constructor; [done|]. by constructor. }
      split; [done|]. rewrite H2, !flat_cons, !filter_app. simpl.
      by rewrite Hfil, <- !app_assoc.
Qed.

Lemma force_collapse_length fuel : forall mg p,
  (length p <= S fuel)%nat ->
  (length (force_collapse lt fuel mg p) <= 1)%nat.
Proof.
  induction fuel as [|fuel IH]; intros mg p Hlen; simpl; [done|].
  destruct p as [|[c pc] [|[b pb] [|[a pa] rest]]]; simpl in *; try lia.
  - apply IH. simpl. lia.
  - destruct (len a <? len c); apply IH; simpl; lia.
Qed.

Lemma sort_loop_spec fuel minrun listlen : forall mg p rest,
  Forall run_ok p -> Forall G rest -> (length rest <= fuel)%nat ->
  Forall run_ok (fst (sort_loop lt fuel minrun listlen mg p rest)) /\
  filter C (flat (fst (sort_loop lt fuel minrun listlen mg p rest)))
  = filter C (flat p ++ rest).
Proof.
  induction fuel as [|fuel IH]; intros mg p rest Hp Gr Hfuel.
  { destruct rest; simpl in *; [by rewrite app_nil_r|lia]. }
  destruct rest as [|x rest'] eqn:Erest; [simpl; by rewrite app_nil_r|].
  rewrite <- Erest in *. assert (Hrest : rest <> []) by (by rewrite Erest).
  assert (Hstep : sort_loop lt (S fuel) minrun listlen mg p rest =
    let '(run, cnt) := next_run lt minrun rest in
    let '(p, mg) := found_new_run lt mg p (Z.of_nat cnt) listlen in
    sort_loop lt fuel minrun listlen mg ((run, 0) :: p) (drop cnt rest)).
  { by rewrite Erest. }
  rewrite Hstep. clear Hstep.
  destruct (next_run_Permutation lt minrun rest Hrest) as [Hn Hperm].
  destruct (next_run_spec minrun rest Hrest Gr) as [Hasc Hfil].
  destruct (next_run lt minrun rest) as [run cnt]. simpl in Hn, Hperm, Hasc, Hfil.
  destruct (found_new_run_spec mg p (Z.of_nat cnt) listlen Hp) as [Hp1 Hp2].
  destruct (found_new_run _ _ _ _ _) as [p' mg']. simpl in Hp1, Hp2.
  destruct (IH mg' ((run, 0) :: p') (drop cnt rest)) as [H1 H2].
  - constructor; [|done]. split; [done|]. simpl. split.
    + rewrite Hperm. by apply Forall_take.
    + intros E. rewrite E in Hperm. apply Permutation_nil_l in Hperm.
      apply (f_equal length) in Hperm. rewrite length_take in Hperm.
      simpl in Hperm. lia.
  - by apply Forall_drop.
  - rewrite length_drop. lia.
  - split; [done|]. rewrite H2, flat_cons, !filter_app, Hp2. simpl.
    rewrite Hfil, <- app_assoc, <- filter_app. by rewrite take_drop.
Qed.

Lemma list_sort_spec l :
  Forall G l ->
  Asc (list_sort lt l) /\ filter C (list_sort lt l) = filter C l.
Proof.
  intros Gl. unfold list_sort.
  destruct l as [|x [|y l']]; [by split; [constructor|]|
                               by split; [repeat constructor|]|].
  remember (x :: y :: l') as l eqn:El. clear El. cbv zeta.
  destruct (sort_loop_spec (length l) (merge_compute_minrun (len l))
    (len l) MIN_GALLOP [] l) as [H1 H2]; [constructor|done|done|].
  destruct (sort_loop _ _ _ _ _ _ _) as [p mg]. simpl in H1, H2.
  destruct (force_collapse_spec (length p) mg p H1) as [H3 H4].
  pose proof (force_collapse_length (length p) mg p ltac:(lia)) as H5.
  split; [|by rewrite H4, H2].
  destruct (force_collapse lt (length p) mg p) as [|r [|]];
    [constructor| |simpl in H5; lia].
  rewrite flat_cons. simpl. by apply Forall_cons in H3 as [[? _] _].
Qed.

End Class.

Lemma list_sort_Asc l : Forall G l -> Asc (list_sort lt l).
Proof.
  intros Gl. by apply (list_sort_spec (fun _ => False)).
Qed.

End Order.

End ListSortFacts.

(** ** [sorted] is a stable sort of keys that are ordered *)

Module SortedFacts.
Import Server.

Lemma filter_sublist_mono {A} (P : A -> Prop) `{!forall x, Decision (P x)}
    (l1 l2 : list A) :
  l1 `sublist_of` l2 -> filter P l1 `sublist_of` filter P l2.
Proof.
  induction 1 as [|x l1 l2 _ IH|x l1 l2 _ IH]; [done| |];
    rewrite !filter_cons; destruct (decide (P x));
    auto using sublist_skip, sublist_cons.
Qed.

Section Stable.
Context {A K : Type}.
Variables (lt eq : K -> K -> bool) (key : A -> K).

(** The keys that [lt] orders: for floats, all but NaN. *)
Variable ordered : K -> Prop.

(** What is used of the order: [lt] is asymmetric and transitive, "not
    less" is transitive on the ordered keys, and [eq] is an equivalence on
    the keys it relates, finer than "neither is less". *)
Hypothesis lt_asym : forall x y, lt x y = true -> lt y x = false.
Hypothesis lt_trans : forall x y z, lt x y = true -> lt y z = true -> lt x z = true.
Hypothesis lt_neg_trans : forall x y z,
  ordered x -> ordered y -> ordered z ->
  lt x y = false -> lt y z = false -> lt x z = false.
Hypothesis eq_sym : forall x y, eq x y = true -> eq y x = true.
Hypothesis eq_trans : forall x y z, eq x y = true -> eq y z = true -> eq x z = true.
Hypothesis eq_not_lt : forall x y, eq x y = true -> lt x y = false.

Lemma sorted_Permutation xs rev : sorted lt key xs rev ≡ₚ xs.
Proof.
  unfold sorted, ListSort.sorted. destruct rev.
  - by rewrite reverse_Permutation, ListSortFacts.list_sort_Permutation,
      reverse_Permutation.
  - apply ListSortFacts.list_sort_Permutation.
Qed.

Lemma StronglySorted_reverse (R : A -> A -> Prop) l :
  StronglySorted R l -> StronglySorted (flip R) (reverse l).
Proof.
  induction 1 as [|x l Hl IH Hx]; [constructor|].
  rewrite reverse_cons. apply StronglySorted_app. split; [|split].
  - intros y z Hy ->%list_elem_of_singleton.
    rewrite elem_of_reverse in Hy. rewrite Forall_forall in Hx.
    unfold flip. by apply Hx.
  - done.
  - repeat constructor.
Qed.

Lemma sorted_ascending xs :
  Forall (fun x => ordered (key x)) xs ->
  ascending lt key (sorted lt key xs false).
Proof.
  intros Hxs. unfold sorted, ListSort.sorted.
  apply (ListSortFacts.list_sort_Asc (fun x y => lt (key x) (key y))
           (fun x => ordered (key x))); eauto.
Qed.

Lemma sorted_descending xs :
  Forall (fun x => ordered (key x)) xs ->
  descending lt key (sorted lt key xs true).
Proof.
  intros Hxs. unfold sorted, ListSort.sorted.
  apply (StronglySorted_reverse
           (fun x y => lt (key y) (key x) = false)).
  apply (ListSortFacts.list_sort_Asc (fun x y => lt (key x) (key y))
           (fun x => ordered (key x))); eauto.
  by apply Forall_reverse.
Qed.

(** Stability: for every key [k], the elements whose key equals [k] come
    out in the order they went in. *)
Lemma sorted_stable xs rev k :
  Forall (fun x => ordered (key x)) xs ->
  filter (fun r => eq k (key r) = true) (sorted lt key xs rev)
  = filter (fun r => eq k (key r) = true) xs.
Proof.
  intros Hxs.
  assert (Hspec : forall l, Forall (fun x => ordered (key x)) l ->
    filter (fun r => eq k (key r) = true)
           (ListSort.list_sort (fun x y => lt (key x) (key y)) l)
    = filter (fun r => eq k (key r) = true) l).
  { intros l Hl.
    apply (ListSortFacts.list_sort_spec (fun x y => lt (key x) (key y))
             (fun x => ordered (key x))); eauto. }
  unfold sorted, ListSort.sorted. destruct rev; [|by apply Hspec].
  rewrite filter_reverse, Hspec by (by apply Forall_reverse).
  by rewrite filter_reverse, reverse_involutive.
Qed.

(** The same, for two elements at a time. *)
Lemma sorted_stable_pair xs rev a b :
  Forall (fun x => ordered (key x)) xs ->
  eq (key a) (key b) = true ->
  [a; b] `sublist_of` xs ->
  [a; b] `sublist_of` sorted lt key xs rev.
Proof.
  intros Hxs Hab Hsub.
  pose (P := fun r => eq (key a) (key r) = true).
  assert (Ha : P a) by (eapply eq_trans; [|apply eq_sym]; done).
  transitivity (filter P (sorted lt key xs rev)); [|apply sublist_filter].
  unfold P. rewrite sorted_stable by done. fold P.
  replace [a; b] with (filter P [a; b]); [by apply filter_sublist_mono|].
  rewrite filter_cons_True, filter_cons_True by done. done.
Qed.

End Stable.
End SortedFacts.

(** ** The evidence model *)

Module EvidenceFacts.
Import EvidenceModel.

(** C9.  [flag(reason)] is a field with no value and no evidence, flagged,
    with [flag_reason = reason]; [ok(value, evidence)] is a field with that
    value and that evidence, not flagged, with no [flag_reason]. *)
Theorem flag_and_ok_fields {Any : Type} (reason : string)
    (v : option Any) (e : Evidence) :
  (value (flag (Any := Any) reason) = None /\
   evidence (flag (Any := Any) reason) = None /\
   flagged (flag (Any := Any) reason) = true /\
   flag_reason (flag (Any := Any) reason) = Some reason) /\
  (value (ok v e) = v /\
   evidence (ok v e) = Some e /\
   flagged (ok v e) = false /\
   flag_reason (ok v e) = None).
Proof. repeat split. Qed.

End EvidenceFacts.

(** ** The reliability map and the ranker *)

Module ServerFacts.
Import Server.

Section Facts.
Variable parse_float : string -> option float.

(** *** Building the reliability map *)

Lemma entry_accepted_iff entry :
  entry_accepted entry = true <->
  exists n, name entry = Some n /\ n <> "" /\ positive_number (reliability entry).
Proof.
  unfold entry_accepted. destruct (name entry) as [n|]; [|split; [done|]].
  - rewrite !andb_true_iff. split.
    + intros [[Hn Hnum] Hpos]. exists n. split; [done|]. split.
      * by destruct n.
      * by destruct (reliability entry) as [|[]| | | | |]; simpl in *;
          try apply Z.ltb_lt.
    + intros (? & [= <-] & Hn & Hpos). split; [split|].
      * by destruct n.
      * by destruct (reliability entry).
      * by destruct (reliability entry) as [|[]| | | | |]; simpl in *;
          try apply Z.ltb_lt.
  - by intros (? & ? & _).
Qed.

(** A malformed entry does not pass the guard. *)
Lemma malformed_not_accepted entry : malformed entry -> entry_accepted entry = false.
Proof.
  intros Hbad. destruct (entry_accepted entry) eqn:Hacc; [|done].
  apply entry_accepted_iff in Hacc as (n & Hn & _ & Hpos).
  destruct Hbad as [Hnone|Hneg]; [congruence|done].
Qed.

(** Skipping: the map is returned as it was, and nothing is raised. *)
Lemma add_entry_skip m entry :
  entry_accepted entry = false -> add_entry parse_float m entry = Return m.
Proof.
  unfold entry_accepted, add_entry. destruct (name entry); [|done].
  by intros ->.
Qed.

(** The weight an accepted entry stores is positive. *)
Lemma accepted_weight_positive entry w :
  entry_accepted entry = true ->
  py_float parse_float (reliability entry) = Return w ->
  (0 <? w)%float = true.
Proof.
  intros (n & _ & _ & Hpos)%entry_accepted_iff.
  destruct (reliability entry) as [|[]|i|f| | |]; simpl in *; try done.
  - by intros [= <-].
  - unfold float_of_int.
    destruct (FloatFacts.float_of_Z_pos i _ Hpos eq_refl) as [->|Hw]; [done|].
    destruct (binary_normalize prec emax i 0 false); by intros [= <-].
  - by intros [= <-].
Qed.

Lemma add_entry_lookup m entry m' :
  add_entry parse_float m entry = Return m' ->
  forall n w, m' !! n = Some w ->
    m !! n = Some w \/
    (name entry = Some n /\ entry_accepted entry = true /\
     py_float parse_float (reliability entry) = Return w).
Proof.
  unfold add_entry, entry_accepted. destruct (name entry) as [n0|].
  - destruct (_ && _ && _).
    + destruct (py_float parse_float (reliability entry)) as [w0|];
        simpl; [|done].
      intros [= <-] n w. rewrite lookup_insert.
      destruct (decide (n0 = n)) as [->|]; [|by left].
      intros [= <-]. by right.
    + intros [= <-]. by left.
  - intros [= <-]. by left.
Qed.

Lemma add_entries_lookup entries : forall m m',
  add_entries parse_float m entries = Return m' ->
  forall n w, m' !! n = Some w ->
    m !! n = Some w \/
    exists entry, entry ∈ entries /\ name entry = Some n /\
                  entry_accepted entry = true /\
                  py_float parse_float (reliability entry) = Return w.
Proof.
  induction entries as [|entry entries IH]; simpl; intros m m'.
  - intros [= <-]. by left.
  - destruct (add_entry parse_float m entry) as [m1|] eqn:H1; simpl; [|done].
    intros Hrest n w Hw.
    destruct (IH _ _ Hrest n w Hw) as [Hm1|(e & He & ?)].
    + destruct (add_entry_lookup _ _ _ H1 n w Hm1) as [?|(? & ? & ?)];
        [by left|].
      right. exists entry. split; [left|done].
    + right. exists e. split; [by right|done].
Qed.

(** Every weight of a map that was built is positive. *)
Lemma built_weights_positive settings m :
  _build_reliability_map parse_float settings = Return m ->
  forall n w, m !! n = Some w -> (0 <? w)%float = true.
Proof.
  unfold _build_reliability_map. intros Hbuild n w Hw.
  destruct (add_entries_lookup _ _ _ Hbuild n w Hw)
    as [Hempty|(entry & _ & _ & Hacc & Hfloat)].
  - by rewrite lookup_empty in Hempty.
  - by eapply accepted_weight_positive.
Qed.

(** A name is in the map only if an entry of that name passed the guard. *)
Lemma built_lookup_accepted settings m n w :
  _build_reliability_map parse_float settings = Return m ->
  m !! n = Some w ->
  exists entry, entry ∈ config_entries settings /\ name entry = Some n /\
                entry_accepted entry = true.
Proof.
  unfold _build_reliability_map. intros Hbuild Hw.
  destruct (add_entries_lookup _ _ _ Hbuild n w Hw)
    as [Hempty|(entry & Hin & Hname & Hacc & _)].
  - by rewrite lookup_empty in Hempty.
  - by exists entry.
Qed.

(** The construction raises only where [float] rejects the reliability of an
    entry that passed the guard (an integer too large for a float). *)
Lemma add_entries_returns entries : forall m,
  (forall entry, entry ∈ entries ->
     entry_accepted entry = false \/
     exists w, py_float parse_float (reliability entry) = Return w) ->
  exists m', add_entries parse_float m entries = Return m'.
Proof.
  induction entries as [|entry entries IH]; intros m Hall; simpl; [eauto|].
  assert (Hstep : exists m1, add_entry parse_float m entry = Return m1).
  { destruct (Hall entry) as [Hskip|[w Hw]]; [left| |].
    - rewrite add_entry_skip; eauto.
    - unfold add_entry. destruct (name entry); [|eauto].
      destruct (_ && _ && _); [|eauto]. rewrite Hw. simpl. eauto. }
  destruct Hstep as [m1 ->]. simpl. apply IH.
  intros e He. apply Hall. by right.
Qed.

(** C6 (amended).  An entry that is missing a name, or whose reliability
    is not a positive number, is skipped: processing it raises nothing and
    leaves the map as it was.  Every weight in the map that is built is
    positive, and a source falls back to the default weight 1.0 whenever
    every entry that bears its name is such an entry.  If all the entries
    are such entries the construction returns the empty map. *)
Theorem build_reliability_map_tolerant settings :
  (forall m entry, malformed entry ->
     add_entry parse_float m entry = Return m) /\
  ((forall entry, entry ∈ config_entries settings -> malformed entry) ->
   _build_reliability_map parse_float settings = Return ∅) /\
  (forall m, _build_reliability_map parse_float settings = Return m ->
     (forall n w, m !! n = Some w -> (0 <? w)%float = true) /\
     (forall n,
        (forall entry, entry ∈ config_entries settings ->
                       name entry = Some n -> malformed entry) ->
        m !! n = None /\ weight_of m (Some n) = 1%float)).
Proof.
  split; [|split].
  - intros m entry Hbad. by apply add_entry_skip, malformed_not_accepted.
  - intros Hall.
    destruct (add_entries_returns (config_entries settings) ∅) as [m Hm].
    { intros entry Hin. left. by apply malformed_not_accepted, Hall. }
    unfold _build_reliability_map. simpl. rewrite Hm. f_equal.
    apply map_eq. intros n. rewrite lookup_empty.
    destruct (m !! n) as [w|] eqn:Hw; [|done].
    destruct (built_lookup_accepted settings m n w Hm Hw)
      as (entry & Hin & _ & Hacc).
    by rewrite (malformed_not_accepted _ (Hall _ Hin)) in Hacc.
  - intros m Hbuild. split; [by eapply built_weights_positive|].
    intros n Hall.
    assert (Hnone : m !! n = None).
    { destruct (m !! n) as [w|] eqn:Hw; [|done].
      destruct (built_lookup_accepted _ _ _ _ Hbuild Hw)
        as (entry & Hin & Hname & Hacc).
      by rewrite (malformed_not_accepted _ (Hall _ Hin Hname)) in Hacc. }
    split; [done|]. simpl. by rewrite Hnone.
Qed.

(** C10.  When [settings.sources] is [None], a mapping without a
    ["sources"] key, or neither a mapping nor a list, the map that is built
    is empty, nothing is raised, and every source receives the weight
    1.0. *)
Theorem build_reliability_map_no_entries settings :
  sources settings = SrcNone \/
  (exists others, sources settings = SrcMapping None others) \/
  (exists v, sources settings = SrcOther v) ->
  _build_reliability_map parse_float settings = Return ∅ /\
  forall m, _build_reliability_map parse_float settings = Return m ->
            forall src_name, weight_of m src_name = 1%float.
Proof.
  intros Hshape.
  assert (Hempty : _build_reliability_map parse_float settings = Return ∅).
  { unfold _build_reliability_map, config_entries.
    destruct Hshape as [->|[[others ->]|[v ->]]]; simpl.
    - done.
    - by destruct (bool_decide (others = ∅)).
    - by destruct (truthy v). }
  split; [done|]. rewrite Hempty. intros m [= <-] [n|]; simpl; [|done].
  by rewrite lookup_empty.
Qed.

(** *** Weighting *)



(** *** Sorting and truncation *)

Create HintDb float_order.
#[local] Hint Resolve FloatFacts.ltb_asym FloatFacts.ltb_trans
  FloatFacts.ltb_neg_trans FloatFacts.eqb_sym FloatFacts.eqb_trans
  FloatFacts.eqb_not_ltb : float_order.

Lemma no_nan_score_Forall (results : list RawResult) :
  no_nan_score results = true ->
  Forall (fun r => (sort_key r =? sort_key r)%float = true) results.
Proof.
  unfold no_nan_score. induction results as [|r results IH]; simpl; [done|].
  intros [Hr Hrest]%andb_true_iff. constructor; [done|by apply IH].
Qed.

(** Whatever the weighted scores are, the sort loses and adds nothing. *)
Lemma sort_by_weighted_score_Permutation (results : list RawResult) :
  sort_by_weighted_score results ≡ₚ results.
Proof. apply SortedFacts.sorted_Permutation. Qed.

Lemma sort_by_weighted_score_filter (results : list RawResult) k :
  no_nan_score results = true ->
  filter (fun r => (k =? sort_key r)%float = true)
         (sort_by_weighted_score results)
  = filter (fun r => (k =? sort_key r)%float = true) results.
Proof.
  intros Hnum%no_nan_score_Forall.
  apply (SortedFacts.sorted_stable PrimFloat.ltb PrimFloat.eqb sort_key
           (fun x => (x =? x)%float = true));
    eauto with float_order.
Qed.

Lemma sort_by_weighted_score_pair (results : list RawResult) a b :
  no_nan_score results = true ->
  same_weighted_score a b ->
  [a; b] `sublist_of` results ->
  [a; b] `sublist_of` sort_by_weighted_score results.
Proof.
  intros Hnum%no_nan_score_Forall.
  apply (SortedFacts.sorted_stable_pair PrimFloat.ltb PrimFloat.eqb sort_key
           (fun x => (x =? x)%float = true));
    eauto with float_order.
Qed.

Lemma sort_by_weighted_score_descending (results : list RawResult) :
  no_nan_score results = true ->
  descending PrimFloat.ltb sort_key (sort_by_weighted_score results).
Proof.
  intros Hnum%no_nan_score_Forall.
  apply (SortedFacts.sorted_descending PrimFloat.ltb sort_key
           (fun x => (x =? x)%float = true));
    eauto with float_order.
Qed.

(** C3 (amended).  When no weighted score is NaN, the sort by weighted
    score, descending, is stable: the output is a rearrangement of the
    input in which no result has a smaller weighted score than a later one
    and in which, for every score [k], the results whose weighted score
    equals [k] come in the order they had in the input; in particular two
    results with equal weighted scores, [a] before [b] in the input, come
    out with [a] before [b]. *)
Theorem sort_by_weighted_score_stable (results : list RawResult) :
  no_nan_score results = true ->
  sort_by_weighted_score results ≡ₚ results /\
  descending PrimFloat.ltb sort_key (sort_by_weighted_score results) /\
  (forall k,
     filter (fun r => (k =? sort_key r)%float = true)
            (sort_by_weighted_score results)
     = filter (fun r => (k =? sort_key r)%float = true) results) /\
  (forall a b,
     same_weighted_score a b ->
     [a; b] `sublist_of` results ->
     [a; b] `sublist_of` sort_by_weighted_score results).
Proof.
  intros Hnum.
  split; [apply sort_by_weighted_score_Permutation|].
  split; [by apply sort_by_weighted_score_descending|].
  split; [intros k; by apply sort_by_weighted_score_filter|].
  intros a b. by apply sort_by_weighted_score_pair.
Qed.

Lemma list_prefix_all {A} (xs : list A) (k : Z) :
  Z.of_nat (length xs) <= k -> list_prefix xs k = xs.
Proof.
  intros Hk. unfold list_prefix, Py.slice_bound.
  destruct (k <? 0) eqn:Hneg; [apply Z.ltb_lt in Hneg; lia|].
  rewrite Z.min_r, Nat2Z.id by lia. apply firstn_all.
Qed.

Lemma list_prefix_length {A} (xs : list A) (k : Z) :
  0 <= k -> Z.of_nat (length (list_prefix xs k)) = Z.min k (Z.of_nat (length xs)).
Proof.
  intros Hk. unfold list_prefix, Py.slice_bound.
  destruct (k <? 0) eqn:Hneg; [apply Z.ltb_lt in Hneg; lia|].
  rewrite length_firstn. lia.
Qed.

(** *** Malformed scores *)

Lemma malformed_score_zero res :
  malformed_score parse_float res -> score_of parse_float res = 0%float.
Proof.
  unfold score_of. intros [->|(v & e & -> & Hraise)]; simpl.
  - reflexivity.
  - by rewrite Hraise.
Qed.

(** C7 (amended).  A result whose score is missing, or is a value that
    [float] rejects, does not make the ranking fail: it is weighted with the
    score 0.0 and is part of the ranked sequence, with
    [weighted_score = 0.0 * weight].  That product is 0.0 whenever the
    weight is finite, in particular for a source that is not in the map;
    and the result is part of the response whenever [top_k] is at least
    the number of results. *)
Theorem malformed_score_ranks_as_zero settings m raw res top_k :
  _build_reliability_map parse_float settings = Return m ->
  res ∈ raw ->
  malformed_score parse_float res ->
  let res' := apply_weight parse_float m res in
  let w := weight_of m (source_name res) in
  query_endpoint parse_float settings raw top_k
  = Return (list_prefix (ranked parse_float m raw) top_k) /\
  res' ∈ ranked parse_float m raw /\
  weighted_score res' = Some (0 * w)%float /\
  ((w <? infinity)%float = true -> weighted_score res' = Some 0%float) /\
  ((forall n, source_name res = Some n -> m !! n = None) ->
   weighted_score res' = Some 0%float) /\
  (Z.of_nat (length raw) <= top_k ->
   res' ∈ list_prefix (ranked parse_float m raw) top_k).
Proof.
  intros Hbuild Hin Hbad res' w.
  assert (Hranked : res' ∈ ranked parse_float m raw).
  { unfold ranked.
    rewrite sort_by_weighted_score_Permutation.
    unfold weighted. by apply list_elem_of_fmap_2. }
  assert (Hws : weighted_score res' = Some (0 * w)%float).
  { subst res' w. unfold apply_weight. simpl.
    by rewrite (malformed_score_zero _ Hbad). }
  assert (Hpos : (0 <? w)%float = true).
  { subst w. destruct (source_name res) as [n|]; simpl; [|done].
    destruct (m !! n) as [w0|] eqn:Hw0; simpl; [|done].
    exact (built_weights_positive settings m Hbuild n w0 Hw0). }
  split; [|split; [done|split; [done|split; [|split]]]].
  - unfold query_endpoint. by rewrite Hbuild.
  - intros Hfin. by rewrite Hws, FloatFacts.zero_mul.
  - intros Habsent. rewrite Hws. f_equal. subst w.
    destruct (source_name res) as [n|]; simpl; [|done].
    by rewrite (Habsent n eq_refl).
  - intros Hk. rewrite list_prefix_all; [done|].
    unfold ranked. rewrite sort_by_weighted_score_Permutation.
    unfold weighted. by rewrite length_fmap.
Qed.

End Facts.

(** *** Instances *)

(** C6, as the specification words it, fails when a source has two
    entries: the malformed one is skipped, but the source keeps the weight
    of the other one instead of falling back to 1.0. *)
Lemma malformed_entry_of_a_weighted_source :
  exists m entry,
    entry ∈ config_entries duplicate_sources /\
    name entry = Some "C" /\
    malformed entry /\
    _build_reliability_map no_parser duplicate_sources = Return m /\
    m !! "C" = Some 2%float /\
    weight_of m (Some "C") <> 1%float.
Proof.
  exists (<["C" := 2%float]> ∅), (mkEntry (Some "C") (VInt (-1))).
  split; [right; left|]. split; [done|]. split; [right; simpl; lia|].
  split; [by vm_compute|]. split; [apply lookup_insert_eq|].
  simpl. rewrite lookup_insert_eq. simpl.
  intros H. apply (f_equal (fun x => (x =? 1)%float)) in H. discriminate H.
Qed.

Lemma build_reliability_map_no_entries_witness :
  (sources (settings_with (SrcOther (VStr "none"))) = SrcNone \/
   (exists others,
      sources (settings_with (SrcOther (VStr "none"))) = SrcMapping None others) \/
   (exists v, sources (settings_with (SrcOther (VStr "none"))) = SrcOther v)) /\
  _build_reliability_map no_parser (settings_with (SrcOther (VStr "none")))
  = Return ∅ /\
  forall m,
    _build_reliability_map no_parser (settings_with (SrcOther (VStr "none")))
    = Return m ->
    forall src_name, weight_of m src_name = 1%float.
Proof.
  assert (Hshape :
    sources (settings_with (SrcOther (VStr "none"))) = SrcNone \/
    (exists others,
       sources (settings_with (SrcOther (VStr "none"))) = SrcMapping None others) \/
    (exists v, sources (settings_with (SrcOther (VStr "none"))) = SrcOther v)).
  { right. right. by exists (VStr "none"). }
  split; [exact Hshape|].
  exact (build_reliability_map_no_entries no_parser _ Hshape).
Defined.

(** Of three results with the scores 1.0, 2.0 and 1.0 the one with 2.0
    comes first and the other two keep their order. *)
Lemma sort_by_weighted_score_stable_witness :
  let results := weighted no_parser ∅ equal_scores in
  no_nan_score results = true /\
  map source_name (sort_by_weighted_score results)
  = [Some "B"; Some "A"; Some "C"] /\
  sort_by_weighted_score results ≡ₚ results /\
  descending PrimFloat.ltb sort_key (sort_by_weighted_score results) /\
  (forall k,
     filter (fun r => (k =? sort_key r)%float = true)
            (sort_by_weighted_score results)
     = filter (fun r => (k =? sort_key r)%float = true) results) /\
  (forall a b,
     same_weighted_score a b ->
     [a; b] `sublist_of` results ->
     [a; b] `sublist_of` sort_by_weighted_score results).
Proof.
  intros results.
  assert (Hnum : no_nan_score results = true) by (by vm_compute).
  split; [exact Hnum|]. split; [by vm_compute|].
  exact (sort_by_weighted_score_stable results Hnum).
Defined.

(** C3, as the specification words it, fails when a weighted score is
    NaN, which [<] does not order.  Of seven results with the scores 1.0,
    1.0, 1.0, 1.0, NaN, 1.0 and 2.0, the first two have equal weighted
    scores, and the sort puts the second one first and the first one
    fourth; the result of score 2.0 comes third. *)
Lemma equal_scores_swapped_by_nan :
  let results := weighted no_parser ∅ nan_among_equals in
  exists a b,
    results !! 0%nat = Some a /\ results !! 1%nat = Some b /\
    same_weighted_score a b /\
    [a; b] `sublist_of` results /\
    sort_by_weighted_score results !! 3%nat = Some a /\
    sort_by_weighted_score results !! 0%nat = Some b /\
    map source_name (sort_by_weighted_score results)
    = [Some "S1"; Some "S4"; Some "S6"; Some "S0"; Some "S2"; Some "S3";
       Some "S5"] /\
    map source_name
      (filter (fun r => (1 =? sort_key r)%float = true) results)
    = [Some "S0"; Some "S1"; Some "S2"; Some "S3"; Some "S5"] /\
    map source_name
      (filter (fun r => (1 =? sort_key r)%float = true)
         (sort_by_weighted_score results))
    = [Some "S1"; Some "S0"; Some "S2"; Some "S3"; Some "S5"].
Proof.
  intros results.
  exists (apply_weight no_parser ∅ (result_of "S0" (Some (VFloat 1)))),
         (apply_weight no_parser ∅ (result_of "S1" (Some (VFloat 1)))).
  split; [reflexivity|]. split; [reflexivity|].
  split; [by vm_compute|].
  split; [apply sublist_skip, sublist_skip, sublist_nil_l|].
  split; [by vm_compute|]. split; [by vm_compute|].
  split; [by vm_compute|]. split; by vm_compute.
Qed.

(** The specification's ranking example: the map is [{A: 1.0, B: 2.0}],
    the weighted scores are 1.0 and 2.0, and [B] comes first. *)
Example ranking_example :
  _build_reliability_map no_parser ab_sources
  = Return (<["B" := 2%float]> (<["A" := 1%float]> ∅)) /\
  forall m, _build_reliability_map no_parser ab_sources = Return m ->
    map weighted_score (weighted no_parser m ab_results)
    = [Some 1%float; Some 2%float] /\
    map source_name (ranked no_parser m ab_results) = [Some "B"; Some "A"].
Proof.
  assert (Hm : _build_reliability_map no_parser ab_sources
               = Return (<["B" := 2%float]> (<["A" := 1%float]> ∅)))
    by by vm_compute.
  split; [done|]. rewrite Hm. intros m [= <-]. by vm_compute.
Qed.


(** C7, as the specification words it, fails when the response is cut to
    [top_k]: of two results, the one without a score ranks last, and with
    [top_k = 1] it is not part of the response. *)
Lemma unscored_result_cut_from_response :
  exists res out,
    res ∈ scored_and_unscored /\
    malformed_score no_parser res /\
    query_endpoint no_parser (settings_with SrcNone) scored_and_unscored 1
    = Return out /\
    length out = 1%nat /\
    forall r, r ∈ out -> source_name r <> source_name res.
Proof.
  exists (result_of "B" None),
         [apply_weight no_parser ∅ (result_of "A" (Some (VFloat 1)))].
  split; [right; left|]. split; [by left|]. split; [by vm_compute|].
  split; [done|]. intros r ->%list_elem_of_singleton. done.
Qed.

(** Nor is the weighted score always 0.0: a configured reliability of
    infinity is accepted as a positive number, and 0.0 times infinity is
    not a number. *)
Example unscored_result_of_infinite_weight :
  exists m, _build_reliability_map no_parser infinite_sources = Return m /\
    weighted_score (apply_weight no_parser m (result_of "B" None))
    = Some nan.
Proof.
  exists (<["B" := infinity]> ∅). split; [by vm_compute|].
  unfold apply_weight. simpl. by rewrite lookup_insert_eq.
Qed.

Lemma malformed_score_ranks_as_zero_witness :
  let settings := settings_with SrcNone in
  let res := result_of "B" None in
  _build_reliability_map no_parser settings = Return ∅ /\
  res ∈ scored_and_unscored /\
  malformed_score no_parser res /\
  query_endpoint no_parser settings scored_and_unscored 2
  = Return (list_prefix (ranked no_parser ∅ scored_and_unscored) 2) /\
  apply_weight no_parser ∅ res ∈ ranked no_parser ∅ scored_and_unscored /\
  weighted_score (apply_weight no_parser ∅ res)
  = Some (0 * weight_of ∅ (source_name res))%float /\
  ((weight_of ∅ (source_name res) <? infinity)%float = true ->
   weighted_score (apply_weight no_parser ∅ res) = Some 0%float) /\
  ((forall n, source_name res = Some n -> (∅ : gmap string float) !! n = None) ->
   weighted_score (apply_weight no_parser ∅ res) = Some 0%float) /\
  (Z.of_nat (length scored_and_unscored) <= 2 ->
   apply_weight no_parser ∅ res
   ∈ list_prefix (ranked no_parser ∅ scored_and_unscored) 2).
Proof.
  intros settings res.
  assert (Hbuild : _build_reliability_map no_parser settings = Return ∅)
    by reflexivity.
  assert (Hin : res ∈ scored_and_unscored) by (right; left).
  assert (Hbad : malformed_score no_parser res) by (by left).
  split; [exact Hbuild|]. split; [exact Hin|]. split; [exact Hbad|].
  exact (malformed_score_ranks_as_zero no_parser settings ∅
           scored_and_unscored res 2 Hbuild Hin Hbad).
Defined.

(** Truncation: ten results and [top_k = 3] give the first three of the
    ranking. *)
Example truncation_example (results : list RawResult) :
  length results = 10%nat ->
  list_prefix (sort_by_weighted_score results) 3
  = take 3 (sort_by_weighted_score results) /\
  length (list_prefix (sort_by_weighted_score results) 3) = 3%nat.
Proof.
  intros Hlen.
  assert (Hsorted : length (sort_by_weighted_score results) = 10%nat).
  { by rewrite sort_by_weighted_score_Permutation. }
  unfold list_prefix. rewrite Hsorted.
  change (Z.to_nat (Py.slice_bound (Z.of_nat 10) 3)) with 3%nat.
  split; [done|]. rewrite length_take, Hsorted. lia.
Qed.

End ServerFacts.

(** ** Strings as lists of characters *)

Module StringFacts.

Abbreviation chars := list_ascii_of_string.

Lemma chars_app s1 s2 : chars (s1 +:+ s2) = chars s1 ++ chars s2.
Proof.
  induction s1 as [|a s1 IH]; [done|].
  change (a :: chars (s1 +:+ s2) = a :: (chars s1 ++ chars s2)).
  by f_equal.
Qed.

Lemma chars_length s : length (chars s) = String.length s.
Proof. induction s; simpl; by f_equal. Qed.

Lemma chars_inj s1 s2 : chars s1 = chars s2 -> s1 = s2.
Proof.
  intros H. rewrite <- (string_of_list_ascii_of_string s1),
    <- (string_of_list_ascii_of_string s2). by f_equal.
Qed.

Lemma string_app_assoc (s1 s2 s3 : string) :
  (s1 +:+ s2) +:+ s3 = s1 +:+ (s2 +:+ s3).
Proof. apply chars_inj. by rewrite !chars_app, app_assoc. Qed.

Lemma chars_substring s : forall n m,
  chars (String.substring n m s) = take m (drop n (chars s)).
Proof.
  induction s as [|a s IH]; intros [|n] [|m]; simpl; try done;
    by rewrite IH.
Qed.

Lemma chars_get s : forall i, String.get i s = chars s !! i.
Proof. induction s as [|a s IH]; intros [|i]; simpl; try done. Qed.

Lemma chars_join parts : chars (Py.join parts) = concat (map chars parts).
Proof.
  induction parts as [|p parts IH]; [done|].
  simpl. by rewrite chars_app, IH.
Qed.

(** A slice whose bounds lie within the string. *)
Lemma chars_slice s lo hi :
  0 <= lo <= hi -> hi <= Py.len s ->
  chars (Py.slice s lo hi)
  = take (Z.to_nat (hi - lo)) (drop (Z.to_nat lo) (chars s)).
Proof.
  intros Hlo Hhi. unfold Py.slice, Py.slice_bound.
  destruct (lo <? 0) eqn:E1; [apply Z.ltb_lt in E1; lia|].
  destruct (hi <? 0) eqn:E2; [apply Z.ltb_lt in E2; lia|].
  rewrite !Z.min_l by lia. apply chars_substring.
Qed.

Lemma forallb_Forall {A} (p : A -> bool) l :
  forallb p l = true -> Forall (fun x => p x = true) l.
Proof.
  induction l as [|x l IH]; simpl; [constructor|].
  intros [Hx Hl]%andb_true_iff. constructor; auto.
Qed.

(** A delimiter that occurs in neither of two fields separates them. *)
Lemma delimited {A} (d : A) : forall x x' r r',
  d ∉ x -> d ∉ x' -> x ++ d :: r = x' ++ d :: r' -> x = x' /\ r = r'.
Proof.
  induction x as [|a x IH]; intros [|a' x'] r r' Hx Hx'; simpl.
  - by intros [= ->].
  - intros [= -> _]. exfalso. apply Hx'. left.
  - intros [= -> _]. exfalso. apply Hx. left.
  - intros [= -> H]. apply IH in H as [-> ->]; [done| |].
    + intros ?. apply Hx. by right.
    + intros ?. apply Hx'. by right.
Qed.

End StringFacts.

(** ** The chunker: number, content and identifiers of the chunks *)

Module ChunkContentFacts.
Import Chunking ChunkingFacts StringFacts.

(** X1.  [chunk_document] returns exactly [ceil(len(text) / step)] chunks,
    where [step = max(chunk_size - overlap, 1)], whatever the arguments;
    the chunk at position [j] of the list has [chunk_index = j]; and the
    list is empty only for the empty text. *)
Theorem chunk_document_count doc txt chunk_size overlap :
  let step := Z.max (chunk_size - overlap) 1 in
  let chunks := chunk_document doc txt chunk_size overlap in
  Z.of_nat (length chunks) = (Py.len txt + step - 1) / step /\
  (forall (j : nat) c, chunks !! j = Some c -> chunk_index c = Z.of_nat j) /\
  (chunks = [] <-> txt = "").
Proof.
  intros step chunks.
  destruct (chunk_document_spec doc txt chunk_size overlap) as [Hat Hstop].
  fold step chunks in Hat, Hstop.
  assert (Hempty : txt = "" -> chunks = []) by (by intros ->).
  clearbody chunks.
  assert (Hstep : 1 <= step) by (subst step; lia).
  assert (Hn : 0 <= Py.len txt) by (unfold Py.len; lia).
  assert (Hlast : chunks <> [] ->
                  (Z.of_nat (length chunks) - 1) * step < Py.len txt).
  { destruct chunks as [|c0 l _] using rev_ind; [done|]. intros _.
    specialize (Hat (length l) c0).
    rewrite lookup_app_r, Nat.sub_diag in Hat by lia.
    destruct (Hat eq_refl) as [_ Hlt]. rewrite length_app. simpl length.
    replace (Z.of_nat (length l + 1) - 1) with (Z.of_nat (length l)) by lia.
    done. }
  split; [|split].
  - apply Z.div_unique
      with (r := Py.len txt + step - 1 - step * Z.of_nat (length chunks));
      [|lia].
    left. destruct chunks as [|c l].
    + simpl in *. lia.
    + assert (Hne : c :: l <> []) by done. specialize (Hlast Hne). nia.
  - intros j c Hc. by apply Hat in Hc as [-> _].
  - split; [|done].
    intros E. rewrite E in Hstop. simpl in Hstop.
    destruct txt; [done|]. unfold Py.len in Hstop. simpl in Hstop. lia.
Qed.

Example chunk_document_count_example :
  length (chunk_document "doc1" "ABCDEFGHIJ" 4 1) = 4%nat /\
  (Py.len "ABCDEFGHIJ" + Z.max (4 - 1) 1 - 1) / Z.max (4 - 1) 1 = 4.
Proof. split; reflexivity. Qed.

(** The text of a chunk, character by character. *)
Lemma chunk_text_chars doc txt chunk_size overlap c :
  1 <= chunk_size ->
  c ∈ chunk_document doc txt chunk_size overlap ->
  0 <= start_char c < end_char c /\ end_char c <= Py.len txt /\
  end_char c = Z.min (start_char c + chunk_size) (Py.len txt) /\
  chars (text c)
  = take (Z.to_nat (end_char c - start_char c))
         (drop (Z.to_nat (start_char c)) (chars txt)).
Proof.
  intros Hsize [j Hj]%list_elem_of_lookup.
  destruct (chunk_document_spec doc txt chunk_size overlap) as [Hat _].
  apply Hat in Hj as [-> Hlt].
  set (step := Z.max (chunk_size - overlap) 1) in *.
  assert (0 <= Z.of_nat j * step) by (subst step; nia).
  simpl. split; [lia|]. split; [lia|]. split; [done|].
  apply chars_slice; lia.
Qed.

Lemma chunk_text_length doc txt chunk_size overlap c :
  1 <= chunk_size ->
  c ∈ chunk_document doc txt chunk_size overlap ->
  Py.len (text c) = end_char c - start_char c.
Proof.
  intros Hsize Hc.
  destruct (chunk_text_chars _ _ _ _ _ Hsize Hc) as (Hs & He & Hend & Htext).
  unfold Py.len in *.
  rewrite <- chars_length, Htext, length_take, length_drop, chars_length. lia.
Qed.

(** X2.  With [chunk_size >= 1], the text of every chunk is the part of
    the document its offsets delimit: it has [end_char - start_char]
    characters, between 1 and [chunk_size] of them and exactly [chunk_size]
    unless the window is cut by the end of the document, and its character
    at [p - start_char] is the character of the document at [p], for every
    offset [p] of the window. *)
Theorem chunk_text_is_window doc txt chunk_size overlap c :
  1 <= chunk_size ->
  c ∈ chunk_document doc txt chunk_size overlap ->
  Py.len (text c) = end_char c - start_char c /\
  1 <= Py.len (text c) <= chunk_size /\
  (start_char c + chunk_size <= Py.len txt -> Py.len (text c) = chunk_size) /\
  forall p, in_window c p ->
    String.get (Z.to_nat (p - start_char c)) (text c)
    = String.get (Z.to_nat p) txt.
Proof.
  intros Hsize Hc.
  destruct (chunk_text_chars _ _ _ _ _ Hsize Hc) as (Hs & He & Hend & Htext).
  pose proof (chunk_text_length _ _ _ _ _ Hsize Hc) as Hlen.
  split; [done|]. split; [lia|]. split; [lia|].
  intros p Hp. unfold in_window in Hp.
  rewrite !chars_get, Htext, lookup_take_lt, lookup_drop by lia.
  f_equal. lia.
Qed.

(** The second chunk of the specification's example, ["DEFG"] at
    [[3, 7)]. *)
Lemma chunk_text_is_window_witness :
  let c := emit "doc1" "ABCDEFGHIJ" 4 3 1 in
  1 <= 4 /\
  c ∈ chunk_document "doc1" "ABCDEFGHIJ" 4 1 /\
  text c = "DEFG" /\
  Py.len (text c) = end_char c - start_char c /\
  1 <= Py.len (text c) <= 4 /\
  (start_char c + 4 <= Py.len "ABCDEFGHIJ" -> Py.len (text c) = 4) /\
  forall p, in_window c p ->
    String.get (Z.to_nat (p - start_char c)) (text c)
    = String.get (Z.to_nat p) "ABCDEFGHIJ".
Proof.
  intros c.
  assert (Hsize : 1 <= 4) by lia.
  assert (Hc : c ∈ chunk_document "doc1" "ABCDEFGHIJ" 4 1).
  { apply (list_elem_of_lookup_2 _ 1%nat).
    exact (chunk_document_lookup "doc1" "ABCDEFGHIJ" 4 1 1 eq_refl). }
  split; [exact Hsize|]. split; [exact Hc|]. split; [reflexivity|].
  exact (chunk_text_is_window "doc1" "ABCDEFGHIJ" 4 1 c Hsize Hc).
Defined.

(** The chunks are the records emitted for the offsets 0, [step],
    [2 * step], ... *)
Lemma chunk_document_map doc txt chunk_size overlap :
  let step := Z.max (chunk_size - overlap) 1 in
  let chunks := chunk_document doc txt chunk_size overlap in
  chunks = map (fun j => emit doc txt chunk_size (Z.of_nat j * step) (Z.of_nat j))
               (seq 0 (length chunks)).
Proof.
  intros step chunks.
  destruct (chunk_document_spec doc txt chunk_size overlap) as [Hat _].
  fold step chunks in Hat. clearbody chunks.
  apply list_eq. intros j. rewrite list_lookup_fmap.
  destruct (chunks !! j) as [c|] eqn:Hc.
  - rewrite lookup_seq_lt by (by eapply lookup_lt_Some).
    simpl. by apply Hat in Hc as [-> _].
  - apply lookup_ge_None in Hc. by rewrite lookup_seq_ge.
Qed.

(** Consecutive pieces of [s] elements make up a front part of a list. *)
Lemma concat_take_drop {A} (l : list A) (s : nat) : forall k,
  concat (map (fun j => take s (drop (j * s) l)) (seq 0 k)) = take (k * s) l.
Proof.
  induction k as [|k IH]; [by rewrite take_0|].
  rewrite seq_S, map_app, concat_app, IH. simpl. rewrite app_nil_r.
  rewrite take_take_drop. f_equal. lia.
Qed.

(** X3.  With [chunk_size >= 1] and [overlap >= 0] the document can be
    put together again from its chunks: the first [step] characters of
    every chunk text, one after the other, are the document; with
    [overlap = 0] the chunk texts themselves are. *)
Theorem chunks_reassemble doc txt chunk_size overlap :
  1 <= chunk_size -> 0 <= overlap ->
  let step := Z.max (chunk_size - overlap) 1 in
  let chunks := chunk_document doc txt chunk_size overlap in
  Py.join (map (fun c => Py.slice (text c) 0 step) chunks) = txt /\
  (overlap = 0 -> Py.join (map text chunks) = txt).
Proof.
  intros Hsize Hov step chunks.
  assert (Hstep : 1 <= step <= chunk_size) by (subst step; lia).
  assert (Hpiece : forall c, c ∈ chunks ->
            chars (Py.slice (text c) 0 step)
            = take (Z.to_nat step) (drop (Z.to_nat (start_char c)) (chars txt))).
  { intros c Hc.
    destruct (chunk_text_chars _ _ _ _ _ Hsize Hc) as (Hs & He & Hend & Htext).
    pose proof (chunk_text_length _ _ _ _ _ Hsize Hc) as Hlen.
    unfold Py.slice, Py.slice_bound. rewrite Hlen.
    destruct (step <? 0) eqn:E; [apply Z.ltb_lt in E; lia|].
    change (0 <? 0) with false. cbv iota.
    rewrite (Z.min_l 0), Z.sub_0_r by lia. change (Z.to_nat 0) with 0%nat.
    rewrite chars_substring, drop_0, Htext, take_take.
    remember (drop (Z.to_nat (start_char c)) (chars txt)) as l.
    assert (Hl : length l = Z.to_nat (Py.len txt - start_char c)).
    { subst l. rewrite length_drop, chars_length. unfold Py.len. lia. }
    destruct (Z.le_ge_cases (start_char c + step) (Py.len txt)).
    - f_equal. lia.
    - rewrite !take_ge; [done|lia|lia]. }
  assert (Hall : Py.join (map (fun c => Py.slice (text c) 0 step) chunks) = txt).
  { apply chars_inj. rewrite chars_join, map_map.
    destruct (chunk_document_spec doc txt chunk_size overlap) as [Hat Hstop].
    fold step chunks in Hat, Hstop.
    transitivity (concat (map (fun j => take (Z.to_nat step)
                     (drop (j * Z.to_nat step) (chars txt)))
                   (seq 0 (length chunks)))).
    - pose proof (chunk_document_map doc txt chunk_size overlap) as Hmap.
      fold step chunks in Hmap. clearbody chunks.
      remember (length chunks) as k eqn:Hk.
      rewrite Hmap at 1. subst k. rewrite map_map. f_equal.
      apply map_ext_in. intros j Hj%in_seq.
      destruct (lookup_lt_is_Some_2 chunks j) as [c Hc]; [lia|].
      pose proof (Hat _ _ Hc) as [Hemit _].
      rewrite <- Hemit, Hpiece by (by eapply list_elem_of_lookup_2).
      rewrite Hemit. simpl. do 2 f_equal. nia.
    - rewrite concat_take_drop, take_ge; [done|].
      rewrite chars_length. unfold Py.len in Hstop. nia. }
  split; [done|]. intros ->.
  etransitivity; [|exact Hall]. f_equal. apply map_ext_in.
  intros c Hc%list_elem_of_In.
  destruct (chunk_text_chars _ _ _ _ _ Hsize Hc) as (Hs & He & Hend & Htext).
  apply chars_inj. rewrite (Hpiece _ Hc), Htext.
  assert (Hl : length (drop (Z.to_nat (start_char c)) (chars txt))
               = Z.to_nat (Py.len txt - start_char c)).
  { rewrite length_drop, chars_length. unfold Py.len. lia. }
  clear Hpiece Hall.
  destruct (Z.le_ge_cases (start_char c + chunk_size) (Py.len txt)).
  - f_equal. lia.
  - rewrite !take_ge; [done|lia|lia].
Qed.

Lemma chunks_reassemble_witness :
  1 <= 4 /\ 0 <= 0 /\
  let step := Z.max (4 - 0) 1 in
  let chunks := chunk_document "doc1" "ABCDEFGHIJ" 4 0 in
  Py.join (map (fun c => Py.slice (text c) 0 step) chunks) = "ABCDEFGHIJ" /\
  (0 = 0 -> Py.join (map text chunks) = "ABCDEFGHIJ").
Proof.
  split; [lia|]. split; [lia|].
  apply (chunks_reassemble "doc1" "ABCDEFGHIJ" 4 0); lia.
Defined.

(** With an overlap, the first [step] characters of every chunk. *)
Example chunks_reassemble_example :
  map (fun c => Py.slice (text c) 0 (Z.max (4 - 1) 1))
      (chunk_document "doc1" "ABCDEFGHIJ" 4 1)
  = ["ABC"; "DEF"; "GHI"; "J"].
Proof. vm_compute. reflexivity. Qed.

(** X4.  A negative overlap is not rejected: the step is then larger than
    [chunk_size], and the characters between two windows belong to no
    chunk.  With [1 <= chunk_size < len(text)] the character at offset
    [chunk_size] is one of them. *)
Theorem negative_overlap_leaves_gaps doc txt chunk_size overlap :
  1 <= chunk_size -> overlap < 0 -> chunk_size < Py.len txt ->
  forall c, c ∈ chunk_document doc txt chunk_size overlap ->
            ~ in_window c chunk_size.
Proof.
  intros Hsize Hov Hlen c [j Hj]%list_elem_of_lookup Hin.
  apply chunk_document_at in Hj as (_ & Hs & He & _).
  unfold in_window in Hin. destruct j as [|j]; [lia|nia].
Qed.

Lemma negative_overlap_leaves_gaps_witness :
  1 <= 4 /\ -2 < 0 /\ 4 < Py.len "ABCDEFGHIJ" /\
  forall c, c ∈ chunk_document "d" "ABCDEFGHIJ" 4 (-2) -> ~ in_window c 4.
Proof.
  split; [lia|]. split; [lia|]. split; [reflexivity|].
  apply (negative_overlap_leaves_gaps "d" "ABCDEFGHIJ" 4 (-2));
    [lia|lia|reflexivity].
Defined.

Example negative_overlap_windows :
  map (fun c => (text c, start_char c, end_char c))
      (chunk_document "d" "ABCDEFGHIJ" 4 (-2))
  = [("ABCD", 0, 4); ("GHIJ", 6, 10)].
Proof. vm_compute. reflexivity. Qed.

(** *** The shape of the identifiers *)

Lemma compress_length h block :
  length h = 8%nat -> length (SHA256.compress h block) = 8%nat.
Proof.
  intros Hh. unfold SHA256.compress. rewrite length_map, length_combine, Hh.
  reflexivity.
Qed.

Lemma blocks_length fuel : forall h ws,
  length h = 8%nat -> length (SHA256.blocks fuel h ws) = 8%nat.
Proof.
  induction fuel as [|fuel IH]; intros h ws Hh; simpl; [done|].
  destruct ws; [done|]. by apply IH, compress_length.
Qed.

Lemma digest_length msg : length (SHA256.digest msg) = 8%nat.
Proof. unfold SHA256.digest. by apply blocks_length. Qed.

Lemma hex_digit_lower x : lower_hex (SHA256.hex_digit (Z.land x 15)) = true.
Proof.
  change 15 with (Z.ones 4). rewrite Z.land_ones by lia.
  pose proof (Z.mod_pos_bound x (2 ^ 4) eq_refl) as Hn.
  rewrite <- (Z2Nat.id (x mod 2 ^ 4)) by lia.
  assert (Hk : (Z.to_nat (x mod 2 ^ 4) < 16)%nat) by lia.
  revert Hk. generalize (Z.to_nat (x mod 2 ^ 4)). intros k Hk.
  do 16 (destruct k as [|k]; [reflexivity|]). lia.
Qed.

Lemma hex_word_chars w :
  length (chars (SHA256.hex_word w)) = 8%nat /\
  hex_string (SHA256.hex_word w).
Proof.
  unfold hex_string, SHA256.hex_word.
  rewrite list_ascii_of_string_of_list_ascii. split; [done|].
  apply Forall_map, Forall_true. intros i. apply hex_digit_lower.
Qed.

(** A digest is written as 64 characters of [0-9a-f]. *)
Lemma hexdigest_chars msg :
  String.length (SHA256.hexdigest msg) = 64%nat /\
  hex_string (SHA256.hexdigest msg).
Proof.
  unfold SHA256.hexdigest. pose proof (digest_length msg) as Hd.
  destruct (SHA256.digest msg)
    as [|w0 [|w1 [|w2 [|w3 [|w4 [|w5 [|w6 [|w7 [|]]]]]]]]];
    try discriminate Hd.
  clear Hd. unfold hex_string. rewrite <- chars_length.
  change (fold_right _ _ _) with
    (SHA256.hex_word w0 +:+ SHA256.hex_word w1 +:+ SHA256.hex_word w2 +:+
     SHA256.hex_word w3 +:+ SHA256.hex_word w4 +:+ SHA256.hex_word w5 +:+
     SHA256.hex_word w6 +:+ SHA256.hex_word w7 +:+ "").
  rewrite !chars_app, !length_app, !Forall_app.
  pose proof (hex_word_chars w0) as []. pose proof (hex_word_chars w1) as [].
  pose proof (hex_word_chars w2) as []. pose proof (hex_word_chars w3) as [].
  pose proof (hex_word_chars w4) as []. pose proof (hex_word_chars w5) as [].
  pose proof (hex_word_chars w6) as []. pose proof (hex_word_chars w7) as [].
  split; [simpl; lia|]. repeat split; done || constructor.
Qed.

(** X5.  The [chunk_id] of every chunk, and the hash of its text that goes
    into it, are strings of exactly 64 characters, each one of
    [0-9a-f]. *)
Theorem chunk_id_is_hex doc txt chunk_size overlap c :
  c ∈ chunk_document doc txt chunk_size overlap ->
  String.length (chunk_id c) = 64%nat /\ hex_string (chunk_id c) /\
  String.length (sha256_hex (text c)) = 64%nat /\
  hex_string (sha256_hex (text c)).
Proof.
  intros [_ ->]%chunk_document_elem. unfold chunk_id_of, sha256_hex.
  split; [apply hexdigest_chars|]. split; [apply hexdigest_chars|].
  split; apply hexdigest_chars.
Qed.

Lemma chunk_id_is_hex_witness :
  let c := emit "doc1" "ABCDEFGHIJ" 4 0 0 in
  c ∈ chunk_document "doc1" "ABCDEFGHIJ" 4 1 /\
  String.length (chunk_id c) = 64%nat /\ hex_string (chunk_id c) /\
  String.length (sha256_hex (text c)) = 64%nat /\
  hex_string (sha256_hex (text c)).
Proof.
  intros c.
  assert (Hc : c ∈ chunk_document "doc1" "ABCDEFGHIJ" 4 1).
  { apply (list_elem_of_lookup_2 _ 0%nat).
    exact (chunk_document_lookup "doc1" "ABCDEFGHIJ" 4 1 0 eq_refl). }
  split; [exact Hc|].
  exact (chunk_id_is_hex "doc1" "ABCDEFGHIJ" 4 1 c Hc).
Defined.

(** The hashed message determines the ordinal and the hash of the text,
    the latter having a fixed length. *)
Lemma id_message_inj_hash d i j h h' :
  String.length h = String.length h' ->
  id_message d i h = id_message d j h' -> i = j /\ h = h'.
Proof.
  unfold id_message. intros Hlen Heq%String.app_inj.
  assert (Hl : length (chars (Py.str_int i)) = length (chars (Py.str_int j))).
  { apply (f_equal String.length) in Heq.
    rewrite !string_app_length in Heq. rewrite !chars_length. lia. }
  apply (f_equal chars) in Heq. rewrite !chars_app in Heq.
  apply app_inj_1 in Heq as [Hi Hh]; [|done].
  split; [by apply str_int_inj, chars_inj|by apply chars_inj].
Qed.

(** X6.  Two chunks at different positions of the list returned for one
    document are hashed from different messages, whatever their texts: the
    identifiers of one document are pairwise different unless two of these
    messages are a SHA-256 collision. *)
Theorem chunk_ids_of_a_document_differ doc txt chunk_size overlap
    (i j : nat) c c' :
  chunk_document doc txt chunk_size overlap !! i = Some c ->
  chunk_document doc txt chunk_size overlap !! j = Some c' ->
  i <> j ->
  let m := id_message (doc_id c) (chunk_index c) (sha256_hex (text c)) in
  let m' := id_message (doc_id c') (chunk_index c') (sha256_hex (text c')) in
  chunk_index c <> chunk_index c' /\ m <> m' /\
  (~ sha256_collision m m' -> chunk_id c <> chunk_id c').
Proof.
  intros Hc Hc' Hij m m'.
  pose proof (list_elem_of_lookup_2 _ _ _ Hc) as [Hd Hid]%chunk_document_elem.
  pose proof (list_elem_of_lookup_2 _ _ _ Hc') as [Hd' Hid']%chunk_document_elem.
  apply chunk_document_at in Hc as (Hi & _).
  apply chunk_document_at in Hc' as (Hj & _).
  assert (Hidx : chunk_index c <> chunk_index c') by lia.
  assert (Hm : m <> m').
  { subst m m'. rewrite Hd, Hd'. intros Heq.
    apply id_message_inj_hash in Heq as [Heq _]; [done|].
    unfold sha256_hex.
    by rewrite (proj1 (hexdigest_chars _)), (proj1 (hexdigest_chars _)). }
  split; [done|]. split; [done|]. intros Hfree Heq. apply Hfree.
  split; [done|]. rewrite Hid, Hid' in Heq. exact Heq.
Qed.

(** Two chunks of the specification's example, with different texts. *)
Lemma chunk_ids_of_a_document_differ_witness :
  let c := emit "doc1" "ABCDEFGHIJ" 4 0 0 in
  let c' := emit "doc1" "ABCDEFGHIJ" 4 9 3 in
  chunk_document "doc1" "ABCDEFGHIJ" 4 1 !! 0%nat = Some c /\
  chunk_document "doc1" "ABCDEFGHIJ" 4 1 !! 3%nat = Some c' /\
  0%nat <> 3%nat /\
  chunk_index c <> chunk_index c' /\
  id_message (doc_id c) (chunk_index c) (sha256_hex (text c))
  <> id_message (doc_id c') (chunk_index c') (sha256_hex (text c')).
Proof.
  intros c c'.
  pose proof (chunk_document_lookup "doc1" "ABCDEFGHIJ" 4 1 0 eq_refl) as Hc.
  pose proof (chunk_document_lookup "doc1" "ABCDEFGHIJ" 4 1 3 eq_refl) as Hc'.
  assert (Hij : 0%nat <> 3%nat) by discriminate.
  split; [exact Hc|]. split; [exact Hc'|]. split; [exact Hij|].
  destruct (chunk_ids_of_a_document_differ "doc1" "ABCDEFGHIJ" 4 1 0 3 c c'
              Hc Hc' Hij) as (Hidx & Hm & _).
  split; [exact Hidx|exact Hm].
Defined.

End ChunkContentFacts.

(** ** The JSON lines file *)

Module JsonFacts.
Import Chunking ChunkingFacts StringFacts Json.

(** The model agrees with [json.dumps] on a record whose text holds a
    quote, a line break and a non-ASCII letter. *)
Example dumps_sample_chunk :
  dumps (as_dict sample_chunk)
  = with_quotes
      "{'chunk_id': 'ab', 'doc_id': 'd', 'chunk_index': 0, 'text': 'A\'B\n\u00e9/', 'start_char': 0, 'end_char': -4}".
Proof. vm_compute. reflexivity. Qed.

(** *** Reading back *)

Lemma read_escape_char c t :
  read_str (escape_char c +:+ t) = prepend c (read_str t).
Proof.
  destruct c as [b0 b1 b2 b3 b4 b5 b6 b7].
  destruct b0, b1, b2, b3, b4, b5, b6, b7; reflexivity.
Qed.

Lemma read_escape s rest :
  read_str (escape s +:+ String quote rest) = Some (s, rest).
Proof.
  induction s as [|c s IH]; [reflexivity|].
  change (escape (String c s)) with (escape_char c +:+ escape s).
  by rewrite string_app_assoc, read_escape_char, IH.
Qed.

(** A string literal can be read back, whatever follows it. *)
Lemma dumps_str_field a a' r r' :
  dumps_str a +:+ r = dumps_str a' +:+ r' -> a = a' /\ r = r'.
Proof.
  unfold dumps_str.
  change (String quote (escape a +:+ String quote "") +:+ r)
    with (String quote ((escape a +:+ String quote "") +:+ r)).
  change (String quote (escape a' +:+ String quote "") +:+ r')
    with (String quote ((escape a' +:+ String quote "") +:+ r')).
  intros [= H]. rewrite !string_app_assoc in H.
  apply (f_equal read_str) in H.
  change (String quote "" +:+ r) with (String quote r) in H.
  change (String quote "" +:+ r') with (String quote r') in H.
  rewrite !read_escape in H. by injection H.
Qed.

Lemma str_field a a' r r' :
  chars (dumps_str a) ++ r = chars (dumps_str a') ++ r' -> a = a' /\ r = r'.
Proof.
  intros H.
  rewrite <- (list_ascii_of_string_of_list_ascii r),
          <- (list_ascii_of_string_of_list_ascii r'), <- !chars_app in H.
  apply chars_inj, dumps_str_field in H as [-> H]. split; [done|].
  apply (f_equal chars) in H.
  by rewrite !list_ascii_of_string_of_list_ascii in H.
Qed.

(** *** The characters that are written *)

Lemma escape_char_printable c :
  Forall (fun x => printable x = true) (chars (escape_char c)).
Proof.
  apply forallb_Forall. destruct c as [b0 b1 b2 b3 b4 b5 b6 b7].
  destruct b0, b1, b2, b3, b4, b5, b6, b7; reflexivity.
Qed.

Lemma escape_printable s :
  Forall (fun x => printable x = true) (chars (escape s)).
Proof.
  induction s as [|c s IH]; [constructor|].
  change (escape (String c s)) with (escape_char c +:+ escape s).
  rewrite chars_app. apply Forall_app. split; [apply escape_char_printable|done].
Qed.

Lemma string_of_uint_chars d :
  Forall (fun x => int_char x = true) (chars (NilEmpty.string_of_uint d)).
Proof. induction d; simpl; repeat constructor; done. Qed.

Lemma str_int_chars i :
  Forall (fun x => int_char x = true) (chars (Py.str_int i)).
Proof.
  unfold Py.str_int, NilZero.string_of_int.
  destruct (Z.to_int i) as [d|d].
  - unfold NilZero.string_of_uint. destruct d; try apply string_of_uint_chars.
    repeat constructor.
  - simpl. constructor; [done|].
    unfold NilZero.string_of_uint. destruct d; try apply string_of_uint_chars.
    repeat constructor.
Qed.

(** An integer can be read back up to the character that follows it. *)
Lemma int_field i i' (d : ascii) r r' :
  int_char d = false ->
  chars (Py.str_int i) ++ d :: r = chars (Py.str_int i') ++ d :: r' ->
  i = i' /\ r = r'.
Proof.
  intros Hd H.
  assert (Hnot : forall j, d ∉ chars (Py.str_int j)).
  { intros j Hin. pose proof (str_int_chars j) as Hall.
    rewrite Forall_forall in Hall. apply Hall in Hin. congruence. }
  apply delimited in H as [H ->]; [|done|done].
  split; [|done]. by apply str_int_inj, chars_inj.
Qed.

Lemma int_field_sep i i' r r' :
  chars (Py.str_int i) ++ sep ++ r = chars (Py.str_int i') ++ sep ++ r' ->
  i = i' /\ r = r'.
Proof.
  change (sep ++ r) with (","%char :: " "%char :: r).
  change (sep ++ r') with (","%char :: " "%char :: r').
  intros [-> H]%int_field; [|done]. by injection H.
Qed.

Lemma int_field_end i i' r r' :
  chars (Py.str_int i) ++ chars "}" ++ r
  = chars (Py.str_int i') ++ chars "}" ++ r' ->
  i = i' /\ r = r'.
Proof.
  change (chars "}" ++ r) with ("}"%char :: r).
  change (chars "}" ++ r') with ("}"%char :: r').
  by intros [-> H]%int_field.
Qed.

(** *** One record *)

Lemma dumps_chunk_chars c :
  chars (dumps (as_dict c))
  = chars "{" ++
    label "chunk_id" ++ chars (dumps_str (chunk_id c)) ++ sep ++
    label "doc_id" ++ chars (dumps_str (doc_id c)) ++ sep ++
    label "chunk_index" ++ chars (Py.str_int (chunk_index c)) ++ sep ++
    label "text" ++ chars (dumps_str (text c)) ++ sep ++
    label "start_char" ++ chars (Py.str_int (start_char c)) ++ sep ++
    label "end_char" ++ chars (Py.str_int (end_char c)) ++ chars "}".
Proof.
  unfold dumps, as_dict, dumps_item, label, sep.
  cbn [map String.concat fst snd dumps_value].
  rewrite !chars_app, <- !app_assoc. reflexivity.
Qed.

(** A record can be read back, whatever follows it. *)
Lemma dumps_chunk_inj c c' r r' :
  chars (dumps (as_dict c)) ++ r = chars (dumps (as_dict c')) ++ r' ->
  c = c' /\ r = r'.
Proof.
  rewrite !dumps_chunk_chars, <- !app_assoc. intros H.
  apply app_inv_head in H. apply app_inv_head in H.
  apply str_field in H as [E1 H]. apply app_inv_head in H.
  apply app_inv_head in H.
  apply str_field in H as [E2 H]. apply app_inv_head in H.
  apply app_inv_head in H.
  apply int_field_sep in H as [E3 H]. apply app_inv_head in H.
  apply str_field in H as [E4 H]. apply app_inv_head in H.
  apply app_inv_head in H.
  apply int_field_sep in H as [E5 H]. apply app_inv_head in H.
  apply int_field_end in H as [E6 H].
  split; [|done]. destruct c, c'; simpl in *. congruence.
Qed.

Lemma dumps_chunk_printable c :
  Forall (fun x => printable x = true) (chars (dumps (as_dict c))).
Proof.
  assert (Hstr : forall s,
            Forall (fun x => printable x = true) (chars (dumps_str s))).
  { intros s. unfold dumps_str. cbn [list_ascii_of_string].
    constructor; [done|]. rewrite chars_app. apply Forall_app.
    split; [apply escape_printable|]. by repeat constructor. }
  assert (Hint : forall i,
            Forall (fun x => printable x = true) (chars (Py.str_int i))).
  { intros i. eapply Forall_impl; [apply str_int_chars|].
    intros x. unfold int_char, printable.
    rewrite orb_true_iff, !andb_true_iff, !Z.leb_le, Z.eqb_eq. lia. }
  rewrite dumps_chunk_chars. unfold label, sep.
  repeat (apply Forall_app; split);
    first [apply Hstr | apply Hint | by repeat constructor].
Qed.

Lemma filter_newline_printable l :
  Forall (fun x => printable x = true) l ->
  filter (fun x => x = newline) l = [].
Proof.
  induction 1 as [|x l Hx _ IH]; [done|].
  rewrite filter_cons_False; [done|]. by intros ->.
Qed.

(** *** The file *)

Lemma write_chunks_to_file_cons c chunks :
  chars (write_chunks_to_file (c :: chunks))
  = chars (dumps (as_dict c)) ++ newline :: chars (write_chunks_to_file chunks).
Proof.
  change (write_chunks_to_file (c :: chunks))
    with (dumps (as_dict c) +:+ String newline (write_chunks_to_file chunks)).
  by rewrite chars_app.
Qed.

(** X7.  The file [write_chunks_to_file] writes holds one line per chunk:
    all its characters are line breaks or printable ASCII characters
    ([' ' .. '~']), the number of line breaks is the number of chunks, and
    no record contains a line break, whatever the text of the chunk
    holds. *)
Theorem jsonl_one_line_per_chunk chunks :
  let file := chars (write_chunks_to_file chunks) in
  Forall (fun x => x = newline \/ printable x = true) file /\
  length (filter (fun x => x = newline) file) = length chunks /\
  forall c, newline ∉ chars (dumps (as_dict c)).
Proof.
  intros file. subst file. split; [|split].
  - induction chunks as [|c chunks IH]; [constructor|].
    rewrite write_chunks_to_file_cons. apply Forall_app. split.
    + eapply Forall_impl; [apply dumps_chunk_printable|]. by right.
    + constructor; [by left|done].
  - induction chunks as [|c chunks IH]; [done|].
    rewrite write_chunks_to_file_cons, filter_app, length_app.
    rewrite (filter_newline_printable _ (dumps_chunk_printable c)).
    rewrite filter_cons_True by done. simpl length. by rewrite IH.
  - intros c Hin. pose proof (dumps_chunk_printable c) as Hall.
    rewrite Forall_forall in Hall. by apply Hall in Hin.
Qed.

(** X8.  For chunk records whose [doc_id] and [text] hold code points
    below 256 only, which is what a [string] holds here, nothing is lost
    in writing: two lists of such records that are written as the same
    file are the same list, field by field.  (The statement does not
    extend to all of Python's strings: [json.dumps] writes a character
    beyond U+FFFF and its pair of surrogates alike.) *)
Theorem jsonl_file_determines_chunks chunks chunks' :
  write_chunks_to_file chunks = write_chunks_to_file chunks' ->
  chunks = chunks'.
Proof.
  intros H%(f_equal chars). revert chunks' H.
  induction chunks as [|c chunks IH]; intros [|c' chunks'] H.
  - done.
  - rewrite write_chunks_to_file_cons, dumps_chunk_chars in H. discriminate H.
  - rewrite write_chunks_to_file_cons, dumps_chunk_chars in H. discriminate H.
  - rewrite !write_chunks_to_file_cons in H.
    apply dumps_chunk_inj in H as [-> H]. injection H as H. f_equal. by apply IH.
Qed.

Lemma jsonl_file_determines_chunks_witness :
  write_chunks_to_file [sample_chunk; sample_chunk]
  = write_chunks_to_file (repeat sample_chunk 2) /\
  [sample_chunk; sample_chunk] = repeat sample_chunk 2.
Proof.
  assert (H : write_chunks_to_file [sample_chunk; sample_chunk]
              = write_chunks_to_file (repeat sample_chunk 2)) by reflexivity.
  split; [exact H|].
  exact (jsonl_file_determines_chunks _ _ H).
Defined.

End JsonFacts.

(** ** The response of [query_endpoint] *)

Module ResponseFacts.
Import Server FloatFacts ServerFacts.

(** *** Comparison of numbers that are not NaN *)

Lemma SFcompare_Gt_Lt x y :
  SFcompare x y = Some Gt -> SFcompare y x = Some Lt.
Proof.
  sf_cases x; sf_cases y; simpl; try congruence; intros H; f_equal; cmp_specs.
Qed.

Lemma SFcompare_None x y :
  SFcompare x y = None -> SFcompare x x = None \/ SFcompare y y = None.
Proof. sf_cases x; sf_cases y; simpl; try congruence; auto. Qed.

(** A float is equal to itself unless it is NaN; between two such floats
    "not less" is "greater or equal". *)
Lemma not_ltb_leb x y :
  (x =? x)%float = true -> (y =? y)%float = true ->
  (x <? y)%float = false -> (y <=? x)%float = true.
Proof.
  rewrite !FloatAxioms.eqb_spec, FloatAxioms.ltb_spec, FloatAxioms.leb_spec.
  unfold SFeqb, SFltb, SFleb. intros Hx Hy.
  destruct (SFcompare (Prim2SF x) (Prim2SF y)) as [[]|] eqn:Hxy; try done;
    intros _.
  - by rewrite (SFcompare_Eq_sym _ _ Hxy).
  - by rewrite (SFcompare_Gt_Lt _ _ Hxy).
  - apply SFcompare_None in Hxy as [H|H]; rewrite H in *; done.
Qed.

Lemma StronglySorted_lookup_lt {A} (R : A -> A -> Prop) (l : list A) :
  StronglySorted R l ->
  forall (i j : nat) x y,
    (i < j)%nat -> l !! i = Some x -> l !! j = Some y -> R x y.
Proof.
  induction 1 as [|a l Hs IH Hall]; intros [|i] [|j] x y Hij; simpl;
    try done; try lia.
  - intros [= <-] Hy. rewrite Forall_forall in Hall.
    apply Hall. by eapply list_elem_of_lookup_2.
  - apply IH. lia.
Qed.

Section Facts.
Variable parse_float : string -> option float.

(** *** Size and order of the response *)

Lemma query_endpoint_returns settings raw top_k out :
  query_endpoint parse_float settings raw top_k = Return out ->
  exists m, _build_reliability_map parse_float settings = Return m /\
            out = list_prefix (ranked parse_float m raw) top_k.
Proof.
  unfold query_endpoint.
  destruct (_build_reliability_map parse_float settings) as [m|]; simpl; [|done].
  intros [= <-]. by exists m.
Qed.

Lemma ranked_length m raw : length (ranked parse_float m raw) = length raw.
Proof.
  unfold ranked. rewrite sort_by_weighted_score_Permutation.
  unfold weighted. by rewrite length_map.
Qed.

(** The response is a front part of the ranking. *)
Lemma response_is_prefix settings raw top_k out :
  query_endpoint parse_float settings raw top_k = Return out ->
  exists m rest,
    _build_reliability_map parse_float settings = Return m /\
    ranked parse_float m raw = out ++ rest.
Proof.
  intros (m & Hm & ->)%query_endpoint_returns. unfold list_prefix.
  eexists m, _. split; [done|]. symmetry. apply take_drop.
Qed.

(** X9.  For [top_k >= 0] the response holds [min(top_k, n)] results, [n]
    being the number of results retrieved: never more than 50 under the
    bound the request model puts on [top_k], and at least one when
    [top_k >= 1] and something was retrieved. *)
Theorem response_size settings raw top_k out :
  0 <= top_k ->
  query_endpoint parse_float settings raw top_k = Return out ->
  Z.of_nat (length out) = Z.min top_k (Z.of_nat (length raw)) /\
  (top_k <= 50 -> (length out <= 50)%nat) /\
  (1 <= top_k -> raw <> [] -> out <> []).
Proof.
  intros Hk (m & _ & ->)%query_endpoint_returns.
  pose proof (list_prefix_length (ranked parse_float m raw) top_k Hk) as Hlen.
  rewrite ranked_length in Hlen. split; [done|]. split; [lia|].
  intros Hk1 Hraw Hout. rewrite Hout in Hlen. simpl in Hlen.
  destruct raw; [done|]. simpl in Hlen. lia.
Qed.

(** X10.  The response is the top of the ranking: together with the
    results that were cut off it is a rearrangement of the weighted
    retrieval results; when no weighted score is NaN, no result that was
    cut off has a greater weighted score than one that was kept; and every
    result of the response is a retrieved result with its source, score
    and other fields unchanged. *)
Theorem response_is_the_top_of_the_ranking settings raw top_k out :
  query_endpoint parse_float settings raw top_k = Return out ->
  exists m rest,
    _build_reliability_map parse_float settings = Return m /\
    out ++ rest ≡ₚ map (apply_weight parse_float m) raw /\
    (no_nan_score (weighted parse_float m raw) = true ->
     forall r r', r ∈ out -> r' ∈ rest ->
       (sort_key r <? sort_key r')%float = false) /\
    (forall r, r ∈ out ->
       exists res, res ∈ raw /\ r = apply_weight parse_float m res /\
                   source_name r = source_name res /\ score r = score res /\
                   metadata r = metadata res).
Proof.
  intros (m & rest & Hm & Hranked)%response_is_prefix.
  exists m, rest.
  assert (Hperm : out ++ rest ≡ₚ map (apply_weight parse_float m) raw).
  { rewrite <- Hranked. apply sort_by_weighted_score_Permutation. }
  split; [done|]. split; [done|]. split.
  - intros Hnum r r' Hr Hr'.
    pose proof (sort_by_weighted_score_descending
                  (weighted parse_float m raw) Hnum) as Hdesc.
    fold (ranked parse_float m raw) in Hdesc. rewrite Hranked in Hdesc.
    exact (StronglySorted_app_1_elem_of _ _ _ _ _ Hdesc Hr Hr').
  - intros r Hr.
    assert (Hin : r ∈ map (apply_weight parse_float m) raw).
    { rewrite <- Hperm. apply elem_of_app. by left. }
    apply list_elem_of_fmap in Hin as (res & -> & Hres). by exists res.
Qed.

(** X11.  When no weighted score of the retrieved results is NaN, the
    response is in non-increasing order of weighted score: of two of its
    results the later one has a weighted score less than or equal to that
    of the earlier one. *)
Theorem response_non_increasing settings raw top_k out :
  query_endpoint parse_float settings raw top_k = Return out ->
  (forall m, _build_reliability_map parse_float settings = Return m ->
     no_nan_score (weighted parse_float m raw) = true) ->
  forall (i j : nat) ri rj,
    (i < j)%nat -> out !! i = Some ri -> out !! j = Some rj ->
    (sort_key rj <=? sort_key ri)%float = true.
Proof.
  intros (m & rest & Hm & Hranked)%response_is_prefix Hnum i j ri rj Hij Hi Hj.
  specialize (Hnum m Hm).
  pose proof (sort_by_weighted_score_descending
                (weighted parse_float m raw) Hnum) as Hdesc.
  fold (ranked parse_float m raw) in Hdesc. rewrite Hranked in Hdesc.
  apply StronglySorted_app_1_l in Hdesc.
  assert (Hall : forall r, r ∈ out -> (sort_key r =? sort_key r)%float = true).
  { intros r Hr. apply no_nan_score_Forall in Hnum.
    rewrite Forall_forall in Hnum. apply Hnum.
    rewrite <- (sort_by_weighted_score_Permutation (weighted parse_float m raw)).
    fold (ranked parse_float m raw). rewrite Hranked.
    apply elem_of_app. by left. }
  apply not_ltb_leb.
  - apply Hall. by eapply list_elem_of_lookup_2.
  - apply Hall. by eapply list_elem_of_lookup_2.
  - exact (StronglySorted_lookup_lt _ _ Hdesc i j ri rj Hij Hi Hj).
Qed.

(** *** Several entries for one source *)

Lemma add_entries_app l1 : forall m l2,
  add_entries parse_float m (l1 ++ l2)
  = bind (add_entries parse_float m l1)
         (fun m1 => add_entries parse_float m1 l2).
Proof.
  induction l1 as [|e l1 IH]; intros m l2; simpl; [done|].
  destruct (add_entry parse_float m e); simpl; [apply IH|done].
Qed.

Lemma add_entry_other m entry m' n :
  add_entry parse_float m entry = Return m' ->
  (name entry = Some n -> entry_accepted entry = false) ->
  m' !! n = m !! n.
Proof.
  unfold add_entry, entry_accepted. destruct (name entry) as [n0|].
  - destruct (_ && _ && _).
    + destruct (py_float parse_float (reliability entry)); simpl; [|done].
      intros [= <-] Hn. apply lookup_insert_ne. intros ->.
      by specialize (Hn eq_refl).
    + by intros [= <-].
  - by intros [= <-].
Qed.

Lemma add_entries_other entries : forall m m' n,
  add_entries parse_float m entries = Return m' ->
  (forall e, e ∈ entries -> name e = Some n -> entry_accepted e = false) ->
  m' !! n = m !! n.
Proof.
  induction entries as [|e entries IH]; simpl; intros m m' n.
  - by intros [= <-].
  - destruct (add_entry parse_float m e) as [m1|] eqn:H1; simpl; [|done].
    intros Hrest Hall. rewrite (IH _ _ _ Hrest).
    + eapply add_entry_other; [done|]. apply Hall. left.
    + intros e' He'. apply Hall. by right.
Qed.

(** X12.  When a source has several entries, the last one that passes
    the guard sets its weight: if [entry] bears the name [n], passes the
    guard and has the reliability [w], and no later entry named [n] passes
    the guard, then the map that is built holds [w] for [n]. *)
Theorem last_accepted_entry_wins settings m before entry after n w :
  config_entries settings = before ++ entry :: after ->
  name entry = Some n ->
  entry_accepted entry = true ->
  py_float parse_float (reliability entry) = Return w ->
  (forall e, e ∈ after -> name e = Some n -> entry_accepted e = false) ->
  _build_reliability_map parse_float settings = Return m ->
  m !! n = Some w /\ weight_of m (Some n) = w.
Proof.
  intros Hentries Hname Hacc Hw Hafter. unfold _build_reliability_map.
  rewrite Hentries, add_entries_app.
  destruct (add_entries parse_float ∅ before) as [m1|]; simpl; [|done].
  unfold add_entry. unfold entry_accepted in Hacc. rewrite Hname in *.
  rewrite Hacc, Hw. simpl. intros Hrest.
  assert (Hn : m !! n = Some w).
  { rewrite (add_entries_other _ _ _ _ Hrest Hafter). apply lookup_insert_eq. }
  split; [done|]. by rewrite Hn.
Qed.

(** *** Exceptions *)

Lemma float_of_int_raises i e : float_of_int i = Raise e -> e = OverflowError.
Proof.
  unfold float_of_int.
  destruct (binary_normalize prec emax i 0 false); congruence.
Qed.

Lemma add_entry_raises m entry e :
  add_entry parse_float m entry = Raise e <->
  e = OverflowError /\ overflows entry.
Proof.
  unfold overflows, add_entry, entry_accepted. destruct (name entry) as [n|].
  - destruct (_ && _ && _) eqn:Hguard.
    + apply andb_true_iff in Hguard as [[_ Hnum]%andb_true_iff _].
      destruct (reliability entry) as [|b|i|f| | |]; try done; simpl.
      * split; [done|]. by intros (_ & _ & i & [=] & _).
      * destruct (float_of_int i) as [w|e'] eqn:Hi; simpl.
        -- split; [done|]. intros (_ & _ & i' & [= <-] & Hi'). congruence.
        -- pose proof (float_of_int_raises _ _ Hi) as ->. split.
           ++ intros [= <-]. split; [done|]. split; [done|]. by exists i.
           ++ by intros [-> _].
      * split; [done|]. by intros (_ & _ & i & [=] & _).
    + split; [done|]. by intros (_ & [=] & _).
  - split; [done|]. by intros (_ & [=] & _).
Qed.

Lemma add_entries_raises entries : forall m e,
  add_entries parse_float m entries = Raise e <->
  e = OverflowError /\ exists entry, entry ∈ entries /\ overflows entry.
Proof.
  induction entries as [|entry entries IH]; intros m e; simpl.
  - split; [done|]. by intros (_ & ? & ?%elem_of_nil & _).
  - destruct (add_entry parse_float m entry) as [m1|e1] eqn:H1; simpl.
    + rewrite IH. split.
      * intros (-> & e' & Hin & Hov). split; [done|]. exists e'.
        split; [by right|done].
      * intros (-> & e' & Hin & Hov). split; [done|].
        apply elem_of_cons in Hin as [->|Hin]; [|by exists e'].
        assert (add_entry parse_float m entry = Raise OverflowError) as Hr
          by (by apply add_entry_raises).
        congruence.
    + apply add_entry_raises in H1 as [-> Hov]. split.
      * intros [= <-]. split; [done|]. exists entry. split; [left|done].
      * by intros [-> _].
Qed.

(** X13.  For a configuration of one of the shapes of [SourcesConfig]
    (the entries, if any, are a list of mappings, each with a name that
    is a string or absent) and for retrieval results whose source name is
    a string or absent, the ranking part of [query_endpoint] raises in one
    case only: [OverflowError], exactly when some configured entry passes
    the guard with a reliability that is an integer too large for a
    float.  No score of a retrieval result makes it raise.  (Outside these
    shapes Python raises [TypeError] or [AttributeError]: for a
    ["sources"] value that cannot be iterated, an entry that is not a
    mapping, a name or source name that cannot be hashed.) *)
Theorem query_endpoint_raises settings raw top_k e :
  query_endpoint parse_float settings raw top_k = Raise e <->
  e = OverflowError /\
  exists entry, entry ∈ config_entries settings /\ overflows entry.
Proof.
  unfold query_endpoint, _build_reliability_map.
  rewrite <- (add_entries_raises (config_entries settings) ∅ e).
  destruct (add_entries parse_float ∅ (config_entries settings)); simpl;
    split; congruence.
Qed.

(** X14.  Without a usable reliability configuration ([sources] is
    [None], a mapping without a ["sources"] key, an empty list, or
    neither a mapping nor a list) the endpoint does not raise and ranks by
    the score alone: the weighted score of every result is its score as a
    float, exactly. *)
Theorem unconfigured_ranking_is_by_score settings raw top_k :
  sources settings = SrcNone \/
  (exists others, sources settings = SrcMapping None others) \/
  (exists v, sources settings = SrcOther v) \/
  sources settings = SrcList [] ->
  query_endpoint parse_float settings raw top_k
  = Return (list_prefix (ranked parse_float ∅ raw) top_k) /\
  forall res,
    weighted_score (apply_weight parse_float ∅ res)
    = Some (score_of parse_float res).
Proof.
  intros Hshape. split.
  - unfold query_endpoint, _build_reliability_map, config_entries.
    destruct Hshape as [->|[[others ->]|[[v ->]| ->]]]; simpl.
    + done.
    + by destruct (bool_decide (others = ∅)).
    + by destruct (truthy v).
    + done.
  - intros res. unfold apply_weight. simpl. f_equal.
    replace (weight_of ∅ (source_name res)) with 1%float.
    + apply mul_one_r.
    + destruct (source_name res); simpl; [|done]. by rewrite lookup_empty.
Qed.

End Facts.

(** *** Instances *)

(** Of a scored and an unscored result, [top_k = 1] keeps the scored
    one. *)
Lemma response_size_witness :
  let out := [apply_weight no_parser ∅ (result_of "A" (Some (VFloat 1)))] in
  0 <= 1 /\
  query_endpoint no_parser (settings_with SrcNone) scored_and_unscored 1
  = Return out /\
  Z.of_nat (length out) = Z.min 1 (Z.of_nat (length scored_and_unscored)) /\
  (1 <= 50 -> (length out <= 50)%nat) /\
  (1 <= 1 -> scored_and_unscored <> [] -> out <> []).
Proof.
  intros out.
  assert (Hk : 0 <= 1) by lia.
  assert (Hout : query_endpoint no_parser (settings_with SrcNone)
                   scored_and_unscored 1 = Return out) by (by vm_compute).
  split; [exact Hk|]. split; [exact Hout|].
  exact (response_size no_parser (settings_with SrcNone) scored_and_unscored
           1 out Hk Hout).
Defined.

Lemma response_is_the_top_of_the_ranking_witness :
  let out := [apply_weight no_parser ∅ (result_of "A" (Some (VFloat 1)))] in
  query_endpoint no_parser (settings_with SrcNone) scored_and_unscored 1
  = Return out /\
  exists m rest,
    _build_reliability_map no_parser (settings_with SrcNone) = Return m /\
    out ++ rest ≡ₚ map (apply_weight no_parser m) scored_and_unscored /\
    (no_nan_score (weighted no_parser m scored_and_unscored) = true ->
     forall r r', r ∈ out -> r' ∈ rest ->
       (sort_key r <? sort_key r')%float = false) /\
    (forall r, r ∈ out ->
       exists res, res ∈ scored_and_unscored /\
                   r = apply_weight no_parser m res /\
                   source_name r = source_name res /\ score r = score res /\
                   metadata r = metadata res).
Proof.
  intros out.
  assert (Hout : query_endpoint no_parser (settings_with SrcNone)
                   scored_and_unscored 1 = Return out) by (by vm_compute).
  split; [exact Hout|].
  exact (response_is_the_top_of_the_ranking no_parser (settings_with SrcNone)
           scored_and_unscored 1 out Hout).
Defined.

(** The specification's ranking example, in full: [B] with the weighted
    score 2.0, then [A] with 1.0. *)
Lemma response_non_increasing_witness :
  let a := apply_weight no_parser (<["A" := 1%float]> ∅)
             (result_of "A" (Some (VFloat 1))) in
  let b := apply_weight no_parser (<["B" := 2%float]> ∅)
             (result_of "B" (Some (VFloat 1))) in
  query_endpoint no_parser ab_sources ab_results 5 = Return [b; a] /\
  (forall m, _build_reliability_map no_parser ab_sources = Return m ->
     no_nan_score (weighted no_parser m ab_results) = true) /\
  (0 < 1)%nat /\
  (sort_key a <=? sort_key b)%float = true.
Proof.
  intros a b.
  assert (Hout : query_endpoint no_parser ab_sources ab_results 5
                 = Return [b; a]) by (by vm_compute).
  assert (Hm : _build_reliability_map no_parser ab_sources
               = Return (<["B" := 2%float]> (<["A" := 1%float]> ∅)))
    by (by vm_compute).
  assert (Hnum : forall m,
            _build_reliability_map no_parser ab_sources = Return m ->
            no_nan_score (weighted no_parser m ab_results) = true).
  { intros m Hm'. rewrite Hm in Hm'. injection Hm' as <-. by vm_compute. }
  assert (Hlt : (0 < 1)%nat) by lia.
  split; [exact Hout|]. split; [exact Hnum|]. split; [exact Hlt|].
  exact (response_non_increasing no_parser ab_sources ab_results 5 [b; a]
           Hout Hnum 0%nat 1%nat b a Hlt eq_refl eq_refl).
Defined.

(** With a NaN among the weighted scores the order of the response is
    not to be relied on: of three results with the scores 1.0, NaN and
    2.0 the sort leaves all three in place, and [top_k = 1] keeps the
    result of score 1.0 and cuts off the one of score 2.0. *)
Example nan_hides_a_better_result :
  map source_name (ranked no_parser ∅ nan_in_the_middle)
  = [Some "A"; Some "B"; Some "C"] /\
  exists out,
    query_endpoint no_parser (settings_with SrcNone) nan_in_the_middle 1
    = Return out /\
    map source_name out = [Some "A"] /\
    map weighted_score out = [Some 1%float].
Proof.
  split; [by vm_compute|]. eexists. split; [by vm_compute|].
  split; by vm_compute.
Qed.

(** Of four results with the scores 1.0, 6.0, NaN and 5.0, [top_k = 2]
    keeps those of scores 6.0 and 1.0 and cuts off the one of score
    5.0. *)
Example nan_hides_the_second_best_result :
  exists out,
    query_endpoint no_parser (settings_with SrcNone) nan_before_the_last 2
    = Return out /\
    map source_name out = [Some "B"; Some "A"] /\
    map weighted_score out = [Some 6%float; Some 1%float].
Proof.
  eexists. split; [by vm_compute|]. split; by vm_compute.
Qed.

(** Source [C] configured twice, with 1.0 and then with 3: its weight is
    3.0. *)
Lemma last_accepted_entry_wins_witness :
  exists m,
    _build_reliability_map no_parser reweighted_source = Return m /\
    m !! "C" = Some 3%float /\ weight_of m (Some "C") = 3%float.
Proof.
  eexists. split; [vm_compute; reflexivity|].
  apply (last_accepted_entry_wins no_parser reweighted_source _
           [mkEntry (Some "C") (VFloat 1)] (mkEntry (Some "C") (VInt 3)) []
           "C" 3%float).
  - reflexivity.
  - reflexivity.
  - reflexivity.
  - vm_compute. reflexivity.
  - intros e []%elem_of_nil.
  - vm_compute. reflexivity.
Defined.

(** The integer [2 ^ 1024] is positive and passes the guard, and [float]
    rejects it. *)
Example huge_reliability_raises :
  query_endpoint no_parser huge_reliability ab_results 5 = Raise OverflowError /\
  exists entry, entry ∈ config_entries huge_reliability /\ overflows entry.
Proof.
  assert (H : query_endpoint no_parser huge_reliability ab_results 5
              = Raise OverflowError) by (by vm_compute).
  split; [exact H|]. exists (mkEntry (Some "A") (VInt (2 ^ 1024))).
  split; [left|]. split; [reflexivity|]. exists (2 ^ 1024).
  split; [reflexivity|]. by vm_compute.
Qed.

Lemma unconfigured_ranking_is_by_score_witness :
  (sources (settings_with (SrcList [])) = SrcNone \/
   (exists others, sources (settings_with (SrcList [])) = SrcMapping None others) \/
   (exists v, sources (settings_with (SrcList [])) = SrcOther v) \/
   sources (settings_with (SrcList [])) = SrcList []) /\
  query_endpoint no_parser (settings_with (SrcList [])) ab_results 5
  = Return (list_prefix (ranked no_parser ∅ ab_results) 5) /\
  forall res,
    weighted_score (apply_weight no_parser ∅ res)
    = Some (score_of no_parser res).
Proof.
  assert (Hshape :
    sources (settings_with (SrcList [])) = SrcNone \/
    (exists others,
       sources (settings_with (SrcList [])) = SrcMapping None others) \/
    (exists v, sources (settings_with (SrcList [])) = SrcOther v) \/
    sources (settings_with (SrcList [])) = SrcList []).
  { right. right. right. reflexivity. }
  split; [exact Hshape|].
  exact (unconfigured_ranking_is_by_score no_parser _ ab_results 5 Hshape).
Defined.

End ResponseFacts.
